(** * Family-tree generator: model and verified properties

    A shallow embedding of the two generation engines of the repository,
    [FamilyTree.py] / [PersonFactory.py] and [family_tree_ai.py] /
    [person_factory_ai.py] / [person_ai.py].

    Conventions of the model.
    - A Python [int] is a [Z]; a Python [float] is the rational number it
      denotes (a [Q]), and every floating-point operation rounds its exact
      result to the nearest binary64 value, ties to even ([Binary64.fl]).
      Infinities and nans are not values of the model. A rounded result
      of magnitude [2 ^ 1024] or more is what binary64 turns into an
      infinity: [Binary64.isfinite] tests for it, and [random.choices],
      the one place where the code checks a float for being finite, uses it
      on the running sums of the weights. The other float operations of the
      engines (a birth rate plus or minus 1.5, a year plus a life expectancy
      plus a variation, a draw of [[0, 1)] times a finite total, a year plus
      a fraction of twenty years) cannot leave the finite range on finite
      doubles; on operands that are not finite doubles the model says
      nothing about the code.
    - Objects live in a store ([heap]); a reference is the index at which
      the object was allocated, so aliasing of [Person] objects through
      [spouse] and [children] is kept.
    - The pseudo-random generator is an oracle: the [n]-th call of a
      function of the [random] module is resolved by the [n]-th value of an
      arbitrary sequence, so a statement for every oracle covers every seed.
    - A Python exception is the result [Raise]; the [while] loops take fuel,
      and [OutOfFuel] is the only result that stands for a run that has not
      finished. *)

From Stdlib Require Import ZArith QArith Qround Qabs Qpower Lia Lqa.
From stdpp Require Import gmap strings list pretty sorting.

(** * Part I: the model *)

(** ** Python floats (IEEE 754 binary64, round to nearest, ties to even) *)

Module Binary64.
Local Open Scope Q_scope.

(** [round(x)] of a float: the nearest integer, ties to the even one. *)
Definition py_round (x : Q) : Z :=
  let f := Qfloor x in
  match Qcompare (x - inject_Z f) (1 # 2) with
  | Lt => f
  | Gt => (f + 1)%Z
  | Eq => if Z.even f then f else (f + 1)%Z
  end.

(** [int(x)] of a float: truncation towards zero. *)
Definition py_int (x : Q) : Z :=
  if Qle_bool 0 x then Qfloor x else Qceiling x.

(** [math.ceil(x)], and [int(numpy.ceil(x))]. *)
Definition py_ceil (x : Q) : Z := Qceiling x.

(** [x < y] on floats. *)
Definition Qlt_bool (x y : Q) : bool := negb (Qle_bool y x).

Global Instance Q_inhabited : Inhabited Q := populate 0.

Definition pow2 (k : Z) : Q := 2 ^ k.

(** [floor (log2 x)] for a positive [x]. *)
Definition ilog2 (x : Q) : Z :=
  let k := (Z.log2 (Qnum x) - Z.log2 (Zpos (Qden x)))%Z in
  if Qle_bool (pow2 k) x then k else (k - 1)%Z.

(** Exponent of the unit in the last place of the binade of [x]:
    53 bits of precision, subnormals below [2^-1022]. *)
Definition ulp_exp (x : Q) : Z := (Z.max (ilog2 (Qabs x)) (-1022) - 52)%Z.

(** The binary64 value nearest to [x], ties to the even mantissa. *)
Definition fl (x : Q) : Q :=
  if Qeq_bool x 0 then 0
  else inject_Z (py_round (x / pow2 (ulp_exp x))) * pow2 (ulp_exp x).

(** [float(n)], the conversion applied to an [int] operand of a float
    operation. *)
Definition of_int (n : Z) : Q := fl (inject_Z n).

Definition fadd (x y : Q) : Q := fl (x + y).
Definition fsub (x y : Q) : Q := fl (x - y).
Definition fmul (x y : Q) : Q := fl (x * y).

(** [a / b] on two [int]s: the correctly rounded quotient. *)
Definition truediv (a b : Z) : Q := fl (inject_Z a / inject_Z b).

(** [math.isfinite(x)] of the float an operation returned with the rounded
    result [x]: the finite doubles have a magnitude below [2 ^ 1024], and a
    rounded result that has not is an infinity. *)
Definition isfinite (x : Q) : bool := Qlt_bool (Qabs x) (pow2 1024).

End Binary64.

Import Binary64.

(** ** Persons, the object store and the state of a run *)

(** A reference to an object of the store. *)
Abbreviation ref := nat.

(** The [Person] class ([person_ai.py]; [FamilyTree.py] builds its persons
    with the same six keyword arguments). *)
Record Person := mkPerson {
  year_born : Z;
  year_died : Z;
  first_name : string;
  last_name : string;
  spouse : option ref;
  children : list ref
}.

Global Instance Person_inhabited : Inhabited Person :=
  populate (mkPerson 0 0 "" "" None []).

Definition set_spouse (s : option ref) (p : Person) : Person :=
  mkPerson (year_born p) (year_died p) (first_name p) (last_name p) s (children p).

Definition set_last_name (n : string) (p : Person) : Person :=
  mkPerson (year_born p) (year_died p) (first_name p) n (spouse p) (children p).

Definition add_child (c : ref) (p : Person) : Person :=
  mkPerson (year_born p) (year_died p) (first_name p) (last_name p) (spouse p)
    (children p ++ [c]).

(** [people] is the registry ([self.people], [self._registry]), [queue] the
    work queue ([self.queue], [frontier]); [oracle] and [draws] are the
    random source and the number of draws made so far. *)
Record State := mkState {
  heap : list Person;
  people : list ref;
  queue : list ref;
  oracle : nat -> N;
  draws : nat
}.

Inductive exn := KeyError | IndexError | ValueError.

Inductive result (A : Type) :=
| Ok (a : A) (st : State)
| Raise (e : exn)
| OutOfFuel.
Arguments Ok {A} a st.
Arguments Raise {A} e.
Arguments OutOfFuel {A}.

Definition M (A : Type) := State -> result A.

Definition ret {A} (a : A) : M A := fun st => Ok a st.

Definition bind {A B} (m : M A) (k : A -> M B) : M B :=
  fun st =>
    match m st with
    | Ok a st' => k a st'
    | Raise e => Raise e
    | OutOfFuel => OutOfFuel
    end.

Definition raise {A} (e : exn) : M A := fun _ => Raise e.

Notation "'let*' x ':=' m 'in' k" := (bind m (fun x => k))
  (at level 10, x name, m at level 100, k at level 200).
Notation "m '>>' k" := (bind m (fun _ => k))
  (at level 100, k at level 200, right associativity).

(** [for x in xs: body(x)] *)
Fixpoint for_each {A} (xs : list A) (body : A -> M unit) : M unit :=
  match xs with
  | [] => ret tt
  | x :: xs' => body x >> for_each xs' body
  end.

(** Reading an attribute of an object, and updating an object in place. *)
Definition read {A} (r : ref) (field : Person -> A) : M A :=
  fun st => Ok (field (heap st !!! r)) st.

Definition update (r : ref) (f : Person -> Person) : M unit :=
  fun st =>
    Ok tt (mkState (alter f r (heap st)) (people st) (queue st) (oracle st) (draws st)).

(** Creating an object: the new reference is the next free index. *)
Definition alloc (p : Person) : M ref :=
  fun st =>
    Ok (length (heap st))
       (mkState (heap st ++ [p]) (people st) (queue st) (oracle st) (draws st)).

Definition people_append (r : ref) : M unit :=
  fun st => Ok tt (mkState (heap st) (people st ++ [r]) (queue st) (oracle st) (draws st)).

Definition queue_append (r : ref) : M unit :=
  fun st => Ok tt (mkState (heap st) (people st) (queue st ++ [r]) (oracle st) (draws st)).

(** [queue.popleft()] / [frontier.pop(0)] on a queue known to be non-empty. *)
Definition set_queue (q : list ref) : M unit :=
  fun st => Ok tt (mkState (heap st) (people st) q (oracle st) (draws st)).

(** [dict[key]] raises [KeyError] on a missing key; [dict.get(key, default)]
    does not. *)
Definition dict_index {K V} `{Countable K} (d : gmap K V) (key : K) : M V :=
  match d !! key with
  | Some v => ret v
  | None => raise KeyError
  end.

Definition dict_get {K V} `{Countable K} (d : gmap K V) (key : K) (default : V) : V :=
  match d !! key with
  | Some v => v
  | None => default
  end.

(** [f"{(year // 10) * 10}s"] *)
Definition decade_key (year : Z) : string := pretty (year / 10 * 10)%Z +:+ "s".

(** [range(n)] *)
Definition range (n : Z) : list Z := map Z.of_nat (seq 0 (Z.to_nat n)).

(** ** The [random] module *)

Module random.

(** One draw from the oracle. *)
Definition next : M N :=
  fun st =>
    Ok (oracle st (draws st))
       (mkState (heap st) (people st) (queue st) (oracle st) (S (draws st))).

(** [random.random()]: a multiple of [2^-53] in [[0, 1)]. *)
Definition random : M Q :=
  let* r := next in
  ret (inject_Z (Z.of_N r mod 2 ^ 53) / inject_Z (2 ^ 53))%Q.

(** [random.randint(a, b)]: an integer of [[a, b]]; [ValueError] on an empty
    range. *)
Definition randint (a b : Z) : M Z :=
  if (b <? a)%Z then raise ValueError
  else let* r := next in ret (a + Z.of_N r mod (b - a + 1))%Z.

(** [random.choice(seq)]; [IndexError] on an empty sequence. *)
Definition choice {A} `{Inhabited A} (seq : list A) : M A :=
  match seq with
  | [] => raise IndexError
  | _ => let* r := next in ret (seq !!! (N.to_nat r mod length seq)%nat)
  end.

(** [itertools.accumulate(weights)]: running float sums. *)
Fixpoint accumulate_from (acc : Q) (ws : list Q) : list Q :=
  match ws with
  | [] => []
  | w :: ws' => let acc' := fadd acc w in acc' :: accumulate_from acc' ws'
  end.

Definition accumulate (ws : list Q) : list Q :=
  match ws with
  | [] => []
  | w :: ws' => w :: accumulate_from w ws'
  end.

(** [bisect.bisect(a, x, lo, hi)]: the loop halves [hi - lo], which bounds
    the number of its iterations. *)
Fixpoint bisect_loop (fuel : nat) (a : list Q) (x : Q) (lo hi : nat) : nat :=
  match fuel with
  | O => lo
  | S fuel' =>
      if (lo <? hi)%nat then
        let mid := ((lo + hi) / 2)%nat in
        if Qlt_bool x (a !!! mid) then bisect_loop fuel' a x lo mid
        else bisect_loop fuel' a x (mid + 1) hi
      else lo
  end.

Definition bisect (a : list Q) (x : Q) (lo hi : nat) : nat :=
  bisect_loop (hi - lo) a x lo hi.

(** [random.choices(population, weights=weights, k=1)[0]]. The total of
    the weights must be greater than zero and finite, or [ValueError] is
    raised. The total is the last running sum, and it is finite exactly
    when every running sum is: a sum that leaves the range of the finite
    doubles is an infinity, and what is added to an infinity gives an
    infinity or a nan. *)
Definition choices (population : list string) (weights : list Q) : M string :=
  let cum_weights := accumulate weights in
  if negb (length cum_weights =? length population)%nat then raise ValueError
  else
    match last cum_weights with
    | None => raise IndexError
    | Some total =>
        if Qle_bool total 0 then raise ValueError
        else if negb (forallb isfinite cum_weights) then raise ValueError
        else
          let* u := random in
          let hi := (length population - 1)%nat in
          ret (population !!! bisect cum_weights (fmul u total) 0 hi)
    end.

End random.

(** ** [PersonFactory.py] and [FamilyTree.py] *)

Module PersonFactory.

(** The tables [read_files] fills; they are read-only during generation. *)
Record t := mk {
  first_name_by_decade : gmap string (list (string * Q));
  last_name_by_decade : gmap string (list (string * Q));
  life_expectancy_by_decade : gmap string Q;
  birth_rate_by_decade : gmap string Q;
  marriage_rate_by_decade : gmap string Q
}.

(** Indexing a [defaultdict(list)]: a missing key reads as the empty list. *)
Definition defaultdict_index (d : gmap string (list (string * Q))) (key : string)
  : list (string * Q) :=
  default [] (d !! key).

Definition clamp_year_to_data (year : Z) : Z :=
  if (year <? 1950)%Z then 1950%Z
  else if (year >? 2129)%Z then 2129%Z
  else year.

Definition weighted_choice (choices : list (string * Q)) : M string :=
  let names := map fst choices in
  let weights := map snd choices in
  random.choices names weights.

Definition get_person (self : t) (year_born : Z) : M ref :=
  let year_born := clamp_year_to_data year_born in
  let decade := decade_key year_born in
  let* first_name := weighted_choice (defaultdict_index (first_name_by_decade self) decade) in
  let* last_name := weighted_choice (defaultdict_index (last_name_by_decade self) decade) in
  let* life_expectancy := dict_index (life_expectancy_by_decade self) decade in
  let* variation := random.randint (-10) 10 in
  let year_died := py_int (fadd (fadd (of_int year_born) life_expectancy) (of_int variation)) in
  alloc (mkPerson year_born year_died first_name last_name None []).

End PersonFactory.

Module FamilyTree.
Import PersonFactory.

(** [list(self.root_last_names)]: the order of a set of strings is not
    fixed by the language; the oracle picks either element. *)
Definition root_last_names : list string := ["Jones"; "Smith"].

Definition determine_year_died (factory : PersonFactory.t) (year_born : Z) : M Z :=
  let decade := decade_key year_born in
  let* life_expectancy := dict_index (life_expectancy_by_decade factory) decade in
  let* variation := random.randint (-10) 10 in
  ret (py_int (fadd (fadd (of_int year_born) life_expectancy) (of_int variation))).

Definition init_roots (factory : PersonFactory.t) : M unit :=
  let* year_died := determine_year_died factory 1950 in
  let* root1 := alloc (mkPerson 1950 year_died "Desmond" "Jones" None []) in
  let* year_died := determine_year_died factory 1950 in
  let* root2 := alloc (mkPerson 1950 year_died "Molly" "Smith" None []) in
  update root1 (set_spouse (Some root2)) >>
  update root2 (set_spouse (Some root1)) >>
  people_append root1 >>
  people_append root2 >>
  queue_append root1.

Definition distribute_birth_years (start end_ num_children : Z) : list Z :=
  if (num_children <=? 0)%Z then []
  else if (num_children =? 1)%Z then [py_round (truediv (start + end_) 2)]
  else
    let interval := truediv (end_ - start) (num_children - 1) in
    let birth_years :=
      map (fun i => py_round (fadd (of_int start) (fmul (of_int i) interval)))
          (range num_children) in
    map (fun year => Z.min end_ (Z.max start year)) birth_years.

(** Lines 129-140: "Determine if person gets married". *)
Definition marriage_step (factory : PersonFactory.t) (current_person : ref)
    (decade : string) : M unit :=
  let* current_spouse := read current_person spouse in
  match current_spouse with
  | None =>
      let* marriage_rate := dict_index (marriage_rate_by_decade factory) decade in
      let* u := random.random in
      if Qlt_bool u marriage_rate then
        let* current_year_born := read current_person year_born in
        let* variation := random.randint (-10) 10 in
        let spouse_year_born := (current_year_born + variation)%Z in
        let* spouse := get_person factory spouse_year_born in
        update current_person (set_spouse (Some spouse)) >>
        update spouse (set_spouse (Some current_person)) >>
        people_append spouse
      else ret tt
  | Some _ => ret tt
  end.

(** Lines 166-176: the body of [for year in child_years], past the cutoff
    test. *)
Definition add_child_for_year (factory : PersonFactory.t) (current_person : ref)
    (year : Z) : M unit :=
  let* child := get_person factory year in
  let* name := random.choice root_last_names in
  update child (set_last_name name) >>
  update current_person (add_child child) >>
  (let* current_spouse := read current_person spouse in
   match current_spouse with
   | Some s => update s (add_child child)
   | None => ret tt
   end) >>
  people_append child >>
  queue_append child.

(** Lines 144-145: the range the number of children is drawn from. *)
Definition min_children (birth_rate : Q) : Z := py_ceil (fsub birth_rate (3 # 2)%Q).
Definition max_children (birth_rate : Q) : Z := py_ceil (fadd birth_rate (3 # 2)%Q).

(** Lines 142-176: "Determine children". *)
Definition children_step (factory : PersonFactory.t) (current_person : ref)
    (decade : string) : M unit :=
  let* birth_rate := dict_index (birth_rate_by_decade factory) decade in
  let* num_children :=
    random.randint (min_children birth_rate) (max_children birth_rate) in
  if (num_children =? 0)%Z then ret tt
  else
    let* current_year_born := read current_person year_born in
    let* current_spouse := read current_person spouse in
    let* parent_year_born :=
      match current_spouse with
      | Some s =>
          let* spouse_year_born := read s year_born in
          ret (Z.min current_year_born spouse_year_born)
      | None => ret current_year_born
      end in
    let child_birth_start := (parent_year_born + 25)%Z in
    let child_birth_end := (parent_year_born + 45)%Z in
    let child_years :=
      distribute_birth_years child_birth_start child_birth_end num_children in
    for_each child_years (fun year =>
      if (year >? 2120)%Z then ret tt
      else add_child_for_year factory current_person year).

(** One iteration of [while self.queue], after [popleft]. *)
Definition expand (factory : PersonFactory.t) (current_person : ref) : M unit :=
  let* current_year_born := read current_person year_born in
  let decade := decade_key current_year_born in
  marriage_step factory current_person decade >>
  children_step factory current_person decade.

Fixpoint generate_family_tree (factory : PersonFactory.t) (fuel : nat) : M unit :=
  fun st =>
    match queue st with
    | [] => Ok tt st
    | current_person :: rest =>
        match fuel with
        | O => OutOfFuel
        | S fuel' =>
            (set_queue rest >>
             expand factory current_person >>
             generate_family_tree factory fuel') st
        end
    end.

(** [FamilyTree.__init__] after [read_files]: empty registry and queue,
    then the roots and the generation. *)
Definition empty_state (oracle : nat -> N) : State := mkState [] [] [] oracle 0.

Definition run (factory : PersonFactory.t) (fuel : nat) (oracle : nat -> N)
  : result unit :=
  (init_roots factory >> generate_family_tree factory fuel) (empty_state oracle).

End FamilyTree.

(** ** [person_factory_ai.py] and [family_tree_ai.py] *)

Module PersonFactoryAI.

Record t := mk {
  _first_names : gmap (string * string) (list (string * Q));
  _last_names : gmap string (list (string * Q));
  _life_expectancy : gmap string Q;
  _birth_rates : gmap string Q;
  _marriage_rates : gmap string Q
}.

Definition _year_min : Z := 1950.
Definition _year_max : Z := 2129.

Definition _clamp_year (year : Z) : Z := Z.max _year_min (Z.min _year_max year).

Definition _weighted_pick (choices : list (string * Q)) : M string :=
  match choices with
  | [] => ret "Unknown"
  | _ =>
      let names := map fst choices in
      let weights := map snd choices in
      random.choices names weights
  end.

Definition get_birth_rate (self : t) (decade : string) : Q :=
  dict_get (_birth_rates self) decade 2%Q.

Definition get_marriage_rate (self : t) (decade : string) : Q :=
  dict_get (_marriage_rates self) decade (1 # 2)%Q.

Definition get_life_expectancy (self : t) (decade : string) : Q :=
  dict_get (_life_expectancy self) decade 80%Q.

Definition get_person (self : t) (year_born : Z) (override_last_name : option string)
  : M ref :=
  let year_born := _clamp_year year_born in
  let decade := decade_key year_born in
  let* gender := random.choice ["male"; "female"] in
  let* first_name :=
    _weighted_pick (dict_get (_first_names self) (decade, gender) [("Unknown", 1%Q)]) in
  let* last_name :=
    match override_last_name with
    | Some name => ret name
    | None => _weighted_pick (dict_get (_last_names self) decade [("Unknown", 1%Q)])
    end in
  let expectancy := dict_get (_life_expectancy self) decade 80%Q in
  let* variation := random.randint (-10) 10 in
  let year_died := py_int (fadd (fadd (of_int year_born) expectancy) (of_int variation)) in
  alloc (mkPerson year_born year_died first_name last_name None []).

End PersonFactoryAI.

Module FamilyTreeAI.
Import PersonFactoryAI.

Definition FOUNDER_LAST_NAMES : list string := ["Jones"; "Smith"].
Definition CUTOFF_YEAR : Z := 2120.

Definition _create_founders (_factory : PersonFactoryAI.t) : M unit :=
  let decade := "1950s" in
  let expectancy := get_life_expectancy _factory decade in
  let* variation := random.randint (-10) 10 in
  let* p1 := alloc (mkPerson 1950 (1950 + py_int (fadd expectancy (of_int variation)))
                             "Desmond" "Jones" None []) in
  let* variation := random.randint (-10) 10 in
  let* p2 := alloc (mkPerson 1950 (1950 + py_int (fadd expectancy (of_int variation)))
                             "Molly" "Smith" None []) in
  update p1 (set_spouse (Some p2)) >>
  update p2 (set_spouse (Some p1)) >>
  people_append p1 >>
  people_append p2 >>
  (* [frontier = [self._founder_one]], the first statement of [_expand_tree] *)
  queue_append p1.

Definition _spread_birth_years (start end_ count : Z) : list Z :=
  if (count <=? 0)%Z then []
  else if (count =? 1)%Z then [py_round (truediv (start + end_) 2)]
  else
    let step := truediv (end_ - start) (count - 1) in
    map (fun i =>
           Z.min end_ (Z.max start (py_round (fadd (of_int start) (fmul (of_int i) step)))))
        (range count).

(** Lines 72-80: "Possibly create a spouse". *)
Definition marriage_step (_factory : PersonFactoryAI.t) (person : ref) (decade : string)
  : M unit :=
  let* person_spouse := read person spouse in
  match person_spouse with
  | None =>
      let marriage_rate := get_marriage_rate _factory decade in
      let* u := random.random in
      if Qlt_bool u marriage_rate then
        let* person_year_born := read person year_born in
        let* variation := random.randint (-10) 10 in
        let spouse_year := (person_year_born + variation)%Z in
        let* spouse := get_person _factory spouse_year None in
        update person (set_spouse (Some spouse)) >>
        update spouse (set_spouse (Some person)) >>
        people_append spouse
      else ret tt
  | Some _ => ret tt
  end.

(** Lines 105-113: the body of [for birth_year in birth_years], past the
    cutoff test. *)
Definition add_child_for_year (_factory : PersonFactoryAI.t) (person : ref)
    (birth_year : Z) : M unit :=
  let* name := random.choice FOUNDER_LAST_NAMES in
  let* child := get_person _factory birth_year (Some name) in
  update person (add_child child) >>
  (let* person_spouse := read person spouse in
   match person_spouse with
   | Some s => update s (add_child child)
   | None => ret tt
   end) >>
  people_append child >>
  queue_append child.

(** Lines 84-85: the range the number of children is drawn from. *)
Definition min_children (birth_rate : Q) : Z :=
  Z.max 0 (py_ceil (fsub birth_rate (3 # 2)%Q)).
Definition max_children (birth_rate : Q) : Z := py_ceil (fadd birth_rate (3 # 2)%Q).

(** Lines 82-113: "Determine number of children" and what follows. *)
Definition children_step (_factory : PersonFactoryAI.t) (person : ref) (decade : string)
  : M unit :=
  let birth_rate := get_birth_rate _factory decade in
  let* num_children :=
    random.randint (min_children birth_rate) (max_children birth_rate) in
  if (num_children =? 0)%Z then ret tt
  else
    let* person_year_born := read person year_born in
    let* person_spouse := read person spouse in
    let* elder_year :=
      match person_spouse with
      | Some s =>
          let* spouse_year_born := read s year_born in
          ret (Z.min person_year_born spouse_year_born)
      | None => ret person_year_born
      end in
    let start_year := (elder_year + 25)%Z in
    let end_year := (elder_year + 45)%Z in
    let birth_years := _spread_birth_years start_year end_year num_children in
    for_each birth_years (fun birth_year =>
      if (birth_year >? CUTOFF_YEAR)%Z then ret tt
      else add_child_for_year _factory person birth_year).

(** One iteration of [while frontier], after [frontier.pop(0)]. *)
Definition expand (_factory : PersonFactoryAI.t) (person : ref) : M unit :=
  let* person_year_born := read person year_born in
  let decade := decade_key person_year_born in
  marriage_step _factory person decade >>
  children_step _factory person decade.

Fixpoint _expand_tree (_factory : PersonFactoryAI.t) (fuel : nat) : M unit :=
  fun st =>
    match queue st with
    | [] => Ok tt st
    | person :: rest =>
        match fuel with
        | O => OutOfFuel
        | S fuel' =>
            (set_queue rest >>
             expand _factory person >>
             _expand_tree _factory fuel') st
        end
    end.

(** [bootstrap] after [read_files]. *)
Definition empty_state (oracle : nat -> N) : State := mkState [] [] [] oracle 0.

Definition bootstrap (_factory : PersonFactoryAI.t) (fuel : nat) (oracle : nat -> N)
  : result unit :=
  (_create_founders _factory >> _expand_tree _factory fuel) (empty_state oracle).

End FamilyTreeAI.

(** ** Vocabulary of the specification *)

(** The [i]-th distributed year before it is rounded to an integer:
    [start + i * interval]. *)
Definition raw_year (start : Z) (interval : Q) (i : Z) : Q :=
  fadd (of_int start) (fmul (of_int i) interval).

(** What the specification asks of [distribute_birth_years(start, end,
    count)]: [max(count, 0)] values of [[start, end]], non-decreasing,
    adjacent ones at most [ceil((end - start) / (count - 1))] apart, and
    the rounded midpoint alone for [count = 1]. *)
Definition evenly_distributed (start end_ count : Z) (years : list Z) : Prop :=
  length years = Z.to_nat (Z.max count 0) /\
  (forall y, y ∈ years -> (start <= y <= end_)%Z) /\
  (forall i y y', years !! i = Some y -> years !! S i = Some y' ->
     (y <= y')%Z /\
     (y' - y <= py_ceil (inject_Z (end_ - start) / inject_Z (count - 1)))%Z) /\
  (count = 1%Z -> years = [py_round (truediv (start + end_) 2)]).

(** The state after one more random draw, and the uniform float the next
    call of [random.random()] returns. *)
Definition advance (st : State) : State :=
  mkState (heap st) (people st) (queue st) (oracle st) (S (draws st)).

Definition uniform (st : State) : Q :=
  (inject_Z (Z.of_N (oracle st (draws st)) mod 2 ^ 53) / inject_Z (2 ^ 53))%Q.


(** The last cumulative weight of a list of (item, weight) pairs. *)
Definition total_weight (choices : list (string * Q)) : Q :=
  default 0%Q (last (random.accumulate (map snd choices))).

(** Every running float sum of the weights is finite. *)
Definition finite_sums (choices : list (string * Q)) : Prop :=
  forallb isfinite (random.accumulate (map snd choices)) = true.



(** ** Vocabulary for the expansion of the tree *)

(** The store is as it was: only the count of random draws may differ. *)
Definition same_store (st st' : State) : Prop :=
  heap st' = heap st /\ people st' = people st /\
  queue st' = queue st /\ oracle st' = oracle st.

(** The birth year the generators give a person requested for [year]. *)
Definition clamp (year : Z) : Z := Z.max 1950 (Z.min 2129 year).

(** The two founder surnames, and the year past which no child is made. *)
Definition founder_surnames : list string := ["Jones"; "Smith"].
Definition cutoff : Z := 2120.

(** The birth year of the elder of [person] and their spouse. *)
Definition elder_year (st : State) (person : ref) : Z :=
  let p := heap st !!! person in
  match spouse p with
  | Some s => Z.min (year_born p) (year_born (heap st !!! s))
  | None => year_born p
  end.

(** The marriage step either leaves the store alone or allocates a spouse
    born within ten years of [person] (clamped), links the two and
    registers the spouse. *)
Inductive married (person : ref) (st st' : State) : Prop :=
| stays_single : same_store st st' -> married person st st'
| weds (sp : Person) (variation : Z) :
    spouse (heap st !!! person) = None ->
    (-10 <= variation <= 10)%Z ->
    year_born sp = clamp (year_born (heap st !!! person) + variation) ->
    spouse sp = None ->
    children sp = [] ->
    heap st' = alter (set_spouse (Some person)) (length (heap st))
                 (alter (set_spouse (Some (length (heap st)))) person (heap st ++ [sp])) ->
    people st' = people st ++ [length (heap st)] ->
    queue st' = queue st ->
    oracle st' = oracle st ->
    married person st st'.

(** The store after child [c] joined the children of [person] and of the
    spouse of [person]. *)
Definition with_child (person c : ref) (h : list Person) : list Person :=
  let h1 := alter (add_child c) person h in
  match spouse (h1 !!! person) with
  | Some s => alter (add_child c) s h1
  | None => h1
  end.

(** A person was allocated, the rest of the store is as it was. *)
Definition allocated (p : Person) (st st' : State) : Prop :=
  heap st' = heap st ++ [p] /\ people st' = people st /\
  queue st' = queue st /\ oracle st' = oracle st.

(** Materializing a child for [year]: it is allocated with the clamped
    year and a founder surname, joins the children of [person] and of the
    spouse, the registry and the queue. *)
Definition child_added (person : ref) (year : Z) (st st' : State) : Prop :=
  exists c : Person,
    year_born c = clamp year /\
    last_name c ∈ founder_surnames /\
    spouse c = None /\
    children c = [] /\
    heap st' = with_child person (length (heap st)) (heap st ++ [c]) /\
    people st' = people st ++ [length (heap st)] /\
    queue st' = queue st ++ [length (heap st)] /\
    oracle st' = oracle st.

Inductive children_added (person : ref) : list Z -> State -> State -> Prop :=
| no_more_children st st' : same_store st st' -> children_added person [] st st'
| one_more_child year years st st1 st' :
    child_added person year st st1 ->
    children_added person years st1 st' ->
    children_added person (year :: years) st st'.

(** The distributed birth years that pass the cutoff. *)
Definition kept_years (elder count : Z) : list Z :=
  filter (fun y => (y <= cutoff)%Z)
         (FamilyTree.distribute_birth_years (elder + 25) (elder + 45) count).

(** One expansion: the marriage step, then a number of children of at most
    [bound], born in the kept years of the elder parent's window. *)
Definition expanded (bound : Z) (person : ref) (st st' : State) : Prop :=
  exists st1 count,
    married person st st1 /\ (count <= bound)%Z /\
    children_added person (kept_years (elder_year st1 person) count) st1 st'.

(** What holds of the state whenever the loop is at its head. *)
Record generation_invariant (st : State) : Prop := {
  inv_people : people st = seq 0 (length (heap st));
  inv_founders : exists f1 f2,
      heap st !! 0%nat = Some f1 /\ heap st !! 1%nat = Some f2 /\
      year_born f1 = 1950%Z /\ year_born f2 = 1950%Z /\
      last_name f1 = "Jones" /\ last_name f2 = "Smith";
  inv_years : forall r p, heap st !! r = Some p -> (1950 <= year_born p <= 2129)%Z;
  inv_spouse : forall r p s, heap st !! r = Some p -> spouse p = Some s ->
      exists q, heap st !! s = Some q /\ spouse q = Some r /\
                (year_born p - 10 <= year_born q)%Z;
  inv_children : forall r p c, heap st !! r = Some p -> c ∈ children p ->
      exists q, heap st !! c = Some q /\ (2 <= c)%nat /\
                (1975 <= year_born q <= cutoff)%Z /\
                last_name q ∈ founder_surnames;
  inv_queue : forall r, r ∈ queue st ->
      exists p, heap st !! r = Some p /\ (year_born p <= cutoff)%Z;
  inv_origin : forall r p, heap st !! r = Some p ->
      (r < 2)%nat \/ is_Some (spouse p) \/
      exists r' p', heap st !! r' = Some p' /\ r ∈ children p'
}.

(** The loop both engines run: pop the head of the queue, expand it. *)
Fixpoint run_loop (step : ref -> M unit) (fuel : nat) : M unit :=
  fun st =>
    match queue st with
    | [] => Ok tt st
    | person :: rest =>
        match fuel with
        | O => OutOfFuel
        | S fuel' => (set_queue rest >> step person >> run_loop step fuel') st
        end
    end.

(** The states at the head of the loop, from [init] on. *)
Inductive reached (step : ref -> M unit) (init : State) : State -> Prop :=
| reached_init : reached step init init
| reached_step st person rest st' :
    reached step init st ->
    queue st = person :: rest ->
    (set_queue rest >> step person) st = Ok tt st' ->
    reached step init st'.

(** The measure that bounds the number of iterations: a person born in
    [year] weighs [(bound + 1) ^ (2121 - year)]. *)
Definition weight (bound : Z) (year : Z) : Z := ((bound + 1) ^ (2121 - year))%Z.

Definition refs_weight (bound : Z) (h : list Person) (refs : list ref) : Z :=
  foldr (fun r acc => (weight bound (year_born (h !!! r)) + acc)%Z) 0%Z refs.

Definition queue_weight (bound : Z) (st : State) : Z :=
  refs_weight bound (heap st) (queue st).

(** The state after [queue.popleft()] left [rest]. *)
Definition dequeued (st : State) (rest : list ref) : State :=
  mkState (heap st) (people st) rest (oracle st) (draws st).

(** The largest [f year] over the years of the data range. *)
Definition max_over_years (f : Z -> Z) : Z :=
  foldr (fun k acc => Z.max (f (1950 + Z.of_nat k)%Z) acc) 0%Z (seq 0 180).

(** A bound on the number of children any person can be given. *)
Definition children_bound (factory : PersonFactory.t) : Z :=
  max_over_years (fun year =>
    match PersonFactory.birth_rate_by_decade factory !! decade_key year with
    | Some birth_rate => FamilyTree.max_children birth_rate
    | None => 0%Z
    end).

Definition children_bound_ai (factory : PersonFactoryAI.t) : Z :=
  max_over_years (fun year =>
    FamilyTreeAI.max_children (PersonFactoryAI.get_birth_rate factory (decade_key year))).

(** [p'] is [p] with possibly more children, all of them [c]. *)
Definition grown (c : ref) (p p' : Person) : Prop :=
  year_born p' = year_born p /\ last_name p' = last_name p /\
  spouse p' = spouse p /\
  (forall x, x ∈ children p' -> x ∈ children p \/ x = c) /\
  (forall x, x ∈ children p -> x ∈ children p').

Definition heap_grown (c : ref) (h h' : list Person) : Prop :=
  length h' = length h /\
  forall r p, h !! r = Some p -> exists p', h' !! r = Some p' /\ grown c p p'.

(** Every person of [st] is still there in [st'], with the same birth year,
    surname and at least the same children. *)
Definition extends (st st' : State) : Prop :=
  forall r p, heap st !! r = Some p ->
    exists p', heap st' !! r = Some p' /\ year_born p' = year_born p /\
               last_name p' = last_name p /\
               (forall c, c ∈ children p -> c ∈ children p').

(** A computation without a loop of its own never runs out of fuel. *)
Definition finishes {A} (m : M A) : Prop := forall st, m st <> OutOfFuel.

(** ** The claims about the registry *)

(** [p.spouse.spouse is p] for every registered [p] with a spouse. *)
Definition spouse_symmetric (st : State) : Prop :=
  forall r s, r ∈ people st -> spouse (heap st !!! r) = Some s ->
    spouse (heap st !!! s) = Some r /\ s ∈ people st.

(** [r] is in the children of a registered person. *)
Definition is_child (st : State) (r : ref) : Prop :=
  exists parent, parent ∈ people st /\ r ∈ children (heap st !!! parent).

(** The two founders are the first two persons registered. *)
Definition is_founder (r : ref) : Prop := (r < 2)%nat.

(** Empty tables for [person_factory_ai.py]: every lookup takes its
    default. *)
Definition no_data : PersonFactoryAI.t := PersonFactoryAI.mk ∅ ∅ ∅ ∅ ∅.

(** Tables for [person_factory_ai.py] with a single entry: the last names
    of the 1970s. *)
Definition williams_data : PersonFactoryAI.t :=
  PersonFactoryAI.mk ∅ {[ "1970s" := [("Williams", 1%Q)] ]} ∅ ∅ ∅.

(** Tables for [PersonFactory.py] that cover the 1950s and the 1980s with
    names and life expectancy, and the 1950s alone with rates. *)
Definition sparse_data : PersonFactory.t :=
  PersonFactory.mk
    {[ "1950s" := [("Desmond", 1%Q)]; "1980s" := [("Molly", 1%Q)] ]}
    {[ "1950s" := [("Jones", 1%Q)]; "1980s" := [("Smith", 1%Q)] ]}
    {[ "1950s" := 68%Q; "1980s" := 74%Q ]}
    {[ "1950s" := 2%Q ]}
    {[ "1950s" := (1 # 2)%Q ]}.

(** A list [_weighted_pick] can draw from: empty, or of positive total
    weight with every running sum of the weights finite. *)
Definition usable (choices : list (string * Q)) : Prop :=
  choices = [] \/ ((0 < total_weight choices)%Q /\ finite_sums choices).

(** Tables for [person_factory_ai.py] whose entries, where present, can be
    drawn from: name lists that are usable and birth rates from -1.5 to a
    million. No decade has to be covered. *)
Record well_formed_ai (factory : PersonFactoryAI.t) : Prop := {
  wf_first_names : forall key l,
    PersonFactoryAI._first_names factory !! key = Some l -> usable l;
  wf_last_names : forall key l,
    PersonFactoryAI._last_names factory !! key = Some l -> usable l;
  wf_birth_rates : forall key birth_rate,
    PersonFactoryAI._birth_rates factory !! key = Some birth_rate ->
    (- (3 # 2) <= birth_rate /\ birth_rate <= 1000000)%Q
}.

(** A rate table with an entry for every decade of the years that
    [clamp_year_to_data] lets through. *)
Definition covers (table : gmap string Q) : Prop :=
  forall year, (1950 <= year <= 2129)%Z -> is_Some (table !! decade_key year).

Record covered (factory : PersonFactory.t) : Prop := {
  cov_life_expectancy : covers (PersonFactory.life_expectancy_by_decade factory);
  cov_birth_rate : covers (PersonFactory.birth_rate_by_decade factory);
  cov_marriage_rate : covers (PersonFactory.marriage_rate_by_decade factory)
}.
(** ** Families *)

(** The person being expanded has left the queue, and so has whoever that
    person is married to. *)
Definition expanding (person : ref) (st : State) : Prop :=
  (person ∉ queue st) /\
  forall s, spouse (heap st !!! person) = Some s -> s ∉ queue st.

(** How couples and their children stand whenever the loop is at its head:
    whoever waits in the queue has no children yet and no spouse waiting
    too; nobody is their own spouse; the two of a couple hold the same list
    of children; no child is listed twice; two persons who list the same
    child are a couple; a child is born 15 to 45 years after each parent and
    was created after them. *)
Record family_invariant (st : State) : Prop := {
  fam_queue_nodup : NoDup (queue st);
  fam_queue_childless : forall r p,
      r ∈ queue st -> heap st !! r = Some p -> children p = [];
  fam_queue_spouse : forall r p s,
      r ∈ queue st -> heap st !! r = Some p -> spouse p = Some s -> s ∉ queue st;
  fam_no_self : forall r p, heap st !! r = Some p -> spouse p <> Some r;
  fam_shared : forall r p s q,
      heap st !! r = Some p -> spouse p = Some s -> heap st !! s = Some q ->
      children q = children p;
  fam_nodup : forall r p, heap st !! r = Some p -> NoDup (children p);
  fam_parents : forall r r' p p' c,
      heap st !! r = Some p -> heap st !! r' = Some p' ->
      c ∈ children p -> c ∈ children p' -> r = r' \/ spouse p = Some r';
  fam_ages : forall r p c q,
      heap st !! r = Some p -> c ∈ children p -> heap st !! c = Some q ->
      (r < c)%nat /\ (year_born p + 15 <= year_born q <= year_born p + 45)%Z
}.

(** ** The two engines, side by side *)

Inductive engine :=
| human (factory : PersonFactory.t)
| fallback (factory : PersonFactoryAI.t).

Definition founders_of (e : engine) : M unit :=
  match e with
  | human factory => FamilyTree.init_roots factory
  | fallback factory => FamilyTreeAI._create_founders factory
  end.

Definition expansion_of (e : engine) : ref -> M unit :=
  match e with
  | human factory => FamilyTree.expand factory
  | fallback factory => FamilyTreeAI.expand factory
  end.

Definition generation_of (e : engine) (fuel : nat) (oracle : nat -> N) : result unit :=
  match e with
  | human factory => FamilyTree.run factory fuel oracle
  | fallback factory => FamilyTreeAI.bootstrap factory fuel oracle
  end.

(** A state at the head of the generation loop of [e]: the founders were
    created and the queue was served a number of times. The state a
    finished generation ends in is one of them. *)
Definition in_progress (e : engine) (st : State) : Prop :=
  exists oracle st0,
    founders_of e (FamilyTree.empty_state oracle) = Ok tt st0 /\
    reached (expansion_of e) st0 st.

Definition tree_state (st : State) : Prop := exists e, in_progress e st.

(** A tree one of the engines returned. *)
Definition generated (st : State) : Prop :=
  exists e fuel oracle, generation_of e fuel oracle = Ok tt st.

(** ** The founders *)

(** The state right after the founders were created, up to their years of
    death: Desmond Jones and Molly Smith, born in 1950, married to each
    other, both registered, the first one queued. *)
Definition founders_state (d1 d2 : Z) (oracle : nat -> N) (draws : nat) : State :=
  mkState [mkPerson 1950 d1 "Desmond" "Jones" (Some 1%nat) [];
           mkPerson 1950 d2 "Molly" "Smith" (Some 0%nat) []]
          [0%nat; 1%nat] [0%nat] oracle draws.

(** What [random.randint(-10, 10)] returns at the [n]-th draw. *)
Definition variation_at (oracle : nat -> N) (n : nat) : Z :=
  (-10 + Z.of_N (oracle n) mod 21)%Z.

(** A life expectancy of a magnitude the float sums keep exact bounds for. *)
Definition moderate (life_expectancy : Q) : Prop :=
  (- (1000000) <= life_expectancy /\ life_expectancy <= 1000000)%Q.

(** ** What [get_person] draws *)

(** A list of names [random.choices] accepts: the total of the weights is
    positive and every running sum is finite. *)
Definition drawable (choices : list (string * Q)) : Prop :=
  (0 < total_weight choices)%Q /\ finite_sums choices.

(** The name [random.choices] picks from a drawable list, with the draw that
    is next in [st]. *)
Definition picked (choices : list (string * Q)) (st : State) : string :=
  map fst choices !!!
    random.bisect (random.accumulate (map snd choices))
      (fmul (uniform st) (total_weight choices)) 0 (length (map fst choices) - 1).

(** The gender [random.choice(["male", "female"])] returns with the draw
    that is next in [st]. *)
Definition drawn_gender (st : State) : string :=
  ["male"; "female"] !!! (N.to_nat (oracle st (draws st)) mod 2)%nat.

(** [n] more draws were made. *)
Definition advanced (n : nat) (st : State) : State :=
  mkState (heap st) (people st) (queue st) (oracle st) (n + draws st).

(** The state after a person was created and nothing else changed but the
    count of draws. *)
Definition with_person (p : Person) (n : nat) (st : State) : State :=
  mkState (heap st ++ [p]) (people st) (queue st) (oracle st) (n + draws st).

(** Birth rates of at most a million. *)
Definition moderate_rates (table : gmap string Q) : Prop :=
  forall decade birth_rate, table !! decade = Some birth_rate ->
    (birth_rate <= 1000000)%Q.

(** Tables for [PersonFactory.py] with all that a generation can ask for:
    rates and life expectancy for every decade from the 1950s to the 2120s,
    birth rates of at most a million, and drawable names for each of the
    decades. *)
Record complete (factory : PersonFactory.t) : Prop := {
  complete_covered : covered factory;
  complete_birth_rates : moderate_rates (PersonFactory.birth_rate_by_decade factory);
  complete_first_names : forall year, (1950 <= year <= 2129)%Z ->
    drawable (PersonFactory.defaultdict_index
                (PersonFactory.first_name_by_decade factory) (decade_key year));
  complete_last_names : forall year, (1950 <= year <= 2129)%Z ->
    drawable (PersonFactory.defaultdict_index
                (PersonFactory.last_name_by_decade factory) (decade_key year))
}.

(** Tables for [PersonFactory.py] that hold the same entries for each of the
    eighteen decades from the 1950s to the 2120s. *)
Definition decades : list string :=
  map (fun k => decade_key (1950 + 10 * Z.of_nat k)) (seq 0 18).

Definition uniform_table {V} (v : V) : gmap string V :=
  list_to_map (map (fun decade => (decade, v)) decades).

Definition full_data : PersonFactory.t :=
  PersonFactory.mk
    (uniform_table [("Alex"%string, 1%Q); ("Sam"%string, 3%Q)])
    (uniform_table [("Lee"%string, 1%Q)])
    (uniform_table 75%Q)
    (uniform_table 2%Q)
    (uniform_table (1 # 2)%Q).

(** A computation whose only exception is [ValueError]. *)
Definition only_ValueError {A} (m : M A) : Prop :=
  forall st e, m st = Raise e -> e = ValueError.

(** Tables for [person_factory_ai.py] whose only entry is a surname of
    weight zero for the 1970s. *)
Definition zero_weight_data : PersonFactoryAI.t :=
  PersonFactoryAI.mk ∅ {[ "1970s"%string := [("Williams"%string, 0%Q)] ]} ∅ ∅ ∅.

(** * Part II: properties *)

(** ** Rounding to an integer and to binary64 *)

Section Rounding.
Local Open Scope Q_scope.

Lemma inject_Z_succ k : inject_Z (k + 1) == inject_Z k + 1.
Proof. rewrite inject_Z_plus. reflexivity. Qed.

Lemma Qfloor_bounds x : inject_Z (Qfloor x) <= x /\ x < inject_Z (Qfloor x) + 1.
Proof.
  split; [apply Qfloor_le|]. rewrite <- inject_Z_succ. apply Qlt_floor.
Qed.

Lemma Qfloor_unique x k : inject_Z k <= x -> x < inject_Z k + 1 -> Qfloor x = k.
Proof.
  intros H1 H2. destruct (Qfloor_bounds x) as [H3 H4].
  assert (inject_Z k < inject_Z (Qfloor x) + 1) by lra.
  assert (inject_Z (Qfloor x) < inject_Z k + 1) by lra.
  rewrite <- inject_Z_succ in *. rewrite <- Zlt_Qlt in *. lia.
Qed.

Lemma py_round_cases x :
  let f := Qfloor x in
  (x - inject_Z f < 1 # 2 /\ py_round x = f) \/
  (1 # 2 < x - inject_Z f /\ py_round x = (f + 1)%Z) \/
  (x - inject_Z f == 1 # 2 /\ py_round x = if Z.even f then f else (f + 1)%Z).
Proof.
  intros f. unfold py_round. fold f.
  destruct (Qcompare_spec (x - inject_Z f) (1 # 2)) as [H|H|H]; auto.
Qed.

Lemma py_round_err x : inject_Z (py_round x) - x <= 1 # 2 /\ x - inject_Z (py_round x) <= 1 # 2.
Proof.
  destruct (Qfloor_bounds x) as [H1 H2].
  destruct (py_round_cases x) as [[H ->]|[[H ->]|[H ->]]].
  - lra.
  - rewrite inject_Z_succ. lra.
  - destruct (Z.even _); [|rewrite inject_Z_succ]; lra.
Qed.

Lemma py_round_inject_Z k : py_round (inject_Z k) = k.
Proof.
  assert (Hf : Qfloor (inject_Z k) = k) by (apply Qfloor_unique; lra).
  destruct (py_round_cases (inject_Z k)) as [[H ->]|[[H ->]|[H ->]]]; rewrite ?Hf in *; try done; lra.
Qed.

Lemma py_round_mono x y : x <= y -> (py_round x <= py_round y)%Z.
Proof.
  intros Hxy. pose proof (Qfloor_resp_le _ _ Hxy) as Hf.
  destruct (Qfloor_bounds x) as [Hx1 Hx2]. destruct (Qfloor_bounds y) as [Hy1 Hy2].
  assert (Hrx : (py_round x <= Qfloor x + 1)%Z).
  { destruct (py_round_cases x) as [[H ->]|[[H ->]|[H ->]]]; try destruct (Z.even _); lia. }
  assert (Hry : (Qfloor y <= py_round y)%Z).
  { destruct (py_round_cases y) as [[H ->]|[[H ->]|[H ->]]]; try destruct (Z.even _); lia. }
  destruct (Z.eq_dec (Qfloor x) (Qfloor y)) as [Heq|Hne]; [|lia].
  destruct (py_round_cases x) as [[H ->]|[[H ->]|[H ->]]];
    destruct (py_round_cases y) as [[H' ->]|[[H' ->]|[H' ->]]];
    rewrite <- ?Heq in *; try destruct (Z.even (Qfloor x)); try lia; lra.
Qed.

Global Instance py_round_proper : Proper (Qeq ==> eq) py_round.
Proof.
  intros x y Hxy. apply Z.le_antisymm; apply py_round_mono; rewrite Hxy; lra.
Qed.

Lemma py_round_opp x : py_round (- x) = (- py_round x)%Z.
Proof.
  destruct (Qfloor_bounds x) as [H1 H2].
  destruct (Qeq_dec x (inject_Z (Qfloor x))) as [Hint|Hfrac].
  - remember (Qfloor x) as k eqn:Hk. clear Hk H1 H2.
    rewrite Hint, <- inject_Z_opp, !py_round_inject_Z. done.
  - assert (Hf : Qfloor (- x) = (- Qfloor x - 1)%Z).
    { apply Qfloor_unique.
      - replace (- Qfloor x - 1)%Z with (- (Qfloor x + 1))%Z by lia.
        rewrite inject_Z_opp, inject_Z_succ. lra.
      - replace (- Qfloor x - 1)%Z with (- (Qfloor x + 1))%Z by lia.
        rewrite inject_Z_opp, inject_Z_succ.
        assert (inject_Z (Qfloor x) < x) by (apply Qle_lteq in H1 as [?|?]; [done|]; exfalso; apply Hfrac; by symmetry).
        lra. }
    assert (Hi : inject_Z (- Qfloor x - 1) == - inject_Z (Qfloor x) - 1).
    { replace (- Qfloor x - 1)%Z with (- (Qfloor x + 1))%Z by lia.
      rewrite inject_Z_opp, inject_Z_succ. lra. }
    assert (Hev : Z.even (- Qfloor x - 1) = negb (Z.even (Qfloor x))).
    { replace (- Qfloor x - 1)%Z with (- (Z.succ (Qfloor x)))%Z by lia.
      rewrite Z.even_opp, Z.even_succ, <- Z.negb_even. done. }
    destruct (py_round_cases x) as [[H ->]|[[H ->]|[H ->]]];
      destruct (py_round_cases (- x)) as [[H' ->]|[[H' ->]|[H' ->]]];
      rewrite ?Hf, ?Hi, ?Hev in *; try destruct (Z.even (Qfloor x)); simpl; try lia; lra.
Qed.

Lemma pow2_pos k : 0 < pow2 k.
Proof. apply Qpower_0_lt. lra. Qed.

Lemma pow2_add a b : pow2 (a + b) == pow2 a * pow2 b.
Proof. apply Qpower_plus. lra. Qed.

Lemma pow2_le a b : (a <= b)%Z -> pow2 a <= pow2 b.
Proof. intros. apply Qpower_le_compat_l; [done|lra]. Qed.

Lemma pow2_lt a b : (a < b)%Z -> pow2 a < pow2 b.
Proof. intros. apply Qpower_lt_compat_l; [done|lra]. Qed.

Lemma pow2_lt_inv a b : pow2 a < pow2 b -> (a < b)%Z.
Proof. intros. apply (Qpower_lt_compat_l_inv 2); [done|lra]. Qed.

Lemma pow2_Z k : (0 <= k)%Z -> pow2 k == inject_Z (2 ^ k).
Proof. intros. unfold pow2. by rewrite Zpower_Qpower. Qed.

Lemma pow2_succ k : pow2 (k + 1) == 2 * pow2 k.
Proof. rewrite pow2_add. unfold pow2 at 2. rewrite Qpower_1_r. lra. Qed.

Lemma pow2_inv k : pow2 (- k) == / pow2 k.
Proof. apply Qpower_opp. Qed.

Lemma pow2_cancel k : pow2 k * pow2 (- k) == 1.
Proof. rewrite <- pow2_add, Z.add_opp_diag_r. reflexivity. Qed.

Lemma ilog2_spec x : 0 < x -> pow2 (ilog2 x) <= x /\ x < pow2 (ilog2 x + 1).
Proof.
  intros Hx. destruct x as [a b]. unfold ilog2. cbn [Qnum Qden].
  assert (Ha : (0 < a)%Z) by (unfold Qlt in Hx; simpl in Hx; lia).
  set (la := Z.log2 a). set (lb := Z.log2 (Z.pos b)).
  destruct (Z.log2_spec a Ha) as [Ha1 Ha2]. fold la in Ha1, Ha2.
  destruct (Z.log2_spec (Z.pos b)) as [Hb1 Hb2]; [lia|]. fold lb in Hb1, Hb2.
  assert (Hla : (0 <= la)%Z) by apply Z.log2_nonneg.
  assert (Hlb : (0 <= lb)%Z) by apply Z.log2_nonneg.
  assert (Hx' : (a # b) * inject_Z (Z.pos b) == inject_Z a).
  { rewrite (Qmake_Qdiv a b). field. unfold Qeq; simpl; lia. }
  assert (Hbpos : 0 < inject_Z (Z.pos b)) by (unfold Qlt; simpl; lia).
  assert (Qa1 : pow2 la <= inject_Z a) by (rewrite pow2_Z by lia; by rewrite <- Zle_Qle).
  assert (Qa2 : inject_Z a < pow2 (la + 1)) by (rewrite pow2_Z by lia; rewrite <- Zlt_Qlt; lia).
  assert (Qb1 : pow2 lb <= inject_Z (Z.pos b)) by (rewrite pow2_Z by lia; by rewrite <- Zle_Qle).
  assert (Qb2 : inject_Z (Z.pos b) < pow2 (lb + 1)) by (rewrite pow2_Z by lia; rewrite <- Zlt_Qlt; lia).
  pose proof (pow2_pos lb) as Plb. pose proof (pow2_pos (la - lb)) as Pk.
  assert (Ek : pow2 la == pow2 (la - lb) * pow2 lb).
  { rewrite <- pow2_add. by replace (la - lb + lb)%Z with la by lia. }
  assert (Hup : (a # b) < pow2 (la - lb + 1)).
  { rewrite pow2_succ. rewrite pow2_succ in Qa2. nra. }
  assert (Hlo : pow2 (la - lb - 1) <= (a # b)).
  { assert (E1 : pow2 (la - lb) == 2 * pow2 (la - lb - 1)).
    { rewrite <- pow2_succ. by replace (la - lb - 1 + 1)%Z with (la - lb)%Z by lia. }
    rewrite pow2_succ in Qb2. pose proof (pow2_pos (la - lb - 1)). nra. }
  destruct (Qle_bool (pow2 (la - lb)) (a # b)) eqn:Hc.
  - apply Qle_bool_iff in Hc. done.
  - split; [done|]. replace (la - lb - 1 + 1)%Z with (la - lb)%Z by lia.
    apply Qnot_le_lt. intros Hle. apply Qle_bool_iff in Hle. congruence.
Qed.

Lemma ilog2_unique x k : pow2 k <= x -> x < pow2 (k + 1) -> ilog2 x = k.
Proof.
  intros H1 H2. assert (Hx : 0 < x) by (pose proof (pow2_pos k); lra).
  destruct (ilog2_spec x Hx) as [H3 H4].
  assert (k < ilog2 x + 1)%Z by (apply pow2_lt_inv; lra).
  assert (ilog2 x < k + 1)%Z by (apply pow2_lt_inv; lra). lia.
Qed.

Lemma ilog2_mono x y : 0 < x -> x <= y -> (ilog2 x <= ilog2 y)%Z.
Proof.
  intros Hx Hxy. destruct (ilog2_spec x Hx) as [H1 H2].
  destruct (ilog2_spec y) as [H3 H4]; [lra|].
  assert (ilog2 x < ilog2 y + 1)%Z by (apply pow2_lt_inv; lra). lia.
Qed.

Lemma ilog2_eq x y : 0 < x -> x == y -> ilog2 x = ilog2 y.
Proof.
  intros Hx Hxy. destruct (ilog2_spec x Hx). symmetry.
  apply ilog2_unique; rewrite <- Hxy; done.
Qed.

Lemma Qeq_bool_false x : ~ x == 0 -> Qeq_bool x 0 = false.
Proof.
  intros H. destruct (Qeq_bool x 0) eqn:E; [|done].
  apply Qeq_bool_iff in E. done.
Qed.

Lemma fl_zero x : x == 0 -> fl x = 0.
Proof. intros H. unfold fl. apply Qeq_bool_iff in H. by rewrite H. Qed.

Lemma fl_nonzero x :
  ~ x == 0 -> fl x = inject_Z (py_round (x / pow2 (ulp_exp x))) * pow2 (ulp_exp x).
Proof. intros H. unfold fl. by rewrite Qeq_bool_false. Qed.

Lemma Qabs_pos_nz x : ~ x == 0 -> 0 < Qabs x.
Proof.
  intros Hx. destruct (Qlt_le_dec 0 x) as [H|H].
  - rewrite Qabs_pos; lra.
  - rewrite Qabs_neg by done. apply Qle_lteq in H as [?|E]; [lra|done].
Qed.

Lemma ulp_exp_eq x y : ~ x == 0 -> x == y -> ulp_exp x = ulp_exp y.
Proof.
  intros Hx Hxy. unfold ulp_exp. f_equal. f_equal. apply ilog2_eq.
  - by apply Qabs_pos_nz.
  - by rewrite Hxy.
Qed.

Global Instance fl_proper : Proper (Qeq ==> Qeq) fl.
Proof.
  intros x y Hxy. destruct (Qeq_dec x 0) as [Hx|Hx].
  - rewrite (fl_zero x) by lra. rewrite (fl_zero y) by lra. reflexivity.
  - rewrite (fl_nonzero x) by lra. rewrite (fl_nonzero y) by lra.
    rewrite <- (ulp_exp_eq x y) by done.
    assert (E : py_round (x / pow2 (ulp_exp x)) = py_round (y / pow2 (ulp_exp x))).
    { apply py_round_proper, Qdiv_comp; [done|reflexivity]. }
    rewrite E. reflexivity.
Qed.

Lemma ulp_exp_opp x : ulp_exp (- x) = ulp_exp x.
Proof. unfold ulp_exp. destruct (Qeq_dec x 0) as [Hx|Hx].
  - unfold ilog2. destruct x as [a b]. unfold Qeq in Hx. simpl in Hx.
    assert (a = 0%Z) by lia. subst. reflexivity.
  - do 2 f_equal. apply ilog2_eq; [|apply Qabs_opp].
    rewrite Qabs_opp. by apply Qabs_pos_nz.
Qed.

Lemma fl_opp x : fl (- x) == - fl x.
Proof.
  destruct (Qeq_dec x 0) as [Hx|Hx].
  - rewrite (fl_zero x), (fl_zero (- x)); [done|lra|done].
  - rewrite (fl_nonzero x), (fl_nonzero (- x)); [|lra|done].
    rewrite ulp_exp_opp.
    assert (E : - x / pow2 (ulp_exp x) == - (x / pow2 (ulp_exp x))).
    { field. pose proof (pow2_pos (ulp_exp x)). lra. }
    rewrite E, py_round_opp, inject_Z_opp. ring.
Qed.

(** Values on the grid of [x]'s binade bound the rounding of [x]. *)
Lemma grid_div m j e : (e <= j)%Z ->
  inject_Z m * pow2 j / pow2 e == inject_Z (m * 2 ^ (j - e)).
Proof.
  intros H. rewrite inject_Z_mult, <- pow2_Z by lia.
  replace j with ((j - e) + e)%Z at 1 by lia. rewrite pow2_add.
  field. pose proof (pow2_pos e). lra.
Qed.

Lemma fl_le_grid x m j : ~ x == 0 -> (ulp_exp x <= j)%Z ->
  x <= inject_Z m * pow2 j -> fl x <= inject_Z m * pow2 j.
Proof.
  intros Hx He Hle. rewrite fl_nonzero by done.
  pose proof (pow2_pos (ulp_exp x)) as Hp.
  assert (Hd : x / pow2 (ulp_exp x) <= inject_Z (m * 2 ^ (j - ulp_exp x))).
  { rewrite <- grid_div by done. apply Qmult_le_compat_r; [done|].
    apply Qlt_le_weak, Qinv_lt_0_compat, Hp. }
  apply py_round_mono in Hd. rewrite py_round_inject_Z in Hd.
  rewrite Zle_Qle in Hd.
  assert (E : inject_Z m * pow2 j == inject_Z (m * 2 ^ (j - ulp_exp x)) * pow2 (ulp_exp x)).
  { rewrite <- grid_div by done. field. lra. }
  rewrite E. apply Qmult_le_compat_r; [done|lra].
Qed.

Lemma fl_ge_grid x m j : ~ x == 0 -> (ulp_exp x <= j)%Z ->
  inject_Z m * pow2 j <= x -> inject_Z m * pow2 j <= fl x.
Proof.
  intros Hx He Hle.
  assert (H : fl (- x) <= inject_Z (- m) * pow2 j).
  { apply fl_le_grid; [lra|by rewrite ulp_exp_opp|]. rewrite inject_Z_opp. lra. }
  rewrite fl_opp, inject_Z_opp in H. lra.
Qed.

Lemma ulp_exp_pos x : 0 < x -> ulp_exp x = (Z.max (ilog2 x) (-1022) - 52)%Z.
Proof.
  intros Hx. unfold ulp_exp. do 2 f_equal.
  apply ilog2_eq; [apply Qabs_pos_nz; lra|apply Qabs_pos; lra].
Qed.

Lemma ulp_exp_mono x y : 0 < x -> x <= y -> (ulp_exp x <= ulp_exp y)%Z.
Proof.
  intros Hx Hxy. rewrite !ulp_exp_pos by lra.
  assert (ilog2 x <= ilog2 y)%Z; [|lia]. by apply ilog2_mono.
Qed.

Lemma pow2_grid k : pow2 k == inject_Z 1 * pow2 k.
Proof. ring. Qed.

Lemma fl_mono_pos x y : 0 < x -> x <= y -> fl x <= fl y.
Proof.
  intros Hx Hxy. pose proof (ulp_exp_mono x y Hx Hxy) as He.
  destruct (Z.eq_dec (ulp_exp x) (ulp_exp y)) as [Heq|Hne].
  - rewrite !fl_nonzero by lra. rewrite <- Heq.
    pose proof (pow2_pos (ulp_exp x)) as Hp.
    apply Qmult_le_compat_r; [|lra]. rewrite <- Zle_Qle. apply py_round_mono.
    apply Qmult_le_compat_r; [done|]. apply Qlt_le_weak, Qinv_lt_0_compat, Hp.
  - assert (Hlt : (ulp_exp x < ulp_exp y)%Z) by lia. clear He Hne.
    rewrite !ulp_exp_pos in Hlt by lra.
    destruct (ilog2_spec x Hx) as [_ Hx2]. destruct (ilog2_spec y) as [Hy1 _]; [lra|].
    assert (Hxg : x <= pow2 (ilog2 y)).
    { apply Qlt_le_weak. eapply Qlt_le_trans; [exact Hx2|]. apply pow2_le. lia. }
    apply (Qle_trans _ (pow2 (ilog2 y))); rewrite pow2_grid.
    + apply fl_le_grid; [lra| |by rewrite <- pow2_grid].
      rewrite ulp_exp_pos by lra. lia.
    + apply fl_ge_grid; [lra| |by rewrite <- pow2_grid].
      rewrite ulp_exp_pos by lra. lia.
Qed.

Lemma fl_nonneg x : 0 <= x -> 0 <= fl x.
Proof.
  intros Hx. destruct (Qeq_dec x 0) as [E|E]; [rewrite fl_zero; [lra|done]|].
  assert (H : inject_Z 0 * pow2 (ulp_exp x) <= fl x).
  { apply fl_ge_grid; [done|lia|]. change (inject_Z 0) with 0. lra. }
  change (inject_Z 0) with 0 in H. lra.
Qed.

(** Rounding to binary64 is monotone. *)
Lemma fl_mono x y : x <= y -> fl x <= fl y.
Proof.
  intros Hxy. destruct (Qlt_le_dec 0 x) as [Hx|Hx]; [by apply fl_mono_pos|].
  destruct (Qlt_le_dec y 0) as [Hy|Hy].
  - assert (H : fl (- y) <= fl (- x)) by (apply fl_mono_pos; lra).
    rewrite !fl_opp in H. lra.
  - pose proof (fl_nonneg y Hy). pose proof (fl_nonneg (- x)) as H1.
    rewrite fl_opp in H1. lra.
Qed.

Lemma ulp_exp_bound x k : ~ x == 0 -> Qabs x < pow2 k -> (-1021 <= k)%Z ->
  (ulp_exp x <= k - 53)%Z.
Proof.
  intros Hx Hk1 Hk2. unfold ulp_exp.
  destruct (ilog2_spec (Qabs x)) as [H1 _]; [by apply Qabs_pos_nz|].
  assert (ilog2 (Qabs x) < k)%Z by (apply pow2_lt_inv; lra). lia.
Qed.

(** Every [m * 2^j] with [|m| < 2^53] and [j >= -1074] is a binary64 value. *)
Lemma fl_exact m j : (Z.abs m < 2 ^ 53)%Z -> (-1074 <= j)%Z ->
  fl (inject_Z m * pow2 j) == inject_Z m * pow2 j.
Proof.
  intros Hm Hj. set (g := inject_Z m * pow2 j).
  destruct (Qeq_dec g 0) as [E|E]; [rewrite fl_zero; [by symmetry|done]|].
  assert (He : (ulp_exp g <= j)%Z).
  { assert (ulp_exp g <= (j + 53) - 53)%Z; [|lia].
    apply ulp_exp_bound; [done| |lia]. unfold g.
    rewrite Qabs_Qmult, (Qabs_pos (pow2 j)) by (apply Qlt_le_weak, pow2_pos).
    rewrite pow2_add, (pow2_Z 53) by lia. pose proof (pow2_pos j).
    assert (Qabs (inject_Z m) < inject_Z (2 ^ 53)).
    { change (Qabs (inject_Z m)) with (inject_Z (Z.abs m)). by rewrite <- Zlt_Qlt. }
    nra. }
  apply Qle_antisym; [apply fl_le_grid|apply fl_ge_grid]; done || apply Qle_refl.
Qed.

Lemma fl_inject_Z n : (Z.abs n <= 2 ^ 53)%Z -> fl (inject_Z n) == inject_Z n.
Proof.
  intros Hn. change (2 ^ 53)%Z with 9007199254740992%Z in Hn.
  destruct (Z.eq_dec (Z.abs n) 9007199254740992%Z) as [E|E].
  - assert (Hn2 : n = (n / 2 * 2)%Z).
    { assert (Hc : n = 9007199254740992%Z \/ n = (-9007199254740992)%Z) by lia.
      destruct Hc; subst; reflexivity. }
    assert (G : inject_Z n == inject_Z (n / 2) * pow2 1).
    { rewrite Hn2 at 1. rewrite inject_Z_mult. reflexivity. }
    rewrite G. apply fl_exact; [|lia].
    change (2 ^ 53)%Z with 9007199254740992%Z. lia.
  - assert (G : inject_Z n == inject_Z n * pow2 0) by (unfold pow2; simpl; ring).
    rewrite G. apply fl_exact; [|lia].
    change (2 ^ 53)%Z with 9007199254740992%Z. lia.
Qed.

Lemma pow2_half k : pow2 k == 2 * pow2 (k - 1).
Proof. rewrite <- pow2_succ. by replace (k - 1 + 1)%Z with k by lia. Qed.

Lemma fl_err x : ~ x == 0 ->
  fl x - x <= pow2 (ulp_exp x - 1) /\ x - fl x <= pow2 (ulp_exp x - 1).
Proof.
  intros Hx. rewrite fl_nonzero by done.
  set (e := ulp_exp x). pose proof (pow2_pos e) as Hp.
  destruct (py_round_err (x / pow2 e)) as [H1 H2].
  assert (E : x == x / pow2 e * pow2 e) by (field; lra).
  pose proof (pow2_half e) as Hh. pose proof (pow2_pos (e - 1)).
  set (r := inject_Z (py_round (x / pow2 e))) in *.
  set (t := x / pow2 e) in *. nra.
Qed.

Lemma fl_err_abs x k : Qabs x < pow2 k -> (-1021 <= k)%Z ->
  fl x - x <= pow2 (k - 54) /\ x - fl x <= pow2 (k - 54).
Proof.
  intros Hk1 Hk2. pose proof (pow2_pos (k - 54)).
  destruct (Qeq_dec x 0) as [E|E]; [rewrite fl_zero by done; lra|].
  destruct (fl_err x E) as [H1 H2].
  assert (pow2 (ulp_exp x - 1) <= pow2 (k - 54)); [|lra].
  apply pow2_le. pose proof (ulp_exp_bound x k E Hk1 Hk2). lia.
Qed.

Lemma fl_err_rel x : pow2 (-1022) <= x ->
  x * (1 - pow2 (-53)) <= fl x /\ fl x <= x * (1 + pow2 (-53)).
Proof.
  intros Hx. pose proof (pow2_pos (-1022)).
  destruct (fl_err x) as [H1 H2]; [lra|].
  destruct (ilog2_spec x) as [H3 _]; [lra|].
  assert (Hl : (-1022 <= ilog2 x)%Z).
  { destruct (ilog2_spec x) as [_ H4]; [lra|].
    assert (-1022 < ilog2 x + 1)%Z by (apply pow2_lt_inv; lra). lia. }
  rewrite ulp_exp_pos in H1, H2 by lra.
  replace (Z.max (ilog2 x) (-1022) - 52 - 1)%Z with (ilog2 x + (-53))%Z in H1, H2 by lia.
  rewrite pow2_add in H1, H2. pose proof (pow2_pos (-53)). nra.
Qed.




End Rounding.

(** ** Distribution of birth years *)

Section Distribution.
Local Open Scope Q_scope.

Lemma small_int n : (Z.abs n <= 9007199254740992)%Z -> of_int n == inject_Z n.
Proof. apply fl_inject_Z. Qed.

Lemma truediv_half n : (Z.abs n < 9007199254740992)%Z -> truediv n 2 == inject_Z n / 2.
Proof.
  intros Hn. unfold truediv.
  assert (E : inject_Z n / inject_Z 2 == inject_Z n * pow2 (-1)) by reflexivity.
  rewrite E, fl_exact by (done || lia). reflexivity.
Qed.

Lemma py_round_between x lo hi :
  inject_Z lo <= x -> x <= inject_Z hi -> (lo <= py_round x <= hi)%Z.
Proof.
  intros H1 H2. apply py_round_mono in H1, H2.
  rewrite py_round_inject_Z in H1, H2. lia.
Qed.

Lemma raw_year_mono start interval i j :
  0 <= interval -> (0 <= i <= j)%Z -> (j <= 9007199254740992)%Z ->
  raw_year start interval i <= raw_year start interval j.
Proof.
  intros Hd Hij Hj. unfold raw_year, fadd, fmul.
  apply fl_mono. apply Qplus_le_r. apply fl_mono.
  rewrite !small_int by lia. apply Qmult_le_compat_r; [|done].
  rewrite <- Zle_Qle. lia.
Qed.

Lemma raw_year_proper start i d d' :
  d == d' -> raw_year start d i == raw_year start d' i.
Proof. intros E. unfold raw_year, fadd, fmul. by rewrite E. Qed.

(** With an integer interval every operation is exact. *)
Lemma raw_year_exact start q i :
  (Z.abs start <= 1000000)%Z -> (0 <= q)%Z -> (0 <= i)%Z -> (i * q <= 2000000)%Z ->
  (i <= 1000000)%Z ->
  raw_year start (inject_Z q) i == inject_Z (start + i * q).
Proof.
  intros Hs Hq Hi Hiq Hi'. unfold raw_year, fadd, fmul.
  rewrite !small_int by lia. rewrite <- inject_Z_mult.
  rewrite (fl_inject_Z (i * q)) by lia. rewrite <- inject_Z_plus.
  apply fl_inject_Z. lia.
Qed.

Lemma fl_err_rel0 x : x == 0 \/ pow2 (-1022) <= x ->
  x * (1 - pow2 (-53)) <= fl x /\ fl x <= x * (1 + pow2 (-53)).
Proof.
  intros [E|H]; [|by apply fl_err_rel]. rewrite (fl_zero x E), E. lra.
Qed.

Lemma pow2_m53 : pow2 (-53) == 1 # 9007199254740992.
Proof. reflexivity. Qed.

Lemma pow2_m32 : pow2 (-32) == 1 # 4294967296.
Proof. reflexivity. Qed.

Lemma pow2_22 : pow2 22 == 4194304.
Proof. reflexivity. Qed.

Lemma pow2_m1022_le : pow2 (-1022) <= 1 # 2097152.
Proof.
  assert (E : (1 # 2097152) == pow2 (-21)) by reflexivity.
  rewrite E. apply pow2_le. lia.
Qed.

Section Inexact.
Variables (s w m : Z).
Hypothesis Hs : (-1000000 <= s)%Z.
Hypothesis Hw : (1 <= w)%Z.
Hypothesis Hsw : (s + w <= 1000000)%Z.
Hypothesis Hm : (1 <= m < 1000000)%Z.

Variables (d D : Q).
Hypothesis Hd : d == inject_Z w / inject_Z m.
Hypothesis HD : D == fl d.

Lemma inexact_d_facts :
  d * inject_Z m == inject_Z w /\ (1 # 1000000) <= d /\ d <= inject_Z w /\
  1 <= inject_Z m /\ inject_Z m <= 1000000 /\ 1 <= inject_Z w /\ inject_Z w <= 2000000.
Proof.
  assert (Qm : 1 <= inject_Z m) by (change 1 with (inject_Z 1); rewrite <- Zle_Qle; lia).
  assert (Qm' : inject_Z m <= 1000000) by (change 1000000 with (inject_Z 1000000); rewrite <- Zle_Qle; lia).
  assert (Qw : 1 <= inject_Z w) by (change 1 with (inject_Z 1); rewrite <- Zle_Qle; lia).
  assert (Qw' : inject_Z w <= 2000000) by (change 2000000 with (inject_Z 2000000); rewrite <- Zle_Qle; lia).
  assert (E : d * inject_Z m == inject_Z w) by (rewrite Hd; field; lra).
  assert (0 <= d) by (rewrite Hd; apply Qle_shift_div_l; lra).
  repeat split; try done; nra.
Qed.

Lemma inexact_D_facts : d * (1 - (1 # 9007199254740992)) <= D /\ D <= d * (1 + (1 # 9007199254740992)) /\ 0 <= D.
Proof.
  destruct inexact_d_facts as (E & Hd1 & Hd2 & Hm1 & Hm2 & Hw1 & Hw2).
  destruct (fl_err_rel d) as [H1 H2].
  { pose proof pow2_m1022_le. lra. }
  rewrite pow2_m53 in H1, H2. rewrite <- HD in H1, H2.
  repeat split; try done. nra.
Qed.

Lemma raw_year_bounds i : (0 <= i <= m)%Z ->
  let T := inject_Z i * D in
  inject_Z s + T * (1 - (1 # 9007199254740992)) - (1 # 4294967296) <= raw_year s D i /\
  raw_year s D i <= inject_Z s + T * (1 + (1 # 9007199254740992)) + (1 # 4294967296) /\
  0 <= T /\ T <= inject_Z w * (1 + (1 # 9007199254740992)).
Proof.
  intros Hi T.
  destruct inexact_d_facts as (E & Hd1 & Hd2 & Hm1 & Hm2 & Hw1 & Hw2).
  destruct inexact_D_facts as (HD1 & HD2 & HD0).
  assert (Qi : 0 <= inject_Z i) by (change 0 with (inject_Z 0); rewrite <- Zle_Qle; lia).
  assert (Qi' : inject_Z i <= inject_Z m) by (rewrite <- Zle_Qle; lia).
  assert (HT0 : 0 <= T) by (unfold T; nra).
  assert (HTm : T <= inject_Z m * D) by (unfold T; nra).
  assert (HmD : inject_Z m * D <= inject_Z w * (1 + (1 # 9007199254740992))) by nra.
  assert (HT : T == 0 \/ pow2 (-1022) <= T).
  { destruct (Z.eq_dec i 0%Z) as [->|Hne]; [left; unfold T; ring|right].
    assert (1 <= inject_Z i) by (change 1 with (inject_Z 1); rewrite <- Zle_Qle; lia).
    pose proof pow2_m1022_le. unfold T in *. nra. }
  destruct (fl_err_rel0 T HT) as [Hz1 Hz2]. rewrite pow2_m53 in Hz1, Hz2.
  set (z := fl T) in *.
  assert (Hx : Qabs (inject_Z s + z) < pow2 22).
  { rewrite pow2_22. apply Qabs_Qlt_condition.
    assert (-1000000 <= inject_Z s) by (change (-1000000) with (inject_Z (-1000000)); rewrite <- Zle_Qle; lia).
    assert (inject_Z s + inject_Z w <= 1000000).
    { rewrite <- inject_Z_plus. change 1000000 with (inject_Z 1000000). rewrite <- Zle_Qle; lia. }
    split; nra. }
  destruct (fl_err_abs _ 22 Hx) as [Hy1 Hy2]; [lia|].
  change (22 - 54)%Z with (-32)%Z in Hy1, Hy2. rewrite pow2_m32 in Hy1, Hy2.
  assert (Er : raw_year s D i == fl (inject_Z s + z)).
  { unfold raw_year, fadd, fmul. rewrite !small_int by lia. reflexivity. }
  rewrite Er. repeat split; try done; lra.
Qed.

Lemma raw_year_step i : (0 <= i < m)%Z ->
  raw_year s D (i + 1) - raw_year s D i <= d + (1 # 2000000).
Proof.
  intros Hi.
  destruct inexact_d_facts as (E & Hd1 & Hd2 & Hm1 & Hm2 & Hw1 & Hw2).
  destruct inexact_D_facts as (HD1 & HD2 & HD0).
  destruct (raw_year_bounds i) as (L1 & _ & T0 & _); [lia|].
  destruct (raw_year_bounds (i + 1)) as (_ & U2 & _ & T2); [lia|].
  cbv zeta in *. rewrite inject_Z_plus in U2, T2.
  change (inject_Z 1) with 1 in *.
  set (T := inject_Z i * D) in *.
  assert (ET : (inject_Z i + 1) * D == T + D) by (unfold T; ring).
  rewrite ET in U2, T2. nra.
Qed.

End Inexact.

Lemma py_round_gap x y C : y - x < inject_Z C -> (py_round y - py_round x <= C)%Z.
Proof.
  intros H. destruct (py_round_err x) as [_ Hx]. destruct (py_round_err y) as [Hy _].
  assert (Hlt : inject_Z (py_round y - py_round x) < inject_Z (C + 1)).
  { unfold Zminus. rewrite !inject_Z_plus, inject_Z_opp. change (inject_Z 1) with 1. lra. }
  rewrite <- Zlt_Qlt in Hlt. lia.
Qed.

Lemma year_gap s e n i :
  (-1000000 <= s)%Z -> (s <= e)%Z -> (e <= 1000000)%Z -> (2 <= n <= 1000000)%Z ->
  (0 <= i < n - 1)%Z ->
  let D := truediv (e - s) (n - 1) in
  (py_round (raw_year s D (i + 1)) - py_round (raw_year s D i)
   <= py_ceil (inject_Z (e - s) / inject_Z (n - 1)))%Z.
Proof.
  intros Hs Hse He Hn Hi D.
  set (w := (e - s)%Z). set (m := (n - 1)%Z).
  set (d := inject_Z w / inject_Z m). unfold py_ceil.
  assert (Qm : 1 <= inject_Z m) by (change 1 with (inject_Z 1); rewrite <- Zle_Qle; lia).
  destruct (Z.eq_dec (w mod m)%Z 0%Z) as [Hdiv|Hrem].
  - (* the interval is an integer: nothing is rounded *)
    set (q := (w / m)%Z).
    assert (Hw : w = (q * m)%Z) by (unfold q; pose proof (Z.div_mod w m); lia).
    assert (Hq : (0 <= q)%Z) by (apply Z.div_pos; lia).
    assert (Ed : d == inject_Z q).
    { unfold d. rewrite Hw, inject_Z_mult. field. lra. }
    assert (ED : D == inject_Z q).
    { unfold D, truediv. fold w m d. rewrite Ed. apply fl_inject_Z. nia. }
    rewrite !(raw_year_proper s _ _ _ ED), !raw_year_exact by nia.
    rewrite !py_round_inject_Z, (Qceiling_comp _ _ Ed), Qceiling_Z. lia.
  - (* otherwise the ceiling leaves room for the rounding errors *)
    assert (Hw : (1 <= w)%Z).
    { destruct (Z.eq_dec w 0%Z) as [E|E]; [rewrite E, Z.mod_0_l in Hrem; lia|lia]. }
    pose proof (raw_year_step s w m Hs Hw ltac:(lia) ltac:(lia) d D
                  ltac:(reflexivity) ltac:(reflexivity) i ltac:(lia)) as Hstep.
    apply py_round_gap. 
    set (C := Qceiling d). pose proof (Qle_ceiling d) as HC. fold C in HC.
    assert (Em : d * inject_Z m == inject_Z w) by (unfold d; field; lra).
    assert (HCm : (w + 1 <= C * m)%Z).
    { assert (Hle : (w <= C * m)%Z).
      { rewrite Zle_Qle, inject_Z_mult. nra. }
      destruct (Z.eq_dec w (C * m)%Z) as [E|E]; [|lia].
      exfalso. apply Hrem. rewrite E. apply Z.mod_mul. lia. }
    rewrite Zle_Qle, inject_Z_mult, inject_Z_plus in HCm. change (inject_Z 1) with 1 in HCm.
    assert (Qm' : inject_Z m <= 1000000) by (change 1000000 with (inject_Z 1000000); rewrite <- Zle_Qle; lia).
    nra.
Qed.


Lemma range_length n : length (range n) = Z.to_nat n.
Proof. unfold range. by rewrite length_map, length_seq. Qed.

Lemma range_lookup n i : (i < Z.to_nat n)%nat -> range n !! i = Some (Z.of_nat i).
Proof.
  intros Hi. unfold range. change (map Z.of_nat ?l) with (Z.of_nat <$> l).
  rewrite list_lookup_fmap, lookup_seq_lt by done. reflexivity.
Qed.

Lemma spread_birth_years_eq s e n :
  FamilyTreeAI._spread_birth_years s e n = FamilyTree.distribute_birth_years s e n.
Proof.
  unfold FamilyTreeAI._spread_birth_years, FamilyTree.distribute_birth_years.
  destruct (n <=? 0)%Z; [done|]. destruct (n =? 1)%Z; [done|].
  by rewrite map_map.
Qed.

Lemma distribute_lookup s e n i :
  (2 <= n)%Z -> (i < Z.to_nat n)%nat ->
  FamilyTree.distribute_birth_years s e n !! i =
  Some (Z.min e (Z.max s (py_round (raw_year s (truediv (e - s) (n - 1)) (Z.of_nat i))))).
Proof.
  intros Hn Hi. unfold FamilyTree.distribute_birth_years.
  destruct (Z.leb_spec n 0); [lia|]. destruct (Z.eqb_spec n 1); [lia|].
  rewrite map_map. change (map ?f ?l) with (f <$> l).
  rewrite list_lookup_fmap, range_lookup by done. reflexivity.
Qed.

Lemma distribute_length s e n :
  length (FamilyTree.distribute_birth_years s e n) = Z.to_nat (Z.max n 0).
Proof.
  unfold FamilyTree.distribute_birth_years.
  destruct (Z.leb_spec n 0); [simpl; lia|]. destruct (Z.eqb_spec n 1); [subst; reflexivity|].
  rewrite !length_map, range_length. lia.
Qed.

(** Every distributed year lies in the window, whatever the count. *)
Lemma distribute_in_range start end_ count y :
  (-1000000 <= start)%Z -> (start <= end_)%Z -> (end_ <= 1000000)%Z ->
  y ∈ FamilyTree.distribute_birth_years start end_ count ->
  (start <= y <= end_)%Z.
Proof.
  intros Hs Hse He Hy. apply list_elem_of_lookup in Hy as [i Hi].
  pose proof (lookup_lt_Some _ _ _ Hi) as Hlt. rewrite distribute_length in Hlt.
  destruct (Z_lt_le_dec count 2) as [Hc|Hc].
  - assert (count = 1%Z) as -> by lia.
    assert (i = 0%nat) as -> by lia. simpl in Hi. injection Hi as <-.
    assert (Hmid : truediv (start + end_) 2 == inject_Z (start + end_) / 2)
      by (apply truediv_half; lia).
    assert (inject_Z start <= inject_Z end_) by (by rewrite <- Zle_Qle).
    apply py_round_between; rewrite Hmid.
    + apply Qle_shift_div_l; [lra|]. rewrite inject_Z_plus. lra.
    + apply Qle_shift_div_r; [lra|]. rewrite inject_Z_plus. lra.
  - rewrite distribute_lookup in Hi by lia. injection Hi as <-. lia.
Qed.

(** C5, as the code has it: on years and counts up to a million the
    distributed birth years are [max(count, 0)] values of [[start, end]],
    non-decreasing, adjacent ones at most [ceil((end - start) / (count - 1))]
    apart; for [count = 1] the single value is the midpoint rounded half to
    even, and both implementations compute the same list. *)
Theorem distribute_birth_years_bounded start end_ count :
  (-1000000 <= start)%Z -> (start <= end_)%Z -> (end_ <= 1000000)%Z ->
  (count <= 1000000)%Z ->
  evenly_distributed start end_ count
    (FamilyTree.distribute_birth_years start end_ count) /\
  FamilyTreeAI._spread_birth_years start end_ count =
    FamilyTree.distribute_birth_years start end_ count /\
  (count = 1%Z ->
   FamilyTree.distribute_birth_years start end_ count =
     [py_round (inject_Z (start + end_) / 2)]) /\
  ((count <= 0)%Z -> FamilyTree.distribute_birth_years start end_ count = []).
Proof.
  intros Hs Hse He Hn.
  assert (Hmid : truediv (start + end_) 2 == inject_Z (start + end_) / 2)
    by (apply truediv_half; lia).
  split; [|split; [apply spread_birth_years_eq|split]].
  - split; [apply distribute_length|]. split; [|split].
    + intros y Hy. by eapply distribute_in_range.
    + intros i y y' Hi Hi'.
      pose proof (lookup_lt_Some _ _ _ Hi') as Hlt. rewrite distribute_length in Hlt.
      assert (Hc : (2 <= count)%Z) by lia.
      rewrite distribute_lookup in Hi, Hi' by lia.
      injection Hi as <-. injection Hi' as <-.
      set (D := truediv (end_ - start) (count - 1)).
      assert (HD : 0 <= D).
      { apply fl_nonneg. apply Qle_shift_div_l.
        - change 0 with (inject_Z 0). rewrite <- Zlt_Qlt. lia.
        - rewrite Qmult_0_l. change 0 with (inject_Z 0). rewrite <- Zle_Qle. lia. }
      pose proof (raw_year_mono start D (Z.of_nat i) (Z.of_nat (S i)) HD
                    ltac:(lia) ltac:(lia)) as Hmono.
      apply py_round_mono in Hmono.
      pose proof (year_gap start end_ count (Z.of_nat i) Hs Hse He
                    ltac:(lia) ltac:(lia)) as Hgap.
      cbv zeta in Hgap. fold D in Hgap.
      replace (Z.of_nat i + 1)%Z with (Z.of_nat (S i)) in Hgap by lia.
      assert (0 <= py_ceil (inject_Z (end_ - start) / inject_Z (count - 1)))%Z by lia.
      lia.
    + intros ->. reflexivity.
  - intros ->. unfold FamilyTree.distribute_birth_years. simpl.
    by rewrite (py_round_proper _ _ Hmid).
  - intros Hc. unfold FamilyTree.distribute_birth_years.
    destruct (Z.leb_spec count 0); [done|lia].
Qed.

Lemma distribute_birth_years_bounded_witness :
  evenly_distributed 1975 1995 4 (FamilyTree.distribute_birth_years 1975 1995 4).
Proof.
  apply (distribute_birth_years_bounded 1975 1995 4); lia.
Defined.

(** C5 as stated fails on years beyond the exactly representable
    integers: the midpoint of [2^53 + 1] and itself rounds to [2^53]. *)
Lemma distribute_birth_years_huge_years :
  ~ evenly_distributed (2 ^ 53 + 1) (2 ^ 53 + 1) 1
      (FamilyTree.distribute_birth_years (2 ^ 53 + 1) (2 ^ 53 + 1) 1).
Proof.
  intros (_ & Hrange & _).
  assert (E : FamilyTree.distribute_birth_years (2 ^ 53 + 1) (2 ^ 53 + 1) 1
              = [9007199254740992%Z]) by (vm_compute; reflexivity).
  rewrite E in Hrange. specialize (Hrange _ (list_elem_of_here _ _)).
  vm_compute in Hrange. destruct Hrange as [H _]. by apply H.
Qed.

End Distribution.

(** ** The monad and the random source *)

Lemma bind_Ok {A B} (m : M A) (k : A -> M B) st b st' :
  bind m k st = Ok b st' <-> exists a st1, m st = Ok a st1 /\ k a st1 = Ok b st'.
Proof.
  unfold bind. split.
  - destruct (m st) as [a st1| |]; [eauto|done|done].
  - intros (a & st1 & -> & H). done.
Qed.

Lemma bind_Ok_eq {A B} (m : M A) (k : A -> M B) st a st1 :
  m st = Ok a st1 -> bind m k st = k a st1.
Proof. intros H. unfold bind. by rewrite H. Qed.

Lemma bind_Raise {A B} (m : M A) (k : A -> M B) st e :
  m st = Raise e -> bind m k st = Raise e.
Proof. intros H. unfold bind. by rewrite H. Qed.

(** Splits a successful run of [bind] into its two halves. *)
Tactic Notation "inv_bind" hyp(H) "as" ident(a) ident(st) ident(E) :=
  apply bind_Ok in H as (a & st & E & H).

Tactic Notation "inv_bind" hyp(H) :=
  let a := fresh "v" in
  let st := fresh "st" in
  let E := fresh "E" in
  apply bind_Ok in H as (a & st & E & H).

Lemma ret_Ok {A} (a b : A) st st' : ret a st = Ok b st' <-> a = b /\ st = st'.
Proof. unfold ret. split; [by intros [= -> ->]|by intros [-> ->]]. Qed.

Lemma next_Ok st : random.next st = Ok (oracle st (draws st)) (advance st).
Proof. reflexivity. Qed.

Lemma random_Ok st : random.random st = Ok (uniform st) (advance st).
Proof. reflexivity. Qed.

Lemma uniform_range st : (0 <= uniform st /\ uniform st < 1)%Q.
Proof.
  unfold uniform. set (r := (Z.of_N _ mod 2 ^ 53)%Z).
  assert (Hr : (0 <= r < 2 ^ 53)%Z) by (apply Z.mod_pos_bound; lia).
  assert (Hp : (0 < inject_Z (2 ^ 53))%Q) by done.
  split.
  - apply Qle_shift_div_l; [done|]. rewrite Qmult_0_l.
    change 0%Q with (inject_Z 0). rewrite <- Zle_Qle. lia.
  - apply Qlt_shift_div_r; [done|]. rewrite Qmult_1_l. rewrite <- Zlt_Qlt. lia.
Qed.

Lemma randint_Ok a b st v st' :
  random.randint a b st = Ok v st' -> (a <= v <= b)%Z /\ st' = advance st.
Proof.
  unfold random.randint. destruct (Z.ltb_spec b a) as [?|Hab]; [done|].
  intros Hr. inv_bind Hr. rewrite next_Ok in E. injection E as <- <-.
  apply ret_Ok in Hr as [<- <-]. split; [|done].
  pose proof (Z.mod_pos_bound (Z.of_N (oracle st (draws st))) (b - a + 1)). lia.
Qed.

Lemma randint_total a b st : (a <= b)%Z ->
  exists v, random.randint a b st = Ok v (advance st) /\ (a <= v <= b)%Z.
Proof.
  intros Hab. unfold random.randint. destruct (Z.ltb_spec b a); [lia|].
  eexists. split; [reflexivity|].
  pose proof (Z.mod_pos_bound (Z.of_N (oracle st (draws st))) (b - a + 1)). lia.
Qed.

Lemma randint_empty a b st : (b < a)%Z -> random.randint a b st = Raise ValueError.
Proof. intros H. unfold random.randint. by destruct (Z.ltb_spec b a); [|lia]. Qed.

Lemma choice_Ok {A} `{Inhabited A} (seq : list A) st x st' :
  random.choice seq st = Ok x st' -> x ∈ seq /\ st' = advance st.
Proof.
  unfold random.choice. destruct seq as [|y seq]; [done|].
  intros Hc. inv_bind Hc. rewrite next_Ok in E. injection E as <- <-.
  apply ret_Ok in Hc as [<- <-]. split; [|done].
  apply list_elem_of_lookup_total_2. apply Nat.mod_upper_bound. simpl. lia.
Qed.

Lemma choice_total {A} `{Inhabited A} (seq : list A) st : seq <> [] ->
  exists x, random.choice seq st = Ok x (advance st) /\ x ∈ seq.
Proof.
  intros Hne. unfold random.choice. destruct seq as [|y seq]; [done|].
  eexists. split; [reflexivity|].
  apply list_elem_of_lookup_total_2. apply Nat.mod_upper_bound. simpl. lia.
Qed.

(** ** Weighted selection *)

Section WeightedSelection.
Local Open Scope Q_scope.

Lemma accumulate_from_length acc ws :
  length (random.accumulate_from acc ws) = length ws.
Proof. revert acc. induction ws as [|w ws IH]; intros acc; simpl; [done|by rewrite IH]. Qed.

Lemma accumulate_length ws : length (random.accumulate ws) = length ws.
Proof. destruct ws; simpl; [done|by rewrite accumulate_from_length]. Qed.











Lemma last_accumulate cs : cs <> [] ->
  last (random.accumulate (map snd cs)) = Some (total_weight cs).
Proof.
  intros Hne. unfold total_weight.
  destruct (last (random.accumulate (map snd cs))) as [t|] eqn:E; [done|].
  apply last_None in E. apply (f_equal length) in E.
  rewrite accumulate_length, length_map in E. by destruct cs.
Qed.

(** [random.choices(names, weights)] on the names and weights of a
    non-empty list of pairs. *)
Lemma choices_pairs cs st : cs <> [] ->
  random.choices (map fst cs) (map snd cs) st =
  if Qle_bool (total_weight cs) 0 then Raise ValueError
  else if negb (forallb isfinite (random.accumulate (map snd cs))) then Raise ValueError
  else Ok (map fst cs !!!
             random.bisect (random.accumulate (map snd cs))
               (fmul (uniform st) (total_weight cs)) 0 (length (map fst cs) - 1))
          (advance st).
Proof.
  intros Hne. unfold random.choices.
  rewrite accumulate_length, !length_map, Nat.eqb_refl. simpl negb. cbv iota.
  rewrite last_accumulate by done.
  destruct (Qle_bool (total_weight cs) 0); [done|].
  by destruct (forallb isfinite (random.accumulate (map snd cs))).
Qed.



(** A list of positive total weight whose running sums are finite always
    yields a name, in both factories, at the cost of one draw. *)
Lemma weighted_choice_positive cs st : 0 < total_weight cs -> finite_sums cs ->
  exists name,
    PersonFactory.weighted_choice cs st = Ok name (advance st) /\
    PersonFactoryAI._weighted_pick cs st = Ok name (advance st).
Proof.
  intros Ht Hfin.
  assert (Hne : cs <> []) by (intros ->; by vm_compute in Ht).
  assert (Hb : Qle_bool (total_weight cs) 0 = false).
  { destruct (Qle_bool _ _) eqn:E; [|done]. apply Qle_bool_iff in E. lra. }
  assert (E : exists name, PersonFactory.weighted_choice cs st = Ok name (advance st)).
  { unfold PersonFactory.weighted_choice. rewrite choices_pairs, Hb by done.
    unfold finite_sums in Hfin. rewrite Hfin. by eexists. }
  destruct E as [name E]. exists name. split; [done|]. by destruct cs.
Qed.




End WeightedSelection.

(** ** The number of children *)

Section ChildCount.
Local Open Scope Q_scope.

Lemma fsub_le_fadd x y : 0 <= y -> fsub x y <= fadd x y.
Proof. intros Hy. unfold fsub, fadd. apply fl_mono. lra. Qed.

Lemma min_le_max_children birth_rate :
  (FamilyTree.min_children birth_rate <= FamilyTree.max_children birth_rate)%Z.
Proof.
  unfold FamilyTree.min_children, FamilyTree.max_children, py_ceil.
  apply Qceiling_resp_le, fsub_le_fadd. lra.
Qed.

Lemma fl_minus_one : fl (-1) == -1.
Proof. change (-1) with (inject_Z (-1)). apply fl_inject_Z. by vm_compute. Qed.

Lemma min_children_negative birth_rate :
  birth_rate <= 1 # 2 -> (FamilyTree.min_children birth_rate <= -1)%Z.
Proof.
  intros Hb. unfold FamilyTree.min_children, py_ceil, fsub.
  assert (H : fl (birth_rate - (3 # 2)) <= inject_Z (-1)).
  { change (inject_Z (-1)) with (-1). rewrite <- fl_minus_one. apply fl_mono. lra. }
  apply Qceiling_resp_le in H. by rewrite Qceiling_Z in H.
Qed.

Lemma max_children_nonneg birth_rate :
  - (3 # 2) <= birth_rate -> (0 <= FamilyTreeAI.max_children birth_rate)%Z.
Proof.
  intros Hb. unfold FamilyTreeAI.max_children, py_ceil, fadd.
  assert (H : inject_Z 0 <= fl (birth_rate + (3 # 2))).
  { change (inject_Z 0) with 0. apply fl_nonneg. lra. }
  apply Qceiling_resp_le in H. by rewrite Qceiling_Z in H.
Qed.

Lemma min_le_max_children_ai birth_rate :
  - (3 # 2) <= birth_rate ->
  (0 <= FamilyTreeAI.min_children birth_rate <= FamilyTreeAI.max_children birth_rate)%Z.
Proof.
  intros Hb. pose proof (max_children_nonneg birth_rate Hb).
  pose proof (min_le_max_children birth_rate) as Hle.
  unfold FamilyTree.min_children, FamilyTree.max_children in Hle.
  unfold FamilyTreeAI.min_children, FamilyTreeAI.max_children in *. lia.
Qed.

(** C6, as the code has it. [_expand_tree] draws from
    [[max(0, ceil(birth_rate - 1.5)), ceil(birth_rate + 1.5)]]: for every
    birth rate of at least -1.5 the range is well-formed and the draw is
    never negative. [generate_family_tree] does not clamp the lower end:
    its range [[ceil(birth_rate - 1.5), ceil(birth_rate + 1.5)]] is
    well-formed for every birth rate, its lower end is negative for every
    birth rate up to 0.5, and a draw that is not positive yields no birth
    year. *)
Theorem child_count_range :
  (forall birth_rate st, - (3 # 2) <= birth_rate ->
     FamilyTreeAI.min_children birth_rate
       = Z.max 0 (py_ceil (fsub birth_rate (3 # 2))) /\
     FamilyTreeAI.max_children birth_rate = py_ceil (fadd birth_rate (3 # 2)) /\
     exists n,
       random.randint (FamilyTreeAI.min_children birth_rate)
                      (FamilyTreeAI.max_children birth_rate) st = Ok n (advance st) /\
       (0 <= FamilyTreeAI.min_children birth_rate <= n)%Z /\
       (n <= FamilyTreeAI.max_children birth_rate)%Z) /\
  (forall birth_rate st,
     exists n,
       random.randint (FamilyTree.min_children birth_rate)
                      (FamilyTree.max_children birth_rate) st = Ok n (advance st) /\
       (FamilyTree.min_children birth_rate <= n <= FamilyTree.max_children birth_rate)%Z) /\
  (forall birth_rate, birth_rate <= 1 # 2 ->
     (FamilyTree.min_children birth_rate <= -1)%Z) /\
  (forall start end_ n, (n <= 0)%Z ->
     FamilyTree.distribute_birth_years start end_ n = []).
Proof.
  split; [|split; [|split]].
  - intros birth_rate st Hb. split; [done|]. split; [done|].
    pose proof (min_le_max_children_ai birth_rate Hb) as Hr.
    destruct (randint_total _ _ st (proj2 Hr)) as (n & Hn & Hrange).
    exists n. split; [done|]. lia.
  - intros birth_rate st.
    destruct (randint_total _ _ st (min_le_max_children birth_rate)) as (n & Hn & Hrange).
    by exists n.
  - apply min_children_negative.
  - intros start end_ n Hn. unfold FamilyTree.distribute_birth_years.
    by destruct (Z.leb_spec n 0); [|lia].
Qed.

Lemma child_count_range_witness :
  exists n,
    random.randint (FamilyTreeAI.min_children 2) (FamilyTreeAI.max_children 2)
      (FamilyTreeAI.empty_state (fun _ => 0%N))
    = Ok n (advance (FamilyTreeAI.empty_state (fun _ => 0%N))) /\
    (0 <= FamilyTreeAI.min_children 2 <= n)%Z /\
    (n <= FamilyTreeAI.max_children 2)%Z.
Proof.
  destruct child_count_range as (H & _).
  destruct (H 2 (FamilyTreeAI.empty_state (fun _ => 0%N))) as (_ & _ & Hn); [by vm_compute|].
  exact Hn.
Defined.

(** C6 as stated fails. With a birth rate of 0.5 the lower end of the range
    of [generate_family_tree] is -1, not [max(0, -1)], and the draw can be
    -1; with a birth rate of -3 the range of [_expand_tree] is empty and the
    draw raises. *)
Lemma child_count_range_violated :
  FamilyTree.min_children (1 # 2) = (-1)%Z /\
  random.randint (FamilyTree.min_children (1 # 2)) (FamilyTree.max_children (1 # 2))
    (FamilyTree.empty_state (fun _ => 0%N))
  = Ok (-1)%Z (advance (FamilyTree.empty_state (fun _ => 0%N))) /\
  random.randint (FamilyTreeAI.min_children (-3)) (FamilyTreeAI.max_children (-3))
    (FamilyTreeAI.empty_state (fun _ => 0%N))
  = Raise ValueError.
Proof. repeat split; by vm_compute. Qed.

End ChildCount.

(** ** Year of death *)

Section YearDied.
Local Open Scope Q_scope.

Lemma py_int_ge x k : (0 <= k)%Z -> inject_Z k <= x -> (k <= py_int x)%Z.
Proof.
  intros Hk Hx. unfold py_int.
  assert (H0 : 0 <= x).
  { eapply Qle_trans; [|exact Hx]. change 0 with (inject_Z 0). by rewrite <- Zle_Qle. }
  apply Qle_bool_iff in H0. rewrite H0.
  apply Qfloor_resp_le in Hx. by rewrite Qfloor_Z in Hx.
Qed.

Lemma year_died_after year_born life_expectancy variation :
  (0 <= year_born <= 1000000)%Z -> 11 <= life_expectancy -> (-10 <= variation <= 10)%Z ->
  (year_born <
   py_int (fadd (fadd (of_int year_born) life_expectancy) (of_int variation)))%Z.
Proof.
  intros Hy Hl Hv.
  assert (year_born + 1 <=
          py_int (fadd (fadd (of_int year_born) life_expectancy) (of_int variation)))%Z;
    [|lia].
  apply py_int_ge; [lia|]. unfold fadd.
  rewrite !small_int by lia.
  assert (H1 : inject_Z (year_born + 11) <= fl (inject_Z year_born + life_expectancy)).
  { rewrite <- (fl_inject_Z (year_born + 11)) by lia. apply fl_mono.
    rewrite inject_Z_plus. change (inject_Z 11) with 11. lra. }
  rewrite <- (fl_inject_Z (year_born + 1)) by lia. apply fl_mono.
  assert (- 10 <= inject_Z variation).
  { change (-10) with (inject_Z (-10)). rewrite <- Zle_Qle. lia. }
  rewrite inject_Z_plus in *. change (inject_Z 11) with 11 in H1.
  change (inject_Z 1) with 1. lra.
Qed.

End YearDied.

(** ** Effects of the operations on the store *)

Lemma Ok_inj {A} (a b : A) st st' : Ok a st = Ok b st' -> a = b /\ st = st'.
Proof. by intros [= -> ->]. Qed.

(** Inverts a successful run of a primitive of the store. *)
Ltac ok_inv E :=
  unfold read, update, alloc, people_append, queue_append, set_queue, ret in E;
  apply Ok_inj in E as [? ?]; subst; cbn [heap people queue oracle draws] in *.

Lemma same_store_refl st : same_store st st.
Proof. by repeat split. Qed.

Lemma same_store_trans st1 st2 st3 :
  same_store st1 st2 -> same_store st2 st3 -> same_store st1 st3.
Proof. intros (?&?&?&?) (?&?&?&?). repeat split; congruence. Qed.

Lemma same_store_advance st : same_store st (advance st).
Proof. by repeat split. Qed.

#[local] Hint Resolve same_store_refl same_store_advance : core.

Lemma randint_store a b st v st' :
  random.randint a b st = Ok v st' -> same_store st st' /\ (a <= v <= b)%Z.
Proof. intros H. apply randint_Ok in H as [? ->]. auto. Qed.

Lemma random_store st u st' :
  random.random st = Ok u st' -> same_store st st' /\ u = uniform st.
Proof. rewrite random_Ok. intros [= <- <-]. auto. Qed.

Lemma choice_store {A} `{Inhabited A} (seq : list A) st x st' :
  random.choice seq st = Ok x st' -> same_store st st' /\ x ∈ seq.
Proof. intros Hc. apply choice_Ok in Hc as [? ->]. auto. Qed.

Lemma weighted_choice_store cs st name st' :
  PersonFactory.weighted_choice cs st = Ok name st' -> same_store st st'.
Proof.
  destruct cs as [|c cs]; [done|]. unfold PersonFactory.weighted_choice.
  rewrite choices_pairs by done. destruct (Qle_bool _ _); [done|].
  destruct (negb _); [done|]. intros [= <- <-]. auto.
Qed.

Lemma weighted_pick_store cs st name st' :
  PersonFactoryAI._weighted_pick cs st = Ok name st' -> same_store st st'.
Proof.
  destruct cs as [|c cs]; [intros [= <- <-]; auto|].
  unfold PersonFactoryAI._weighted_pick.
  rewrite choices_pairs by done. destruct (Qle_bool _ _); [done|].
  destruct (negb _); [done|]. intros [= <- <-]. auto.
Qed.

Lemma dict_index_Ok {K V} `{Countable K} (d : gmap K V) key st v st' :
  dict_index d key st = Ok v st' -> d !! key = Some v /\ st' = st.
Proof.
  unfold dict_index. destruct (d !! key); [|done]. by intros [= -> ->].
Qed.

Lemma clamp_year_to_data_eq year : PersonFactory.clamp_year_to_data year = clamp year.
Proof.
  unfold PersonFactory.clamp_year_to_data, clamp.
  destruct (Z.ltb_spec year 1950); [lia|]. destruct (Z.gtb_spec year 2129); lia.
Qed.

Lemma clamp_year_eq year : PersonFactoryAI._clamp_year year = clamp year.
Proof. reflexivity. Qed.

Lemma clamp_range year : (1950 <= clamp year <= 2129)%Z.
Proof. unfold clamp. lia. Qed.

Lemma clamp_id year : (1950 <= year <= 2129)%Z -> clamp year = year.
Proof. unfold clamp. lia. Qed.

Lemma allocated_same_store_l p st0 st st' :
  same_store st0 st -> allocated p st st' -> allocated p st0 st'.
Proof. intros (?&?&?&?) (?&?&?&?). repeat split; congruence. Qed.

(** What [get_person] returns: a fresh person born in the clamped year,
    single and childless, who dies in the truncated sum of birth year, life
    expectancy of the decade and a variation of at most ten years. *)
Lemma get_person_Ok factory year st r st' :
  PersonFactory.get_person factory year st = Ok r st' ->
  exists p le v,
    r = length (heap st) /\ allocated p st st' /\
    year_born p = clamp year /\ spouse p = None /\ children p = [] /\
    PersonFactory.life_expectancy_by_decade factory !! decade_key (clamp year) = Some le /\
    (-10 <= v <= 10)%Z /\
    year_died p = py_int (fadd (fadd (of_int (clamp year)) le) (of_int v)).
Proof.
  unfold PersonFactory.get_person. rewrite clamp_year_to_data_eq. intros Hg.
  inv_bind Hg. apply weighted_choice_store in E as S1.
  inv_bind Hg. apply weighted_choice_store in E0 as S2.
  inv_bind Hg. apply dict_index_Ok in E1 as [Hle ->].
  inv_bind Hg. apply randint_store in E1 as [S3 Hv].
  ok_inv Hg.
  pose proof (same_store_trans _ _ _ (same_store_trans _ _ _ S1 S2) S3) as (Hh & Hp & Hq & Ho).
  eexists _, _, _. split; [by rewrite Hh|].
  split; [unfold allocated; simpl; by rewrite Hh, Hp, Hq, Ho|].
  repeat split; simpl; try done; lia.
Qed.

Lemma get_person_ai_Ok factory year override st r st' :
  PersonFactoryAI.get_person factory year override st = Ok r st' ->
  exists p v,
    r = length (heap st) /\ allocated p st st' /\
    year_born p = clamp year /\ spouse p = None /\ children p = [] /\
    (forall name, override = Some name -> last_name p = name) /\
    (-10 <= v <= 10)%Z /\
    year_died p =
      py_int (fadd (fadd (of_int (clamp year))
                         (dict_get (PersonFactoryAI._life_expectancy factory)
                                   (decade_key (clamp year)) 80%Q))
                   (of_int v)).
Proof.
  unfold PersonFactoryAI.get_person. rewrite clamp_year_eq. intros Hg.
  inv_bind Hg. apply choice_store in E as [S1 _].
  inv_bind Hg. apply weighted_pick_store in E as S2.
  inv_bind Hg.
  assert (S3 : same_store st1 st2 /\ (forall name, override = Some name -> v1 = name)).
  { destruct override as [name|].
    - ok_inv E0. split; [auto|]. by intros ? [= ->].
    - apply weighted_pick_store in E0. by split. }
  destruct S3 as [S3 Hname].
  inv_bind Hg. apply randint_store in E1 as [S4 Hv].
  ok_inv Hg.
  pose proof (same_store_trans _ _ _ (same_store_trans _ _ _
                (same_store_trans _ _ _ S1 S2) S3) S4) as (Hh & Hp & Hq & Ho).
  eexists _, _. split; [by rewrite Hh|].
  split; [unfold allocated; simpl; by rewrite Hh, Hp, Hq, Ho|].
  repeat split; simpl; try done; lia.
Qed.

Lemma alter_app_last {A} (f : A -> A) (l : list A) (x : A) :
  alter f (length l) (l ++ [x]) = l ++ [f x].
Proof. induction l as [|y l IH]; simpl; [done|]. by f_equal. Qed.

(** *** [FamilyTree.py] *)

Lemma marriage_step_married factory person decade st st' :
  FamilyTree.marriage_step factory person decade st = Ok tt st' ->
  married person st st'.
Proof.
  unfold FamilyTree.marriage_step. intros Hm.
  inv_bind Hm as sp st0 E0. ok_inv E0.
  destruct (spouse (heap st0 !!! person)) eqn:Hsp; [ok_inv Hm; by apply stays_single|].
  inv_bind Hm as rate st1 E1. apply dict_index_Ok in E1 as [_ ->].
  inv_bind Hm as u st2 E2. apply random_store in E2 as [S1 _].
  destruct (Qlt_bool _ _); [|ok_inv Hm; by apply stays_single].
  inv_bind Hm as yb st3 E3. ok_inv E3.
  inv_bind Hm as variation st4 E4. apply randint_store in E4 as [S2 Hv].
  inv_bind Hm as r st5 E5.
  apply get_person_Ok in E5 as (p & le & v' & -> & Ha & Hy & Hs & Hc & _).
  inv_bind Hm as u1 st6 E6. ok_inv E6.
  inv_bind Hm as u2 st7 E7. ok_inv E7.
  ok_inv Hm.
  pose proof (same_store_trans _ _ _ S1 S2) as S.
  destruct (allocated_same_store_l _ _ _ _ S Ha) as (Hh & Hp & Hq & Ho).
  destruct S as (Hh' & _). destruct S1 as (Hh1 & _).
  eapply (weds person st0 _ p variation); simpl;
    rewrite ?Hh', ?Hh, ?Hp, ?Hq, ?Ho; try done.
  by rewrite Hy, Hh1.
Qed.

Lemma add_child_for_year_added factory person year st st' :
  FamilyTree.add_child_for_year factory person year st = Ok tt st' ->
  child_added person year st st'.
Proof.
  unfold FamilyTree.add_child_for_year. intros Hc.
  inv_bind Hc as r st1 E1.
  apply get_person_Ok in E1 as (p & le & v' & -> & Ha & Hy & Hs & Hch & _).
  inv_bind Hc as name st2 E2. apply choice_store in E2 as [S1 Hname].
  inv_bind Hc as u3 st3 E3. ok_inv E3.
  inv_bind Hc as u4 st4 E4. ok_inv E4.
  inv_bind Hc as u5 st5 E5. inv_bind E5 as sp st6 E6. ok_inv E6.
  assert (Hheap : heap st2 = heap st ++ [p]).
  { destruct Ha as (Hh & _). destruct S1 as (Hh1 & _). congruence. }
  assert (Hst : heap st5 =
                with_child person (length (heap st)) (heap st ++ [set_last_name name p]) /\
                people st5 = people st2 /\ queue st5 = queue st2 /\ oracle st5 = oracle st2).
  { unfold with_child. cbv zeta. rewrite Hheap, alter_app_last in E5.
    destruct (spouse (alter _ person _ !!! person)); ok_inv E5;
      by rewrite ?Hheap, ?alter_app_last. }
  destruct Hst as (H5 & Hp5 & Hq5 & Ho5).
  inv_bind Hc as u7 st7 E7. ok_inv E7. ok_inv Hc.
  destruct Ha as (_ & Hp & Hq & Ho). destruct S1 as (_ & Hp1 & Hq1 & Ho1).
  exists (set_last_name name p). simpl.
  repeat split; try done; by rewrite ?Hp5, ?Hq5, ?Ho5, ?Hp1, ?Hq1, ?Ho1, ?Hp, ?Hq, ?Ho.
Qed.

Lemma children_added_same_store_l person years st0 st st' :
  same_store st0 st -> children_added person years st st' ->
  children_added person years st0 st'.
Proof.
  intros S H. destruct H as [st st' S'|year years st st1 st' Hc Hrest].
  - apply no_more_children. by eapply same_store_trans.
  - eapply one_more_child; [|exact Hrest].
    destruct S as (Hh & Hp & Hq & Ho). destruct Hc as (c & ? & ? & ? & ? & H1 & H2 & H3 & H4).
    exists c. rewrite <- Hh, <- Hp, <- Hq, <- Ho. by repeat split.
Qed.

Lemma for_each_children_added (add : Z -> M unit) person years st st' :
  (forall year st st', add year st = Ok tt st' -> child_added person year st st') ->
  for_each years (fun year => if (year >? cutoff)%Z then ret tt else add year) st
    = Ok tt st' ->
  children_added person (filter (fun y => (y <= cutoff)%Z) years) st st'.
Proof.
  intros Hadd. revert st. induction years as [|year years IH]; intros st Hf; simpl in Hf.
  - ok_inv Hf. by apply no_more_children.
  - inv_bind Hf as u st1 E1. rewrite filter_cons.
    destruct (Z.gtb_spec year cutoff) as [Hgt|Hle].
    + ok_inv E1. rewrite decide_False by lia. by apply IH.
    + rewrite decide_True by lia. destruct u.
      eapply one_more_child; [by apply Hadd|by apply IH].
Qed.

Lemma elder_year_same_store st st' person :
  same_store st st' -> elder_year st' person = elder_year st person.
Proof. intros (Hh & _). unfold elder_year. by rewrite Hh. Qed.

Lemma children_step_added factory person decade st st' :
  FamilyTree.children_step factory person decade st = Ok tt st' ->
  exists birth_rate count,
    PersonFactory.birth_rate_by_decade factory !! decade = Some birth_rate /\
    (count <= FamilyTree.max_children birth_rate)%Z /\
    children_added person (kept_years (elder_year st person) count) st st'.
Proof.
  unfold FamilyTree.children_step. intros Hc.
  inv_bind Hc as birth_rate st1 E1. apply dict_index_Ok in E1 as [Hbr ->].
  inv_bind Hc as count st2 E2. apply randint_store in E2 as [S1 Hn].
  exists birth_rate, count. split; [done|]. split; [lia|].
  destruct (Z.eqb_spec count 0) as [->|Hne].
  - ok_inv Hc. apply no_more_children. done.
  - inv_bind Hc as yb st3 E3. ok_inv E3. inv_bind Hc as sp st4 E4. ok_inv E4.
    inv_bind Hc as elder st5 E5.
    assert (elder = elder_year st4 person /\ st5 = st4) as [-> ->].
    { unfold elder_year. cbv zeta. destruct (spouse (heap st4 !!! person)).
      - inv_bind E5 as syb st6 E6. ok_inv E6. ok_inv E5. done.
      - ok_inv E5. done. }
    apply (children_added_same_store_l _ _ _ _ _ S1).
    rewrite <- (elder_year_same_store _ _ person S1).
    apply (for_each_children_added (FamilyTree.add_child_for_year factory person)); [|done].
    intros. by eapply add_child_for_year_added.
Qed.

Lemma max_over_years_ge f year :
  (1950 <= year <= 2129)%Z -> (f year <= max_over_years f)%Z.
Proof.
  intros Hy. unfold max_over_years.
  assert (Hin : Z.to_nat (year - 1950) ∈ seq 0 180) by (apply elem_of_seq; lia).
  replace year with (1950 + Z.of_nat (Z.to_nat (year - 1950)))%Z at 1 by lia.
  revert Hin. generalize (Z.to_nat (year - 1950)) (seq 0 180). intros k l.
  induction l as [|x l IH]; intros Hin; [by apply elem_of_nil in Hin|].
  simpl. apply elem_of_cons in Hin as [->|Hin]; [lia|]. specialize (IH Hin). lia.
Qed.

Lemma max_over_years_nonneg f : (0 <= max_over_years f)%Z.
Proof.
  unfold max_over_years. induction (seq 0 180) as [|x l IH]; simpl; lia.
Qed.

Lemma expand_expanded factory person st st' :
  (1950 <= year_born (heap st !!! person) <= 2129)%Z ->
  FamilyTree.expand factory person st = Ok tt st' ->
  expanded (children_bound factory) person st st'.
Proof.
  intros Hy. unfold FamilyTree.expand. intros He.
  inv_bind He as yb st0 E0. ok_inv E0.
  inv_bind He as u st1 E1. destruct u. apply marriage_step_married in E1.
  apply children_step_added in He as (birth_rate & count & Hbr & Hcount & Hadd).
  exists st1, count. split; [done|]. split; [|done].
  etransitivity; [exact Hcount|].
  pose proof (max_over_years_ge (fun year =>
    match PersonFactory.birth_rate_by_decade factory !! decade_key year with
    | Some birth_rate => FamilyTree.max_children birth_rate
    | None => 0%Z
    end) _ Hy) as Hmax.
  cbv beta in Hmax. by rewrite Hbr in Hmax.
Qed.

(** *** [family_tree_ai.py] *)

Lemma marriage_step_ai_married factory person decade st st' :
  FamilyTreeAI.marriage_step factory person decade st = Ok tt st' ->
  married person st st'.
Proof.
  unfold FamilyTreeAI.marriage_step. intros Hm.
  inv_bind Hm as sp st0 E0. ok_inv E0.
  destruct (spouse (heap st0 !!! person)) eqn:Hsp; [ok_inv Hm; by apply stays_single|].
  inv_bind Hm as u st2 E2. apply random_store in E2 as [S1 _].
  destruct (Qlt_bool _ _); [|ok_inv Hm; by apply stays_single].
  inv_bind Hm as yb st3 E3. ok_inv E3.
  inv_bind Hm as variation st4 E4. apply randint_store in E4 as [S2 Hv].
  inv_bind Hm as r st5 E5.
  apply get_person_ai_Ok in E5 as (p & v' & -> & Ha & Hy & Hs & Hc & _).
  inv_bind Hm as u1 st6 E6. ok_inv E6.
  inv_bind Hm as u2 st7 E7. ok_inv E7.
  ok_inv Hm.
  pose proof (same_store_trans _ _ _ S1 S2) as S.
  destruct (allocated_same_store_l _ _ _ _ S Ha) as (Hh & Hp & Hq & Ho).
  destruct S as (Hh' & _). destruct S1 as (Hh1 & _).
  eapply (weds person st0 _ p variation); simpl;
    rewrite ?Hh', ?Hh, ?Hp, ?Hq, ?Ho; try done.
  by rewrite Hy, Hh1.
Qed.

Lemma add_child_for_year_ai_added factory person year st st' :
  FamilyTreeAI.add_child_for_year factory person year st = Ok tt st' ->
  child_added person year st st'.
Proof.
  unfold FamilyTreeAI.add_child_for_year. intros Hc.
  inv_bind Hc as name st1 E1. apply choice_store in E1 as [S1 Hname].
  inv_bind Hc as r st2 E2.
  apply get_person_ai_Ok in E2 as (p & v' & -> & Ha & Hy & Hs & Hch & Hln & _).
  specialize (Hln _ eq_refl).
  destruct (allocated_same_store_l _ _ _ _ S1 Ha) as (Hh & Hp & Hq & Ho).
  destruct S1 as (Hh1 & _).
  inv_bind Hc as u4 st4 E4. ok_inv E4.
  inv_bind Hc as u5 st5 E5. inv_bind E5 as sp st6 E6. ok_inv E6.
  assert (Hst : heap st5 = with_child person (length (heap st)) (heap st ++ [p]) /\
                people st5 = people st2 /\ queue st5 = queue st2 /\ oracle st5 = oracle st2).
  { unfold with_child. cbv zeta. rewrite Hh1, Hh in E5.
    destruct (spouse (alter _ person _ !!! person)); ok_inv E5; by rewrite ?Hh1, ?Hh. }
  destruct Hst as (H5 & Hp5 & Hq5 & Ho5).
  inv_bind Hc as u7 st7 E7. ok_inv E7. ok_inv Hc.
  exists p.
  repeat split; try done; by rewrite ?Hp5, ?Hq5, ?Ho5, ?Hh1, ?Hp, ?Hq, ?Ho.
Qed.

Lemma children_step_ai_added factory person decade st st' :
  FamilyTreeAI.children_step factory person decade st = Ok tt st' ->
  exists count,
    (count <= FamilyTreeAI.max_children (PersonFactoryAI.get_birth_rate factory decade))%Z /\
    children_added person (kept_years (elder_year st person) count) st st'.
Proof.
  unfold FamilyTreeAI.children_step. intros Hc.
  inv_bind Hc as count st2 E2. apply randint_store in E2 as [S1 Hn].
  exists count. split; [lia|].
  destruct (Z.eqb_spec count 0) as [->|Hne].
  - ok_inv Hc. apply no_more_children. done.
  - inv_bind Hc as yb st3 E3. ok_inv E3. inv_bind Hc as sp st4 E4. ok_inv E4.
    inv_bind Hc as elder st5 E5.
    assert (elder = elder_year st4 person /\ st5 = st4) as [-> ->].
    { unfold elder_year. cbv zeta. destruct (spouse (heap st4 !!! person)).
      - inv_bind E5 as syb st6 E6. ok_inv E6. ok_inv E5. done.
      - ok_inv E5. done. }
    apply (children_added_same_store_l _ _ _ _ _ S1).
    rewrite <- (elder_year_same_store _ _ person S1).
    unfold kept_years. rewrite <- spread_birth_years_eq.
    apply (for_each_children_added (FamilyTreeAI.add_child_for_year factory person)); [|done].
    intros. by eapply add_child_for_year_ai_added.
Qed.

Lemma expand_ai_expanded factory person st st' :
  (1950 <= year_born (heap st !!! person) <= 2129)%Z ->
  FamilyTreeAI.expand factory person st = Ok tt st' ->
  expanded (children_bound_ai factory) person st st'.
Proof.
  intros Hy. unfold FamilyTreeAI.expand. intros He.
  inv_bind He as yb st0 E0. ok_inv E0.
  inv_bind He as u st1 E1. destruct u. apply marriage_step_ai_married in E1.
  apply children_step_ai_added in He as (count & Hcount & Hadd).
  exists st1, count. split; [done|]. split; [|done].
  etransitivity; [exact Hcount|].
  exact (max_over_years_ge (fun year =>
    FamilyTreeAI.max_children (PersonFactoryAI.get_birth_rate factory (decade_key year)))
    _ Hy).
Qed.

(** ** The invariant of the generation loop *)

Lemma grown_refl c p : grown c p p.
Proof. repeat split; auto. Qed.

Lemma grown_trans c p1 p2 p3 : grown c p1 p2 -> grown c p2 p3 -> grown c p1 p3.
Proof.
  intros (Hy & Hl & Hs & Hc & Hk) (Hy' & Hl' & Hs' & Hc' & Hk').
  repeat split; try congruence.
  - intros x Hx. destruct (Hc' x Hx) as [H|H]; auto.
  - auto.
Qed.

Lemma grown_add_child c p : grown c p (add_child c p).
Proof.
  repeat split; simpl; auto.
  - intros x Hx. apply elem_of_app in Hx as [?|Hx]; [auto|].
    apply list_elem_of_singleton in Hx. auto.
  - intros x Hx. apply elem_of_app. auto.
Qed.

Lemma heap_grown_alter c i h : heap_grown c h (alter (add_child c) i h).
Proof.
  split; [apply length_alter|]. intros r p Hr.
  destruct (decide (i = r)) as [->|Hne].
  - exists (add_child c p). rewrite list_lookup_alter_eq, Hr. split; [done|apply grown_add_child].
  - exists p. rewrite list_lookup_alter_ne by done. split; [done|apply grown_refl].
Qed.

Lemma heap_grown_refl c h : heap_grown c h h.
Proof. split; [done|]. intros r p Hr. exists p. split; [done|apply grown_refl]. Qed.

Lemma heap_grown_trans c h1 h2 h3 :
  heap_grown c h1 h2 -> heap_grown c h2 h3 -> heap_grown c h1 h3.
Proof.
  intros [L1 H1] [L2 H2]. split; [congruence|]. intros r p Hr.
  destruct (H1 r p Hr) as (p2 & Hr2 & G1). destruct (H2 r p2 Hr2) as (p3 & Hr3 & G2).
  exists p3. split; [done|by eapply grown_trans].
Qed.

Lemma with_child_grown person c h : heap_grown c h (with_child person c h).
Proof.
  unfold with_child. cbv zeta. destruct (spouse _).
  - eapply heap_grown_trans; apply heap_grown_alter.
  - apply heap_grown_alter.
Qed.

Lemma heap_grown_inv c h h' r p' :
  heap_grown c h h' -> h' !! r = Some p' ->
  exists p, h !! r = Some p /\ grown c p p'.
Proof.
  intros [L H] Hr. pose proof (lookup_lt_Some _ _ _ Hr) as Hlt. rewrite L in Hlt.
  destruct (lookup_lt_is_Some_2 h r Hlt) as [p Hp]. exists p. split; [done|].
  destruct (H r p Hp) as (p'' & Hr'' & G). congruence.
Qed.

Lemma with_child_has person c h :
  (person < length h)%nat ->
  exists p', with_child person c h !! person = Some p' /\ c ∈ children p'.
Proof.
  intros Hlt. destruct (lookup_lt_is_Some_2 h person Hlt) as [p Hp].
  assert (H1 : alter (add_child c) person h !! person = Some (add_child c p)).
  { by rewrite list_lookup_alter_eq, Hp. }
  assert (Hc : c ∈ children (add_child c p)).
  { simpl. apply elem_of_app. right. apply list_elem_of_singleton. done. }
  unfold with_child. cbv zeta. destruct (spouse _) as [s|]; [|eauto].
  destruct (heap_grown_alter c s (alter (add_child c) person h)) as [_ H].
  destruct (H _ _ H1) as (p' & Hp' & (_ & _ & _ & _ & Hk)). eauto.
Qed.

Lemma extends_refl st : extends st st.
Proof. intros r p Hr. exists p. auto. Qed.

Lemma extends_trans st1 st2 st3 : extends st1 st2 -> extends st2 st3 -> extends st1 st3.
Proof.
  intros H1 H2 r p Hr. destruct (H1 r p Hr) as (p2 & Hr2 & Ey2 & El2 & Ec2).
  destruct (H2 r p2 Hr2) as (p3 & Hr3 & Ey3 & El3 & Ec3).
  exists p3. repeat split; [done|congruence|congruence|auto].
Qed.

Lemma same_store_invariant st st' :
  same_store st st' -> generation_invariant st -> generation_invariant st'.
Proof.
  intros (Hh & Hp & Hq & _) [I1 I2 I3 I4 I5 I6 I7].
  split; rewrite ?Hh, ?Hp, ?Hq; done.
Qed.

Lemma same_store_extends st st' : same_store st st' -> extends st st'.
Proof. intros (Hh & _) r p Hr. rewrite Hh. exists p. auto. Qed.

Lemma invariant_valid st r :
  generation_invariant st -> r ∈ queue st -> (r < length (heap st))%nat.
Proof.
  intros I Hr. destruct (inv_queue st I r Hr) as (p & Hp & _).
  by eapply lookup_lt_Some.
Qed.

Lemma invariant_two st : generation_invariant st -> (2 <= length (heap st))%nat.
Proof.
  intros I. destruct (inv_founders st I) as (f1 & f2 & _ & H2 & _).
  apply lookup_lt_Some in H2. lia.
Qed.

Lemma clamp_near year variation :
  (1950 <= year <= 2129)%Z -> (-10 <= variation <= 10)%Z ->
  (year - 10 <= clamp (year + variation) <= year + 10)%Z.
Proof. unfold clamp. lia. Qed.

Section Weds.
Variables (h : list Person) (person : ref) (sp p0 : Person).
Hypothesis Hperson : h !! person = Some p0.

Let h' := alter (set_spouse (Some person)) (length h)
            (alter (set_spouse (Some (length h))) person (h ++ [sp])).

Lemma weds_length : length h' = S (length h).
Proof. unfold h'. rewrite !length_alter, length_app. simpl. lia. Qed.

Lemma weds_person_lt : (person < length h)%nat.
Proof. by eapply lookup_lt_Some. Qed.

Lemma weds_old r : r <> person -> (r < length h)%nat -> h' !! r = h !! r.
Proof.
  intros Hne Hlt. unfold h'.
  rewrite !list_lookup_alter_ne by (done || lia). by apply lookup_app_l.
Qed.

Lemma weds_person : h' !! person = Some (set_spouse (Some (length h)) p0).
Proof.
  pose proof weds_person_lt as Hlt. unfold h'.
  rewrite list_lookup_alter_ne by lia. rewrite list_lookup_alter_eq.
  rewrite lookup_app_l by done. by rewrite Hperson.
Qed.

Lemma weds_new : h' !! length h = Some (set_spouse (Some person) sp).
Proof.
  pose proof weds_person_lt as Hlt. unfold h'.
  rewrite list_lookup_alter_eq, list_lookup_alter_ne by lia.
  by rewrite list_lookup_middle.
Qed.

Lemma weds_cases r p' : h' !! r = Some p' ->
  (r <> person /\ (r < length h)%nat /\ h !! r = Some p') \/
  (r = person /\ p' = set_spouse (Some (length h)) p0) \/
  (r = length h /\ p' = set_spouse (Some person) sp).
Proof.
  intros Hr. pose proof (lookup_lt_Some _ _ _ Hr) as Hlt. rewrite weds_length in Hlt.
  destruct (decide (r = length h)) as [->|Hn].
  { rewrite weds_new in Hr. right. right. split; congruence. }
  destruct (decide (r = person)) as [->|Hp].
  { rewrite weds_person in Hr. right. left. split; congruence. }
  left. rewrite weds_old in Hr by (done || lia). repeat split; (done || lia).
Qed.

End Weds.

Lemma extends_founders st st' :
  extends st st' ->
  (exists f1 f2,
      heap st !! 0%nat = Some f1 /\ heap st !! 1%nat = Some f2 /\
      year_born f1 = 1950%Z /\ year_born f2 = 1950%Z /\
      last_name f1 = "Jones" /\ last_name f2 = "Smith") ->
  exists f1 f2,
      heap st' !! 0%nat = Some f1 /\ heap st' !! 1%nat = Some f2 /\
      year_born f1 = 1950%Z /\ year_born f2 = 1950%Z /\
      last_name f1 = "Jones" /\ last_name f2 = "Smith".
Proof.
  intros Hext (f1 & f2 & H1 & H2 & Y1 & Y2 & L1 & L2).
  destruct (Hext _ _ H1) as (f1' & H1' & Y1' & L1' & _).
  destruct (Hext _ _ H2) as (f2' & H2' & Y2' & L2' & _).
  exists f1', f2'. repeat split; congruence.
Qed.

Lemma married_invariant person st st' :
  generation_invariant st -> (person < length (heap st))%nat ->
  married person st st' ->
  generation_invariant st' /\ extends st st' /\ queue st' = queue st.
Proof.
  intros I Hvalid [S|sp variation Hsingle Hv Hyb Hsp Hch Hheap Hpeople Hqueue _].
  { split; [by eapply same_store_invariant|]. split; [by apply same_store_extends|].
    by destruct S as (_ & _ & ? & _). }
  destruct (lookup_lt_is_Some_2 _ _ Hvalid) as [p0 Hp0].
  rewrite (list_lookup_total_correct _ _ _ Hp0) in Hsingle, Hyb.
  pose proof (inv_years st I _ _ Hp0) as Hy0.
  pose proof (clamp_near _ _ Hy0 Hv) as Hnear. rewrite <- Hyb in Hnear.
  pose proof (weds_cases (heap st) person sp p0 Hp0) as Hcases.
  pose proof (weds_old (heap st) person sp) as Hold.
  pose proof (weds_person (heap st) person sp p0 Hp0) as Hnewp.
  pose proof (weds_new (heap st) person sp p0 Hp0) as Hnews.
  pose proof (weds_length (heap st) person sp) as Hlen.
  cbv zeta in *. rewrite <- Hheap in *. clear Hheap.
  assert (Hext : forall r p, heap st !! r = Some p ->
            exists p', heap st' !! r = Some p' /\ year_born p' = year_born p /\
                       last_name p' = last_name p /\ children p' = children p).
  { intros r p Hr. destruct (decide (r = person)) as [->|Hne].
    - exists (set_spouse (Some (length (heap st))) p0).
      assert (p = p0) as -> by congruence. done.
    - exists p. rewrite Hold by (done || by eapply lookup_lt_Some). done. }
  assert (Hext' : extends st st').
  { intros r p Hr. destruct (Hext r p Hr) as (p' & ? & ? & ? & Hc).
    exists p'. rewrite Hc. auto. }
  split; [|by split].
  destruct I as [I1 I2 I3 I4 I5 I6 I7]. split.
  - rewrite Hpeople, I1, Hlen. by rewrite seq_S.
  - by apply (extends_founders st st').
  - intros r p Hr. destruct (Hcases _ _ Hr) as [(_ & _ & E)|[[_ ->]|[_ ->]]]; simpl.
    + by eapply I3.
    + done.
    + rewrite Hyb. apply clamp_range.
  - intros r p s Hr Hs. destruct (Hcases _ _ Hr) as [(Hne & Hlt & E)|[[-> ->]|[-> ->]]].
    + destruct (I4 _ _ _ E Hs) as (q & Hq & Hqs & Hage).
      assert (s <> person) by (intros ->; congruence).
      exists q. rewrite Hold by (done || by eapply lookup_lt_Some). done.
    + simpl in Hs. injection Hs as <-.
      eexists. split; [exact Hnews|]. simpl. split; [done|lia].
    + simpl in Hs. injection Hs as <-.
      eexists. split; [exact Hnewp|]. simpl. split; [done|lia].
  - intros r p c Hr Hc.
    assert (exists r0 p1, heap st !! r0 = Some p1 /\ c ∈ children p1) as (r0 & p1 & Hr0 & Hc0).
    { destruct (Hcases _ _ Hr) as [(Hne & Hlt & E)|[[-> ->]|[-> ->]]]; simpl in Hc.
      - eauto.
      - eauto.
      - rewrite Hch in Hc. by apply elem_of_nil in Hc. }
    destruct (I5 _ _ _ Hr0 Hc0) as (q & Hq & H2 & Hy & Hl).
    destruct (Hext _ _ Hq) as (q' & Hq' & Ey & El & _).
    exists q'. rewrite Ey, El. done.
  - intros r Hr. rewrite Hqueue in Hr. destruct (I6 r Hr) as (p & Hp & Hy).
    destruct (Hext _ _ Hp) as (p' & Hp' & Ey & _). exists p'. rewrite Ey. done.
  - intros r p Hr. destruct (Hcases _ _ Hr) as [(Hne & Hlt & E)|[[-> ->]|[-> ->]]]; simpl.
    + destruct (I7 _ _ E) as [?|[?|(r' & p' & Hr' & Hc')]]; [auto|auto|].
      right. right. destruct (Hext _ _ Hr') as (p'' & Hp'' & _ & _ & Ec).
      exists r', p''. rewrite Ec. done.
    + right. left. done.
    + right. left. done.
Qed.

Lemma child_added_invariant person year st st' :
  generation_invariant st -> (person < length (heap st))%nat ->
  (1975 <= year <= cutoff)%Z ->
  child_added person year st st' ->
  generation_invariant st' /\ extends st st' /\
  queue st' = queue st ++ [length (heap st)] /\
  length (heap st') = S (length (heap st)) /\
  exists q, heap st' !! length (heap st) = Some q /\ year_born q = year.
Proof.
  intros I Hvalid Hyear (c & Hyb & Hln & Hsp & Hch & Hheap & Hpeople & Hqueue & _).
  assert (Hcy : year_born c = year) by (rewrite Hyb; apply clamp_id; unfold cutoff in *; lia).
  pose proof (with_child_grown person (length (heap st)) (heap st ++ [c])) as Hg.
  rewrite <- Hheap in Hg. destruct Hg as [Hlen Hfw].
  rewrite length_app in Hlen. simpl in Hlen.
  assert (Hbw : forall r p', heap st' !! r = Some p' ->
            exists p1, grown (length (heap st)) p1 p' /\
              ((r < length (heap st))%nat /\ heap st !! r = Some p1 \/
               r = length (heap st) /\ c = p1)).
  { intros r p' Hr.
    destruct (heap_grown_inv (length (heap st)) (heap st ++ [c]) (heap st') r p')
      as (p1 & Hp1 & G); [by split; [rewrite length_app; simpl|]|done|].
    exists p1. split; [done|]. by apply lookup_snoc_Some. }
  assert (Hold : forall r p, heap st !! r = Some p ->
            exists p', heap st' !! r = Some p' /\ grown (length (heap st)) p p').
  { intros r p Hr. apply Hfw. apply lookup_app_l_Some. done. }
  assert (Hnew : exists q, heap st' !! length (heap st) = Some q /\
                           grown (length (heap st)) c q).
  { apply Hfw. by rewrite list_lookup_middle. }
  assert (Hext : extends st st').
  { intros r p Hr. destruct (Hold r p Hr) as (p' & Hp' & Ey & El & _ & _ & Ek).
    exists p'. auto. }
  destruct Hnew as (q & Hq & Gy & Gl & Gs & Gc & _).
  split; [|split; [done|split; [done|split; [lia|]]]].
  2: { exists q. split; [done|congruence]. }
  pose proof (invariant_two st I) as Htwo.
  destruct I as [I1 I2 I3 I4 I5 I6 I7]. split.
  - rewrite Hpeople, I1. replace (length (heap st')) with (S (length (heap st))) by lia.
    by rewrite seq_S.
  - by apply (extends_founders st st').
  - intros r p' Hr. destruct (Hbw r p' Hr) as (p1 & (Ey & _) & [[_ H1]|[_ <-]]); rewrite Ey.
    + by eapply I3.
    + rewrite Hcy. unfold cutoff in *. lia.
  - intros r p' s Hr Hs.
    destruct (Hbw r p' Hr) as (p1 & (Ey & _ & Es & _) & [[_ H1]|[_ <-]]).
    + rewrite Es in Hs. destruct (I4 _ _ _ H1 Hs) as (q0 & Hq0 & Hqs & Hage).
      destruct (Hold _ _ Hq0) as (q' & Hq' & Ey' & _ & Es' & _).
      exists q'. rewrite Es', Ey', Ey. done.
    + congruence.
  - intros r p' x Hr Hx.
    destruct (Hbw r p' Hr) as (p1 & (_ & _ & _ & Ec & _) & Hsrc).
    destruct (Ec x Hx) as [Hx1| ->].
    + destruct Hsrc as [[_ H1]|[_ <-]]; [|rewrite Hch in Hx1; by apply elem_of_nil in Hx1].
      destruct (I5 _ _ _ H1 Hx1) as (q0 & Hq0 & H2 & Hy0 & Hl0).
      destruct (Hold _ _ Hq0) as (q' & Hq' & Ey' & El' & _).
      exists q'. rewrite Ey', El'. done.
    + exists q. rewrite Gy, Gl, Hcy. done.
  - intros r Hr. rewrite Hqueue in Hr. apply elem_of_app in Hr as [Hr|Hr].
    + destruct (I6 r Hr) as (p & Hp & Hy). destruct (Hold _ _ Hp) as (p' & Hp' & Ey & _).
      exists p'. rewrite Ey. done.
    + apply list_elem_of_singleton in Hr as ->. exists q. rewrite Gy, Hcy. split; [done|lia].
  - intros r p' Hr.
    destruct (Hbw r p' Hr) as (p1 & (_ & _ & Es & _ & Ek) & [[_ H1]|[-> <-]]).
    + destruct (I7 _ _ H1) as [?|[?|(r' & p0 & Hr' & Hc')]]; [auto| |].
      * right. left. by rewrite Es.
      * right. right. destruct (Hold _ _ Hr') as (p'' & Hp'' & _ & _ & _ & _ & Ek'').
        exists r', p''. auto.
    + right. right.
      destruct (with_child_has person (length (heap st)) (heap st ++ [c]))
        as (pp & Hpp & Hin); [rewrite length_app; simpl; lia|].
      rewrite <- Hheap in Hpp. eauto.
Qed.

Lemma children_added_invariant person years st st' :
  generation_invariant st -> (person < length (heap st))%nat ->
  Forall (fun y => (1975 <= y <= cutoff)%Z) years ->
  children_added person years st st' ->
  generation_invariant st' /\ extends st st' /\
  exists new, queue st' = queue st ++ new /\
    Forall2 (fun c y => exists q, heap st' !! c = Some q /\ year_born q = y) new years.
Proof.
  intros I Hvalid Hyears Hadd. revert I Hvalid Hyears.
  induction Hadd as [st st' S|year years st st1 st' Hc Hrest IH]; intros I Hvalid Hyears.
  - split; [by eapply same_store_invariant|]. split; [by apply same_store_extends|].
    exists []. destruct S as (_ & _ & -> & _). by rewrite app_nil_r.
  - apply Forall_cons in Hyears as [Hyear Hyears].
    destruct (child_added_invariant _ _ _ _ I Hvalid Hyear Hc)
      as (I1 & Hext1 & Hq1 & Hlen1 & q & Hq & Hqy).
    destruct (IH I1 ltac:(lia) Hyears) as (I' & Hext' & new & Hq' & Hnew).
    split; [done|]. split; [by eapply extends_trans|].
    exists (length (heap st) :: new). split; [by rewrite Hq', Hq1, <- app_assoc|].
    constructor; [|done].
    destruct (Hext' _ _ Hq) as (q' & Hq'' & Ey & _). exists q'. split; [done|congruence].
Qed.

(** The state after [queue.popleft()]. *)
Lemma dequeued_invariant st person rest :
  generation_invariant st -> queue st = person :: rest ->
  generation_invariant (mkState (heap st) (people st) rest (oracle st) (draws st)).
Proof.
  intros [I1 I2 I3 I4 I5 I6 I7] Hq. split; simpl; try done.
  intros r Hr. apply I6. rewrite Hq. by apply elem_of_cons; right.
Qed.

Lemma elder_year_bounds st person p :
  generation_invariant st -> heap st !! person = Some p ->
  (1950 <= elder_year st person)%Z /\
  (year_born p - 10 <= elder_year st person <= year_born p)%Z.
Proof.
  intros I Hp. unfold elder_year. cbv zeta.
  rewrite (list_lookup_total_correct _ _ _ Hp).
  pose proof (inv_years st I _ _ Hp) as Hy.
  destruct (spouse p) as [s|] eqn:Hs; [|lia].
  destruct (inv_spouse st I _ _ _ Hp Hs) as (q & Hq & _ & Hage).
  rewrite (list_lookup_total_correct _ _ _ Hq).
  pose proof (inv_years st I _ _ Hq). lia.
Qed.

Lemma kept_years_range elder count y :
  (1950 <= elder <= 2129)%Z -> y ∈ kept_years elder count ->
  (elder + 25 <= y <= elder + 45)%Z /\ (1975 <= y <= cutoff)%Z.
Proof.
  intros He Hy. unfold kept_years in Hy. apply list_elem_of_filter in Hy as [Hcut Hy].
  apply distribute_in_range in Hy; lia.
Qed.

(** One expansion keeps the invariant; the queue loses its head and gains
    the new children, born in exactly the kept years of the window. *)
Lemma expanded_invariant bound person rest st st' :
  generation_invariant st -> queue st = person :: rest ->
  expanded bound person (mkState (heap st) (people st) rest (oracle st) (draws st)) st' ->
  generation_invariant st' /\ extends st st' /\
  exists elder count new,
    (count <= bound)%Z /\
    (1950 <= elder)%Z /\
    (year_born (heap st !!! person) - 10 <= elder <= year_born (heap st !!! person))%Z /\
    queue st' = rest ++ new /\
    Forall2 (fun c y => exists q, heap st' !! c = Some q /\ year_born q = y)
            new (kept_years elder count).
Proof.
  intros I Hq (st1 & count & Hm & Hcount & Hadd).
  pose proof (dequeued_invariant st person rest I Hq) as I0.
  assert (Hvalid : (person < length (heap st))%nat).
  { apply invariant_valid; [done|]. rewrite Hq. apply list_elem_of_here. }
  destruct (lookup_lt_is_Some_2 _ _ Hvalid) as [p Hp].
  destruct (married_invariant person _ st1 I0 Hvalid Hm) as (I1 & Hext1 & Hq1).
  simpl in Hq1.
  destruct (Hext1 _ _ Hp) as (p1 & Hp1 & Ey1 & _).
  destruct (elder_year_bounds st1 person p1 I1 Hp1) as [He1 He2].
  pose proof (inv_years st1 I1 _ _ Hp1) as Hy1.
  assert (Hyears : Forall (fun y => (1975 <= y <= cutoff)%Z)
                          (kept_years (elder_year st1 person) count)).
  { apply Forall_forall. intros y Hy. apply kept_years_range in Hy; [tauto|lia]. }
  destruct (children_added_invariant person _ st1 st' I1
              ltac:(apply lookup_lt_Some in Hp1; done) Hyears Hadd)
    as (I' & Hext' & new & Hq' & Hnew).
  split; [done|]. split.
  { intros r p0 Hr. eapply extends_trans; [exact Hext1|exact Hext'|exact Hr]. }
  exists (elder_year st1 person), count, new.
  rewrite (list_lookup_total_correct _ _ _ Hp), <- Ey1.
  repeat split; try done; try lia. by rewrite Hq', Hq1.
Qed.

(** ** The founders, and the states the loop reaches *)

Lemma founders_invariant d1 d2 oracle draws :
  generation_invariant
    (mkState [mkPerson 1950 d1 "Desmond" "Jones" (Some 1%nat) [];
              mkPerson 1950 d2 "Molly" "Smith" (Some 0%nat) []]
             [0%nat; 1%nat] [0%nat] oracle draws).
Proof.
  split; simpl.
  - done.
  - eexists _, _. repeat split; reflexivity.
  - intros [|[|r]] p Hr; simplify_eq/=; lia.
  - intros [|[|r]] p s Hr Hs; simplify_eq/=; eexists; (split; [reflexivity|]); simpl;
      split; (done || lia).
  - intros [|[|r]] p c Hr Hc; simplify_eq/=; by apply elem_of_nil in Hc.
  - intros r Hr. apply list_elem_of_singleton in Hr as ->. eexists. split; [reflexivity|].
    simpl. unfold cutoff. lia.
  - intros [|[|r]] p Hr; simplify_eq/=; left; lia.
Qed.

Lemma init_roots_invariant factory oracle st :
  FamilyTree.init_roots factory (FamilyTree.empty_state oracle) = Ok tt st ->
  generation_invariant st /\ queue st = [0%nat].
Proof.
  unfold FamilyTree.init_roots, FamilyTree.determine_year_died. intros Hi.
  inv_bind Hi as d1 st1 E1. inv_bind E1 as le1 st2 E2. apply dict_index_Ok in E2 as [_ ->].
  inv_bind E1 as v1 st3 E3. apply randint_Ok in E3 as [_ ->]. ok_inv E1.
  inv_bind Hi as r1 st4 E4. ok_inv E4.
  inv_bind Hi as d2 st5 E5. inv_bind E5 as le2 st6 E6. apply dict_index_Ok in E6 as [_ ->].
  inv_bind E5 as v2 st7 E7. apply randint_Ok in E7 as [_ ->]. ok_inv E5.
  inv_bind Hi as r2 st8 E8. ok_inv E8.
  inv_bind Hi as u1 st9 E9. ok_inv E9.
  inv_bind Hi as u2 st10 E10. ok_inv E10.
  inv_bind Hi as u3 st11 E11. ok_inv E11.
  inv_bind Hi as u4 st12 E12. ok_inv E12.
  ok_inv Hi. split; [apply founders_invariant|done].
Qed.

Lemma create_founders_invariant factory oracle st :
  FamilyTreeAI._create_founders factory (FamilyTreeAI.empty_state oracle) = Ok tt st ->
  generation_invariant st /\ queue st = [0%nat].
Proof.
  unfold FamilyTreeAI._create_founders. intros Hi.
  inv_bind Hi as v1 st3 E3. apply randint_Ok in E3 as [_ ->].
  inv_bind Hi as r1 st4 E4. ok_inv E4.
  inv_bind Hi as v2 st7 E7. apply randint_Ok in E7 as [_ ->].
  inv_bind Hi as r2 st8 E8. ok_inv E8.
  inv_bind Hi as u1 st9 E9. ok_inv E9.
  inv_bind Hi as u2 st10 E10. ok_inv E10.
  inv_bind Hi as u3 st11 E11. ok_inv E11.
  inv_bind Hi as u4 st12 E12. ok_inv E12.
  ok_inv Hi. split; [apply founders_invariant|done].
Qed.

(** The founders are always created: [_create_founders] cannot raise. *)
Lemma create_founders_total factory oracle :
  exists st, FamilyTreeAI._create_founders factory (FamilyTreeAI.empty_state oracle)
             = Ok tt st.
Proof. eexists. reflexivity. Qed.

(** ** The loop: invariant and termination *)

Lemma weight_pos bound year : (0 <= bound)%Z -> (year <= 2121)%Z -> (1 <= weight bound year)%Z.
Proof.
  intros Hb Hy. unfold weight.
  pose proof (Z.pow_pos_nonneg (bound + 1) (2121 - year)). lia.
Qed.

Lemma weight_nonneg bound year : (0 <= bound)%Z -> (0 <= weight bound year)%Z.
Proof. intros Hb. unfold weight. apply Z.pow_nonneg. lia. Qed.

Lemma weight_mono bound y y' :
  (0 <= bound)%Z -> (y <= y')%Z -> (weight bound y' <= weight bound y)%Z.
Proof. intros Hb Hy. unfold weight. apply Z.pow_le_mono_r; lia. Qed.

Lemma weight_succ bound year :
  (0 <= bound)%Z -> (year <= 2120)%Z ->
  weight bound year = ((bound + 1) * weight bound (year + 1))%Z.
Proof.
  intros Hb Hy. unfold weight.
  replace (2121 - year)%Z with (Z.succ (2121 - (year + 1))) by lia.
  apply Z.pow_succ_r. lia.
Qed.

Lemma refs_weight_app bound h l1 l2 :
  refs_weight bound h (l1 ++ l2) = (refs_weight bound h l1 + refs_weight bound h l2)%Z.
Proof. induction l1 as [|r l1 IH]; simpl; [done|]. rewrite IH. lia. Qed.

Lemma refs_weight_extends bound st st' refs :
  extends st st' -> (forall r, r ∈ refs -> is_Some (heap st !! r)) ->
  refs_weight bound (heap st') refs = refs_weight bound (heap st) refs.
Proof.
  intros Hext. induction refs as [|r refs IH]; intros Hv; simpl; [done|].
  rewrite IH by (intros; apply Hv; by apply elem_of_cons; right).
  destruct (Hv r (list_elem_of_here _ _)) as [p Hp].
  destruct (Hext _ _ Hp) as (p' & Hp' & Ey & _).
  by rewrite (list_lookup_total_correct _ _ _ Hp), (list_lookup_total_correct _ _ _ Hp'), Ey.
Qed.

Lemma refs_weight_new bound h new years low :
  (0 <= bound)%Z ->
  Forall2 (fun c y => exists q, h !! c = Some q /\ year_born q = y) new years ->
  Forall (fun y => (low <= y)%Z) years ->
  (refs_weight bound h new <= Z.of_nat (length years) * weight bound low)%Z.
Proof.
  intros Hb H2. induction H2 as [|c y new years (q & Hq & Hy) _ IH]; intros Hlow.
  - simpl. lia.
  - apply Forall_cons in Hlow as [Hl Hlow]. specialize (IH Hlow).
    cbn [refs_weight foldr length]. fold (refs_weight bound h new).
    rewrite (list_lookup_total_correct _ _ _ Hq), Hy.
    pose proof (weight_mono bound low y Hb Hl). lia.
Qed.

Lemma kept_years_length elder count bound :
  (count <= bound)%Z -> (0 <= bound)%Z ->
  (Z.of_nat (length (kept_years elder count)) <= bound)%Z.
Proof.
  intros Hc Hb. unfold kept_years.
  pose proof (length_filter (fun y => (y <= cutoff)%Z)
                (FamilyTree.distribute_birth_years (elder + 25) (elder + 45) count)) as Hf.
  rewrite distribute_length in Hf. lia.
Qed.

Lemma expanded_weight bound person rest st st' :
  (0 <= bound)%Z ->
  generation_invariant st -> queue st = person :: rest ->
  expanded bound person (dequeued st rest) st' ->
  (queue_weight bound st' <= queue_weight bound st - 1)%Z.
Proof.
  intros Hb I Hq He.
  destruct (expanded_invariant bound person rest st st' I Hq He)
    as (I' & Hext & elder & count & new & Hcount & He0 & He1 & Hq' & Hnew).
  destruct (inv_queue st I person) as (p & Hp & Hy).
  { rewrite Hq. apply list_elem_of_here. }
  rewrite (list_lookup_total_correct _ _ _ Hp) in He1.
  unfold queue_weight. rewrite Hq', Hq, refs_weight_app.
  cbn [refs_weight foldr]. fold (refs_weight bound (heap st) rest).
  rewrite (list_lookup_total_correct _ _ _ Hp).
  rewrite (refs_weight_extends bound st st' rest Hext).
  2: { intros r Hr. destruct (inv_queue st I r) as (q & Hq0 & _); [|eauto].
       rewrite Hq. by apply elem_of_cons; right. }
  assert (Hlow : Forall (fun y => (year_born p + 1 <= y)%Z) (kept_years elder count)).
  { apply Forall_forall. intros y Hin.
    apply kept_years_range in Hin; [lia|]. pose proof (inv_years st I _ _ Hp). lia. }
  pose proof (refs_weight_new bound (heap st') new _ _ Hb Hnew Hlow) as Hw.
  pose proof (kept_years_length elder count bound Hcount Hb) as Hlen.
  unfold cutoff in Hy.
  pose proof (weight_succ bound (year_born p) Hb Hy) as Hs.
  pose proof (weight_pos bound (year_born p + 1) Hb ltac:(lia)) as Hpos.
  nia.
Qed.

Lemma queue_weight_nonneg bound st : (0 <= bound)%Z -> (0 <= queue_weight bound st)%Z.
Proof.
  intros Hb. unfold queue_weight. induction (queue st) as [|r l IH]; simpl; [lia|].
  pose proof (weight_nonneg bound (year_born (heap st !!! r)) Hb). lia.
Qed.

Section Loop.
Variables (step : ref -> M unit) (bound : Z).
Hypothesis bound_nonneg : (0 <= bound)%Z.
Hypothesis step_expanded : forall person rest st st',
  generation_invariant st -> queue st = person :: rest ->
  step person (dequeued st rest) = Ok tt st' ->
  expanded bound person (dequeued st rest) st'.
Hypothesis step_finishes : forall person st, step person st <> OutOfFuel.

Lemma pop_then_step person rest st st' :
  (set_queue rest >> step person) st = Ok tt st' <->
  step person (dequeued st rest) = Ok tt st'.
Proof. unfold bind, set_queue. reflexivity. Qed.

Lemma reached_invariant init st :
  generation_invariant init -> reached step init st -> generation_invariant st.
Proof.
  intros I0 Hr. induction Hr as [|st person rest st' _ IH Hq Hs]; [done|].
  apply pop_then_step in Hs.
  by destruct (expanded_invariant bound person rest st st' IH Hq
                 (step_expanded _ _ _ _ IH Hq Hs)).
Qed.

Lemma reached_trans init st st' :
  reached step init st -> reached step st st' -> reached step init st'.
Proof.
  intros H1 H2. induction H2 as [|st1 person rest st2 _ IH Hq Hs]; [done|].
  by eapply reached_step.
Qed.

(** A finished loop ends in a reached state with an empty queue. *)
Lemma run_loop_reached fuel st st' :
  run_loop step fuel st = Ok tt st' -> reached step st st' /\ queue st' = [].
Proof.
  revert st. induction fuel as [|fuel IH]; intros st Hrun.
  - simpl in Hrun. destruct (queue st) eqn:Hq; [|done].
    injection Hrun as <-. split; [constructor|done].
  - simpl in Hrun. destruct (queue st) as [|person rest] eqn:Hq.
    + injection Hrun as <-. split; [constructor|done].
    + unfold bind at 1 in Hrun. cbn [set_queue] in Hrun.
      unfold bind at 1 in Hrun.
      destruct (step person _) as [[] st1| |] eqn:Hs; [|done|done].
      destruct (IH _ Hrun) as [Hr He]. split; [|done].
      eapply reached_trans; [|exact Hr].
      eapply reached_step; [constructor|exact Hq|]. by apply pop_then_step.
Qed.

(** Fuel beyond the weight of the queue is never used up. *)
Lemma run_loop_terminates fuel st :
  generation_invariant st -> (queue_weight bound st <= Z.of_nat fuel)%Z ->
  run_loop step fuel st <> OutOfFuel.
Proof.
  revert st. induction fuel as [|fuel IH]; intros st I Hw.
  - simpl. destruct (queue st) as [|person rest] eqn:Hq; [done|].
    exfalso. destruct (inv_queue st I person) as (p & Hp & Hy).
    { rewrite Hq. apply list_elem_of_here. }
    unfold queue_weight in Hw. rewrite Hq in Hw. cbn [refs_weight foldr] in Hw.
    fold (refs_weight bound (heap st) rest) in Hw.
    rewrite (list_lookup_total_correct _ _ _ Hp) in Hw.
    pose proof (weight_pos bound (year_born p) bound_nonneg
                  ltac:(unfold cutoff in Hy; lia)).
    pose proof (queue_weight_nonneg bound (dequeued st rest) bound_nonneg) as Hn.
    unfold queue_weight in Hn. simpl in Hn. lia.
  - simpl. destruct (queue st) as [|person rest] eqn:Hq; [done|].
    unfold bind at 1. cbn [set_queue]. unfold bind at 1.
    destruct (step person _) as [[] st1| |] eqn:Hs; [|done|by apply step_finishes in Hs].
    pose proof (step_expanded _ _ _ _ I Hq Hs) as He.
    destruct (expanded_invariant bound person rest st st1 I Hq He) as (I1 & _).
    pose proof (expanded_weight bound person rest st st1 bound_nonneg I Hq He).
    apply IH; [done|lia].
Qed.

End Loop.

(** ** The two engines *)

Create HintDb finishes.

Lemma finishes_ret {A} (a : A) : finishes (ret a).
Proof. done. Qed.

Lemma finishes_raise {A} e : finishes (@raise A e).
Proof. done. Qed.

Lemma finishes_bind {A B} (m : M A) (k : A -> M B) :
  finishes m -> (forall a, finishes (k a)) -> finishes (bind m k).
Proof.
  intros Hm Hk st. unfold bind. specialize (Hm st).
  destruct (m st) as [a st'| |]; [apply Hk|done|done].
Qed.

Lemma finishes_read {A} r (f : Person -> A) : finishes (read r f).
Proof. done. Qed.

Lemma finishes_update r f : finishes (update r f).
Proof. done. Qed.

Lemma finishes_alloc p : finishes (alloc p).
Proof. done. Qed.

Lemma finishes_people_append r : finishes (people_append r).
Proof. done. Qed.

Lemma finishes_queue_append r : finishes (queue_append r).
Proof. done. Qed.

Lemma finishes_dict_index {K V} `{Countable K} (d : gmap K V) key :
  finishes (dict_index d key).
Proof. intros st. unfold dict_index. by destruct (d !! key). Qed.

Lemma finishes_next : finishes random.next.
Proof. done. Qed.

Lemma finishes_random : finishes random.random.
Proof. done. Qed.

Lemma finishes_randint a b : finishes (random.randint a b).
Proof. intros st. unfold random.randint. by destruct (b <? a)%Z. Qed.

Lemma finishes_choice {A} `{Inhabited A} (seq : list A) : finishes (random.choice seq).
Proof. intros st. by destruct seq. Qed.

Lemma finishes_choices population weights : finishes (random.choices population weights).
Proof.
  intros st. unfold random.choices. destruct (negb _); [done|].
  destruct (last _); [|done]. destruct (Qle_bool _ _); [done|].
  by destruct (negb _).
Qed.

Lemma finishes_for_each {A} (xs : list A) (body : A -> M unit) :
  (forall x, finishes (body x)) -> finishes (for_each xs body).
Proof.
  intros Hb. induction xs as [|x xs IH]; simpl; [done|].
  apply finishes_bind; auto.
Qed.

#[export] Hint Resolve finishes_ret finishes_raise finishes_read finishes_update
  finishes_alloc finishes_people_append finishes_queue_append finishes_dict_index
  finishes_next finishes_random finishes_randint finishes_choice finishes_choices : finishes.

(** Proves [finishes] of a computation built from the primitives. *)
Ltac finishes_tac :=
  repeat first
    [ progress intros
    | progress cbv zeta
    | solve [auto with finishes]
    | apply finishes_bind
    | apply finishes_for_each
    | match goal with
      | |- finishes (match ?x with _ => _ end) => destruct x
      | |- finishes (if ?b then _ else _) => destruct b
      end ].

Lemma finishes_get_person factory year : finishes (PersonFactory.get_person factory year).
Proof.
  unfold PersonFactory.get_person, PersonFactory.weighted_choice. finishes_tac.
Qed.

Lemma finishes_get_person_ai factory year override :
  finishes (PersonFactoryAI.get_person factory year override).
Proof.
  unfold PersonFactoryAI.get_person, PersonFactoryAI._weighted_pick. finishes_tac.
Qed.

#[export] Hint Resolve finishes_get_person finishes_get_person_ai : finishes.

Lemma finishes_expand factory person : finishes (FamilyTree.expand factory person).
Proof.
  unfold FamilyTree.expand, FamilyTree.marriage_step, FamilyTree.children_step,
    FamilyTree.add_child_for_year. finishes_tac.
Qed.

Lemma finishes_expand_ai factory person : finishes (FamilyTreeAI.expand factory person).
Proof.
  unfold FamilyTreeAI.expand, FamilyTreeAI.marriage_step, FamilyTreeAI.children_step,
    FamilyTreeAI.add_child_for_year. finishes_tac.
Qed.

Lemma generate_family_tree_loop factory fuel st :
  FamilyTree.generate_family_tree factory fuel st
  = run_loop (FamilyTree.expand factory) fuel st.
Proof.
  revert st. induction fuel as [|fuel IH]; intros st; simpl; [done|].
  destruct (queue st) as [|person rest]; [done|].
  unfold bind, set_queue. destruct (FamilyTree.expand _ _ _); [apply IH|done|done].
Qed.

Lemma expand_tree_loop factory fuel st :
  FamilyTreeAI._expand_tree factory fuel st
  = run_loop (FamilyTreeAI.expand factory) fuel st.
Proof.
  revert st. induction fuel as [|fuel IH]; intros st; simpl; [done|].
  destruct (queue st) as [|person rest]; [done|].
  unfold bind, set_queue. destruct (FamilyTreeAI.expand _ _ _); [apply IH|done|done].
Qed.

Lemma children_bound_nonneg factory : (0 <= children_bound factory)%Z.
Proof. apply max_over_years_nonneg. Qed.

Lemma children_bound_ai_nonneg factory : (0 <= children_bound_ai factory)%Z.
Proof. apply max_over_years_nonneg. Qed.

Lemma step_expanded_human factory person rest st st' :
  generation_invariant st -> queue st = person :: rest ->
  FamilyTree.expand factory person (dequeued st rest) = Ok tt st' ->
  expanded (children_bound factory) person (dequeued st rest) st'.
Proof.
  intros I Hq. apply expand_expanded. simpl.
  destruct (inv_queue st I person) as (p & Hp & _); [rewrite Hq; apply list_elem_of_here|].
  rewrite (list_lookup_total_correct _ _ _ Hp). by eapply inv_years.
Qed.

Lemma step_expanded_ai factory person rest st st' :
  generation_invariant st -> queue st = person :: rest ->
  FamilyTreeAI.expand factory person (dequeued st rest) = Ok tt st' ->
  expanded (children_bound_ai factory) person (dequeued st rest) st'.
Proof.
  intros I Hq. apply expand_ai_expanded. simpl.
  destruct (inv_queue st I person) as (p & Hp & _); [rewrite Hq; apply list_elem_of_here|].
  rewrite (list_lookup_total_correct _ _ _ Hp). by eapply inv_years.
Qed.

(** ** The claims about a generated tree *)

Lemma invariant_registered st r :
  generation_invariant st -> r ∈ people st <-> is_Some (heap st !! r).
Proof.
  intros I. rewrite (inv_people st I), elem_of_seq, lookup_lt_is_Some. lia.
Qed.

Lemma invariant_symmetric st : generation_invariant st -> spouse_symmetric st.
Proof.
  intros I r s Hr Hs. apply (invariant_registered st r I) in Hr as [p Hp].
  rewrite (list_lookup_total_correct _ _ _ Hp) in Hs.
  destruct (inv_spouse st I _ _ _ Hp Hs) as (q & Hq & Hqs & _).
  rewrite (list_lookup_total_correct _ _ _ Hq). split; [done|].
  apply invariant_registered; eauto.
Qed.

Lemma invariant_is_child st r :
  generation_invariant st -> is_child st r ->
  exists q, heap st !! r = Some q /\ (2 <= r)%nat /\
            (1975 <= year_born q <= cutoff)%Z /\ last_name q ∈ founder_surnames.
Proof.
  intros I (parent & Hparent & Hin).
  apply (invariant_registered st parent I) in Hparent as [p Hp].
  rewrite (list_lookup_total_correct _ _ _ Hp) in Hin.
  by eapply inv_children.
Qed.

Lemma invariant_origin st r :
  generation_invariant st -> r ∈ people st ->
  is_founder r \/ is_child st r \/ is_Some (spouse (heap st !!! r)).
Proof.
  intros I Hr. apply (invariant_registered st r I) in Hr as [p Hp].
  rewrite (list_lookup_total_correct _ _ _ Hp).
  destruct (inv_origin st I _ _ Hp) as [?|[?|(r' & p' & Hr' & Hin)]]; [by left|by right; right|].
  right. left. exists r'. split; [apply invariant_registered; eauto|].
  by rewrite (list_lookup_total_correct _ _ _ Hr').
Qed.

(** Every finished run of either engine ends in a state that satisfies the
    invariant, with an empty queue. *)
Lemma run_invariant factory fuel oracle st :
  FamilyTree.run factory fuel oracle = Ok tt st ->
  generation_invariant st /\ queue st = [].
Proof.
  unfold FamilyTree.run. intros Hrun. inv_bind Hrun as u st0 E0. destruct u.
  apply init_roots_invariant in E0 as [I0 _].
  rewrite generate_family_tree_loop in Hrun.
  apply run_loop_reached in Hrun as [Hr Hq]. split; [|done].
  eapply (reached_invariant _ (children_bound factory)); [|done|exact Hr].
  apply step_expanded_human.
Qed.

Lemma bootstrap_invariant factory fuel oracle st :
  FamilyTreeAI.bootstrap factory fuel oracle = Ok tt st ->
  generation_invariant st /\ queue st = [].
Proof.
  unfold FamilyTreeAI.bootstrap. intros Hrun. inv_bind Hrun as u st0 E0. destruct u.
  apply create_founders_invariant in E0 as [I0 _].
  rewrite expand_tree_loop in Hrun.
  apply run_loop_reached in Hrun as [Hr Hq]. split; [|done].
  eapply (reached_invariant _ (children_bound_ai factory)); [|done|exact Hr].
  apply step_expanded_ai.
Qed.

(** What the invariant gives for every registered person. *)
Lemma invariant_birth_years st r :
  generation_invariant st -> r ∈ people st ->
  (1950 <= year_born (heap st !!! r) <= 2129)%Z /\
  (is_founder r -> year_born (heap st !!! r) = 1950%Z) /\
  (is_child st r ->
     (1975 <= year_born (heap st !!! r) <= cutoff)%Z /\
     last_name (heap st !!! r) ∈ founder_surnames) /\
  (is_founder r \/ is_child st r \/ is_Some (spouse (heap st !!! r))).
Proof.
  intros I Hr. pose proof (invariant_origin st r I Hr) as Horigin.
  apply (invariant_registered st r I) in Hr as [p Hp].
  rewrite (list_lookup_total_correct _ _ _ Hp) in *.
  split; [by eapply inv_years|]. split; [|split; [|done]].
  - intros Hf. destruct (inv_founders st I) as (f1 & f2 & H1 & H2 & Y1 & Y2 & _).
    destruct r as [|[|r]]; [congruence|congruence|unfold is_founder in Hf; lia].
  - intros Hc. destruct (invariant_is_child st r I Hc) as (q & Hq & _ & Hy & Hl).
    assert (q = p) as -> by congruence. done.
Qed.

(** C1, as the code has it: after generation every registered person is
    born in [[1950, 2129]]; the founders are born in 1950 and every
    materialized child in [[1975, 2120]]; whoever is neither founder nor
    child is a spouse made by the marriage step, whose clamped birth year
    may exceed the cutoff. *)
Theorem registry_birth_years :
  (forall factory fuel oracle st r,
     FamilyTree.run factory fuel oracle = Ok tt st -> r ∈ people st ->
     (1950 <= year_born (heap st !!! r) <= 2129)%Z /\
     (is_founder r -> year_born (heap st !!! r) = 1950%Z) /\
     (is_child st r -> (1975 <= year_born (heap st !!! r) <= cutoff)%Z) /\
     (is_founder r \/ is_child st r \/ is_Some (spouse (heap st !!! r)))) /\
  (forall factory fuel oracle st r,
     FamilyTreeAI.bootstrap factory fuel oracle = Ok tt st -> r ∈ people st ->
     (1950 <= year_born (heap st !!! r) <= 2129)%Z /\
     (is_founder r -> year_born (heap st !!! r) = 1950%Z) /\
     (is_child st r -> (1975 <= year_born (heap st !!! r) <= cutoff)%Z) /\
     (is_founder r \/ is_child st r \/ is_Some (spouse (heap st !!! r)))).
Proof.
  split; intros factory fuel oracle st r Hrun Hr.
  - apply run_invariant in Hrun as [I _].
    destruct (invariant_birth_years st r I Hr) as (H1 & H2 & H3 & H4).
    repeat split; try done; try tauto; by apply H3.
  - apply bootstrap_invariant in Hrun as [I _].
    destruct (invariant_birth_years st r I Hr) as (H1 & H2 & H3 & H4).
    repeat split; try done; try tauto; by apply H3.
Qed.

(** C1 as stated fails: with the default tables and an oracle that always
    answers 41, a person born in 2120 marries a spouse requested for 2130,
    who is registered with the clamped birth year 2129. *)
Lemma registry_birth_year_past_cutoff :
  exists st r,
    FamilyTreeAI.bootstrap no_data 200 (fun _ => 41%N) = Ok tt st /\
    r ∈ people st /\ (2120 < year_born (heap st !!! r))%Z.
Proof.
  eexists _, 105%nat. split; [vm_compute; reflexivity|].
  split; [|by vm_compute]. apply list_elem_of_lookup. exists 105%nat. reflexivity.
Qed.

Lemma registry_birth_years_witness :
  exists st,
    FamilyTreeAI.bootstrap no_data 200 (fun _ => 0%N) = Ok tt st /\
    (1950 <= year_born (heap st !!! 3%nat) <= 2129)%Z.
Proof.
  eexists. split; [vm_compute; reflexivity|].
  refine (proj1 (proj2 registry_birth_years no_data 200%nat (fun _ => 0%N) _ 3%nat _ _)).
  - vm_compute. reflexivity.
  - apply list_elem_of_lookup. exists 3%nat. reflexivity.
Defined.

(** C2, as the code has it: after generation every materialized child
    carries one of the two founder surnames, and every registered person is
    a founder, a child or a spouse made by the marriage step; the last name
    of such a spouse is drawn from the tables. *)
Theorem descendant_surnames :
  (forall factory fuel oracle st r,
     FamilyTree.run factory fuel oracle = Ok tt st -> r ∈ people st ->
     (is_child st r -> last_name (heap st !!! r) ∈ founder_surnames) /\
     (is_founder r \/ is_child st r \/ is_Some (spouse (heap st !!! r)))) /\
  (forall factory fuel oracle st r,
     FamilyTreeAI.bootstrap factory fuel oracle = Ok tt st -> r ∈ people st ->
     (is_child st r -> last_name (heap st !!! r) ∈ founder_surnames) /\
     (is_founder r \/ is_child st r \/ is_Some (spouse (heap st !!! r)))).
Proof.
  split; intros factory fuel oracle st r Hrun Hr.
  - apply run_invariant in Hrun as [I _].
    destruct (invariant_birth_years st r I Hr) as (H1 & H2 & H3 & H4).
    split; [|done]. intros Hc. by apply H3.
  - apply bootstrap_invariant in Hrun as [I _].
    destruct (invariant_birth_years st r I Hr) as (H1 & H2 & H3 & H4).
    split; [|done]. intros Hc. by apply H3.
Qed.

(** C2 as stated fails: the spouse of the founders' child is born in 1975
    and takes the last name the table of the 1970s offers. *)
Lemma spouse_surname_from_table :
  exists st r,
    FamilyTreeAI.bootstrap williams_data 200 (fun _ => 0%N) = Ok tt st /\
    r ∈ people st /\ ~ is_founder r /\
    last_name (heap st !!! r) = "Williams" /\
    ~ last_name (heap st !!! r) ∈ founder_surnames.
Proof.
  eexists _, 3%nat. split; [vm_compute; reflexivity|].
  split; [apply list_elem_of_lookup; exists 3%nat; reflexivity|].
  split; [unfold is_founder; lia|]. split; [reflexivity|].
  change (last_name _) with "Williams". unfold founder_surnames.
  intros H. apply elem_of_cons in H as [H|H]; [done|].
  apply elem_of_cons in H as [H|H]; [done|]. by apply elem_of_nil in H.
Qed.

Lemma descendant_surnames_witness :
  exists st,
    FamilyTreeAI.bootstrap williams_data 200 (fun _ => 0%N) = Ok tt st /\
    (is_child st 2%nat -> last_name (heap st !!! 2%nat) ∈ founder_surnames).
Proof.
  eexists. split; [vm_compute; reflexivity|].
  refine (proj1 (proj2 descendant_surnames williams_data 200%nat (fun _ => 0%N) _ 2%nat _ _)).
  - vm_compute. reflexivity.
  - apply list_elem_of_lookup. exists 2%nat. reflexivity.
Defined.

(** C9: the spouse relation is symmetric in the state the founders are
    created in, in every state the loop reaches and in every final state;
    the marriage step and the materialization of a child keep the
    invariant it follows from. *)
Theorem spouse_relation_symmetric :
  (forall st, generation_invariant st -> spouse_symmetric st) /\
  (forall factory oracle st0 st,
     FamilyTree.init_roots factory (FamilyTree.empty_state oracle) = Ok tt st0 ->
     reached (FamilyTree.expand factory) st0 st -> spouse_symmetric st) /\
  (forall factory oracle st0 st,
     FamilyTreeAI._create_founders factory (FamilyTreeAI.empty_state oracle) = Ok tt st0 ->
     reached (FamilyTreeAI.expand factory) st0 st -> spouse_symmetric st) /\
  (forall factory fuel oracle st,
     FamilyTree.run factory fuel oracle = Ok tt st -> spouse_symmetric st) /\
  (forall factory fuel oracle st,
     FamilyTreeAI.bootstrap factory fuel oracle = Ok tt st -> spouse_symmetric st) /\
  (forall person st st',
     generation_invariant st -> (person < length (heap st))%nat ->
     married person st st' -> generation_invariant st') /\
  (forall person year st st',
     generation_invariant st -> (person < length (heap st))%nat ->
     (1975 <= year <= cutoff)%Z ->
     child_added person year st st' -> generation_invariant st') /\
  (forall factory person decade st st',
     FamilyTree.marriage_step factory person decade st = Ok tt st' ->
     married person st st') /\
  (forall factory person decade st st',
     FamilyTreeAI.marriage_step factory person decade st = Ok tt st' ->
     married person st st') /\
  (forall factory person year st st',
     FamilyTree.add_child_for_year factory person year st = Ok tt st' ->
     child_added person year st st') /\
  (forall factory person year st st',
     FamilyTreeAI.add_child_for_year factory person year st = Ok tt st' ->
     child_added person year st st').
Proof.
  split; [apply invariant_symmetric|].
  split.
  { intros factory oracle st0 st Hi Hr. apply invariant_symmetric.
    apply init_roots_invariant in Hi as [I0 _].
    eapply (reached_invariant _ (children_bound factory)); [|done|exact Hr].
    apply step_expanded_human. }
  split.
  { intros factory oracle st0 st Hi Hr. apply invariant_symmetric.
    apply create_founders_invariant in Hi as [I0 _].
    eapply (reached_invariant _ (children_bound_ai factory)); [|done|exact Hr].
    apply step_expanded_ai. }
  split.
  { intros factory fuel oracle st Hrun. apply invariant_symmetric.
    by apply run_invariant in Hrun as [I _]. }
  split.
  { intros factory fuel oracle st Hrun. apply invariant_symmetric.
    by apply bootstrap_invariant in Hrun as [I _]. }
  split.
  { intros person st st' I Hv Hm. by destruct (married_invariant person st st' I Hv Hm). }
  split.
  { intros person year st st' I Hv Hy Hc.
    by destruct (child_added_invariant person year st st' I Hv Hy Hc). }
  split; [apply marriage_step_married|].
  split; [apply marriage_step_ai_married|].
  split; [apply add_child_for_year_added|apply add_child_for_year_ai_added].
Qed.

Lemma spouse_relation_symmetric_witness :
  exists st,
    FamilyTreeAI.bootstrap no_data 200 (fun _ => 0%N) = Ok tt st /\ spouse_symmetric st.
Proof.
  eexists. split; [vm_compute; reflexivity|].
  refine (proj1 (proj2 (proj2 (proj2 (proj2 spouse_relation_symmetric))))
            no_data 200%nat (fun _ => 0%N) _ _).
  vm_compute. reflexivity.
Defined.

(** The children one expansion enqueues: born in exactly the kept years of
    the window of the elder parent, all later than the expanded person. *)
Lemma expanded_children bound person rest st st' :
  generation_invariant st -> queue st = person :: rest ->
  expanded bound person (dequeued st rest) st' ->
  exists elder count new,
    (1950 <= elder <= year_born (heap st !!! person))%Z /\
    queue st' = rest ++ new /\
    map (fun c => year_born (heap st' !!! c)) new = kept_years elder count /\
    Forall (fun y => (elder + 25 <= y <= elder + 45)%Z /\ (1975 <= y <= cutoff)%Z /\
                     (year_born (heap st !!! person) < y)%Z /\ clamp y = y)
           (kept_years elder count).
Proof.
  intros I Hq He.
  destruct (expanded_invariant bound person rest st st' I Hq He)
    as (I' & Hext & elder & count & new & Hcount & He0 & He1 & Hq' & Hnew).
  destruct (inv_queue st I person) as (p & Hp & Hy).
  { rewrite Hq. apply list_elem_of_here. }
  pose proof (inv_years st I _ _ Hp) as Hyp.
  rewrite (list_lookup_total_correct _ _ _ Hp) in *.
  exists elder, count, new. split; [lia|]. split; [done|]. split.
  - clear -Hnew. induction Hnew as [|c y new years (q & Hq & Hy) _ IH]; [done|].
    simpl. rewrite IH. by rewrite (list_lookup_total_correct _ _ _ Hq), Hy.
  - apply Forall_forall. intros y Hin.
    apply kept_years_range in Hin as [H1 H2]; [|lia].
    repeat split; try lia. apply clamp_id. unfold cutoff in *. lia.
Qed.

Lemma finishes_init_roots factory : finishes (FamilyTree.init_roots factory).
Proof. unfold FamilyTree.init_roots, FamilyTree.determine_year_died. finishes_tac. Qed.

Lemma finishes_create_founders factory : finishes (FamilyTreeAI._create_founders factory).
Proof. unfold FamilyTreeAI._create_founders. finishes_tac. Qed.

Lemma run_terminates factory fuel oracle :
  (weight (children_bound factory) 1950 <= Z.of_nat fuel)%Z ->
  FamilyTree.run factory fuel oracle <> OutOfFuel.
Proof.
  intros Hf. unfold FamilyTree.run, bind.
  destruct (FamilyTree.init_roots factory _) as [[] st0| |] eqn:Hi; [|done|].
  - pose proof Hi as Hi'. apply init_roots_invariant in Hi' as [I0 Hq0].
    rewrite generate_family_tree_loop.
    apply (run_loop_terminates _ (children_bound factory)); try done.
    + apply children_bound_nonneg.
    + apply step_expanded_human.
    + apply finishes_expand.
    + unfold queue_weight. rewrite Hq0. cbn [refs_weight foldr].
      destruct (inv_founders st0 I0) as (f1 & f2 & H1 & _ & Y1 & _).
      rewrite (list_lookup_total_correct _ _ _ H1), Y1. lia.
  - by apply finishes_init_roots in Hi.
Qed.

Lemma bootstrap_terminates factory fuel oracle :
  (weight (children_bound_ai factory) 1950 <= Z.of_nat fuel)%Z ->
  FamilyTreeAI.bootstrap factory fuel oracle <> OutOfFuel.
Proof.
  intros Hf. unfold FamilyTreeAI.bootstrap, bind.
  destruct (FamilyTreeAI._create_founders factory _) as [[] st0| |] eqn:Hi; [|done|].
  - pose proof Hi as Hi'. apply create_founders_invariant in Hi' as [I0 Hq0].
    rewrite expand_tree_loop.
    apply (run_loop_terminates _ (children_bound_ai factory)); try done.
    + apply children_bound_ai_nonneg.
    + apply step_expanded_ai.
    + apply finishes_expand_ai.
    + unfold queue_weight. rewrite Hq0. cbn [refs_weight foldr].
      destruct (inv_founders st0 I0) as (f1 & f2 & H1 & _ & Y1 & _).
      rewrite (list_lookup_total_correct _ _ _ H1), Y1. lia.
  - by apply finishes_create_founders in Hi.
Qed.

(** C7: for every set of tables there is an amount of fuel that no oracle
    uses up, so the loop always comes to an end, and a run that ends
    without an exception ends with an empty queue; every child an
    expansion enqueues is born at least 25 years after the elder parent
    and strictly after the expanded person, and at most in 2120. *)
Theorem generation_terminates :
  (forall factory, exists fuel0, forall fuel oracle, (fuel0 <= fuel)%nat ->
     FamilyTree.run factory fuel oracle <> OutOfFuel /\
     (forall st, FamilyTree.run factory fuel oracle = Ok tt st -> queue st = [])) /\
  (forall factory, exists fuel0, forall fuel oracle, (fuel0 <= fuel)%nat ->
     FamilyTreeAI.bootstrap factory fuel oracle <> OutOfFuel /\
     (forall st, FamilyTreeAI.bootstrap factory fuel oracle = Ok tt st -> queue st = [])) /\
  (forall factory oracle st0 st person rest st',
     FamilyTree.init_roots factory (FamilyTree.empty_state oracle) = Ok tt st0 ->
     reached (FamilyTree.expand factory) st0 st ->
     queue st = person :: rest ->
     FamilyTree.expand factory person (dequeued st rest) = Ok tt st' ->
     exists elder new,
       (elder <= year_born (heap st !!! person))%Z /\
       queue st' = rest ++ new /\
       forall c, c ∈ new ->
         (elder + 25 <= year_born (heap st' !!! c) <= cutoff)%Z /\
         (year_born (heap st !!! person) < year_born (heap st' !!! c))%Z) /\
  (forall factory oracle st0 st person rest st',
     FamilyTreeAI._create_founders factory (FamilyTreeAI.empty_state oracle) = Ok tt st0 ->
     reached (FamilyTreeAI.expand factory) st0 st ->
     queue st = person :: rest ->
     FamilyTreeAI.expand factory person (dequeued st rest) = Ok tt st' ->
     exists elder new,
       (elder <= year_born (heap st !!! person))%Z /\
       queue st' = rest ++ new /\
       forall c, c ∈ new ->
         (elder + 25 <= year_born (heap st' !!! c) <= cutoff)%Z /\
         (year_born (heap st !!! person) < year_born (heap st' !!! c))%Z).
Proof.
  assert (Hnew : forall bound person rest st st',
    generation_invariant st -> queue st = person :: rest ->
    expanded bound person (dequeued st rest) st' ->
    exists elder new,
      (elder <= year_born (heap st !!! person))%Z /\
      queue st' = rest ++ new /\
      forall c, c ∈ new ->
        (elder + 25 <= year_born (heap st' !!! c) <= cutoff)%Z /\
        (year_born (heap st !!! person) < year_born (heap st' !!! c))%Z).
  { intros bound person rest st st' I Hq He.
    destruct (expanded_children bound person rest st st' I Hq He)
      as (elder & count & new & Helder & Hq' & Hmap & Hall).
    exists elder, new. split; [lia|]. split; [done|]. intros c Hc.
    assert (Hy : year_born (heap st' !!! c) ∈ kept_years elder count).
    { rewrite <- Hmap. apply list_elem_of_fmap. eauto. }
    pose proof (proj1 (Forall_forall _ _) Hall _ Hy) as (H1 & H2 & H3 & _). lia. }
  split; [|split; [|split]].
  - intros factory. exists (Z.to_nat (weight (children_bound factory) 1950)).
    intros fuel oracle Hf. split.
    + apply run_terminates. lia.
    + intros st Hrun. by apply run_invariant in Hrun as [_ ?].
  - intros factory. exists (Z.to_nat (weight (children_bound_ai factory) 1950)).
    intros fuel oracle Hf. split.
    + apply bootstrap_terminates. lia.
    + intros st Hrun. by apply bootstrap_invariant in Hrun as [_ ?].
  - intros factory oracle st0 st person rest st' Hi Hr Hq He.
    apply init_roots_invariant in Hi as [I0 _].
    assert (I : generation_invariant st).
    { eapply (reached_invariant _ (children_bound factory)); [|done|exact Hr].
      apply step_expanded_human. }
    eapply Hnew; [done|done|]. by apply step_expanded_human.
  - intros factory oracle st0 st person rest st' Hi Hr Hq He.
    apply create_founders_invariant in Hi as [I0 _].
    assert (I : generation_invariant st).
    { eapply (reached_invariant _ (children_bound_ai factory)); [|done|exact Hr].
      apply step_expanded_ai. }
    eapply Hnew; [done|done|]. by apply step_expanded_ai.
Qed.

Lemma generation_terminates_witness :
  exists st0 st',
    FamilyTreeAI._create_founders no_data (FamilyTreeAI.empty_state (fun _ => 0%N))
      = Ok tt st0 /\
    FamilyTreeAI.expand no_data 0%nat (dequeued st0 []) = Ok tt st' /\
    exists elder new,
      (elder <= year_born (heap st0 !!! 0%nat))%Z /\
      queue st' = [] ++ new /\
      forall c, c ∈ new ->
        (elder + 25 <= year_born (heap st' !!! c) <= cutoff)%Z /\
        (year_born (heap st0 !!! 0%nat) < year_born (heap st' !!! c))%Z.
Proof.
  eexists _, _. split; [vm_compute; reflexivity|]. split; [vm_compute; reflexivity|].
  eapply (proj2 (proj2 (proj2 generation_terminates)) no_data (fun _ => 0%N)).
  - vm_compute. reflexivity.
  - apply reached_init.
  - reflexivity.
  - vm_compute. reflexivity.
Defined.

(** C10: the children an expansion enqueues are born in exactly the
    distributed years that pass the cutoff; those years lie in
    [[1975, 2120]], where the year clamp of both generators is the
    identity, and a generated person is born in the clamped year. *)
Theorem child_birth_years_exact :
  (forall factory oracle st0 st person rest st',
     FamilyTree.init_roots factory (FamilyTree.empty_state oracle) = Ok tt st0 ->
     reached (FamilyTree.expand factory) st0 st ->
     queue st = person :: rest ->
     FamilyTree.expand factory person (dequeued st rest) = Ok tt st' ->
     exists elder count new,
       (1950 <= elder)%Z /\
       queue st' = rest ++ new /\
       map (fun c => year_born (heap st' !!! c)) new =
         filter (fun y => (y <= 2120)%Z)
           (FamilyTree.distribute_birth_years (elder + 25) (elder + 45) count) /\
       Forall (fun y => (1975 <= y <= 2120)%Z /\ PersonFactory.clamp_year_to_data y = y)
              (map (fun c => year_born (heap st' !!! c)) new)) /\
  (forall factory oracle st0 st person rest st',
     FamilyTreeAI._create_founders factory (FamilyTreeAI.empty_state oracle) = Ok tt st0 ->
     reached (FamilyTreeAI.expand factory) st0 st ->
     queue st = person :: rest ->
     FamilyTreeAI.expand factory person (dequeued st rest) = Ok tt st' ->
     exists elder count new,
       (1950 <= elder)%Z /\
       queue st' = rest ++ new /\
       map (fun c => year_born (heap st' !!! c)) new =
         filter (fun y => (y <= FamilyTreeAI.CUTOFF_YEAR)%Z)
           (FamilyTreeAI._spread_birth_years (elder + 25) (elder + 45) count) /\
       Forall (fun y => (1975 <= y <= 2120)%Z /\ PersonFactoryAI._clamp_year y = y)
              (map (fun c => year_born (heap st' !!! c)) new)) /\
  (forall factory year st r st',
     PersonFactory.get_person factory year st = Ok r st' ->
     year_born (heap st' !!! r) = PersonFactory.clamp_year_to_data year) /\
  (forall factory year override st r st',
     PersonFactoryAI.get_person factory year override st = Ok r st' ->
     year_born (heap st' !!! r) = PersonFactoryAI._clamp_year year).
Proof.
  assert (Hnew : forall bound person rest st st',
    generation_invariant st -> queue st = person :: rest ->
    expanded bound person (dequeued st rest) st' ->
    exists elder count new,
      (1950 <= elder)%Z /\
      queue st' = rest ++ new /\
      map (fun c => year_born (heap st' !!! c)) new = kept_years elder count /\
      Forall (fun y => (1975 <= y <= 2120)%Z /\ clamp y = y)
             (map (fun c => year_born (heap st' !!! c)) new)).
  { intros bound person rest st st' I Hq He.
    destruct (expanded_children bound person rest st st' I Hq He)
      as (elder & count & new & Helder & Hq' & Hmap & Hall).
    exists elder, count, new. split; [lia|]. split; [done|]. split; [done|].
    rewrite Hmap. eapply Forall_impl; [exact Hall|].
    intros y (_ & H2 & _ & H4). unfold cutoff in H2. done. }
  assert (Halloc : forall p st st' , allocated p st st' ->
            heap st' !!! length (heap st) = p).
  { intros p st st' (Hh & _). rewrite Hh. apply list_lookup_total_correct.
    by rewrite list_lookup_middle. }
  split; [|split; [|split]].
  - intros factory oracle st0 st person rest st' Hi Hr Hq He.
    apply init_roots_invariant in Hi as [I0 _].
    assert (I : generation_invariant st).
    { eapply (reached_invariant _ (children_bound factory)); [|done|exact Hr].
      apply step_expanded_human. }
    destruct (Hnew _ _ _ _ _ I Hq (step_expanded_human _ _ _ _ _ I Hq He))
      as (elder & count & new & H1 & H2 & H3 & H4).
    exists elder, count, new. repeat split; try done.
    eapply Forall_impl; [exact H4|]. intros y [? ?].
    by rewrite clamp_year_to_data_eq.
  - intros factory oracle st0 st person rest st' Hi Hr Hq He.
    apply create_founders_invariant in Hi as [I0 _].
    assert (I : generation_invariant st).
    { eapply (reached_invariant _ (children_bound_ai factory)); [|done|exact Hr].
      apply step_expanded_ai. }
    destruct (Hnew _ _ _ _ _ I Hq (step_expanded_ai _ _ _ _ _ I Hq He))
      as (elder & count & new & H1 & H2 & H3 & H4).
    exists elder, count, new. repeat split; try done.
    by rewrite spread_birth_years_eq.
  - intros factory year st r st' Hg.
    apply get_person_Ok in Hg as (p & le & v & -> & Ha & Hy & _).
    by rewrite (Halloc _ _ _ Ha), clamp_year_to_data_eq.
  - intros factory year override st r st' Hg.
    apply get_person_ai_Ok in Hg as (p & v & -> & Ha & Hy & _).
    by rewrite (Halloc _ _ _ Ha).
Qed.

Lemma child_birth_years_exact_witness :
  exists st0 st',
    FamilyTreeAI._create_founders no_data (FamilyTreeAI.empty_state (fun _ => 0%N))
      = Ok tt st0 /\
    FamilyTreeAI.expand no_data 0%nat (dequeued st0 []) = Ok tt st' /\
    exists elder count new,
      (1950 <= elder)%Z /\
      queue st' = [] ++ new /\
      map (fun c => year_born (heap st' !!! c)) new =
        filter (fun y => (y <= FamilyTreeAI.CUTOFF_YEAR)%Z)
          (FamilyTreeAI._spread_birth_years (elder + 25) (elder + 45) count) /\
      Forall (fun y => (1975 <= y <= 2120)%Z /\ PersonFactoryAI._clamp_year y = y)
             (map (fun c => year_born (heap st' !!! c)) new).
Proof.
  eexists _, _. split; [vm_compute; reflexivity|]. split; [vm_compute; reflexivity|].
  eapply (proj1 (proj2 child_birth_years_exact) no_data (fun _ => 0%N)).
  - vm_compute. reflexivity.
  - apply reached_init.
  - reflexivity.
  - vm_compute. reflexivity.
Defined.
(** ** Lookups that miss *)

Lemma weighted_pick_total l st :
  usable l -> exists name st', PersonFactoryAI._weighted_pick l st = Ok name st'.
Proof.
  intros [->|[Hpos Hfin]]; [by eexists _, _|].
  destruct (weighted_choice_positive l st Hpos Hfin) as (name & _ & Hp). eauto.
Qed.

Lemma usable_default : usable [("Unknown"%string, 1%Q)].
Proof. right. split; by vm_compute. Qed.

Lemma dict_get_usable {K} `{Countable K} (d : gmap K (list (string * Q))) key :
  (forall k l, d !! k = Some l -> usable l) ->
  usable (dict_get d key [("Unknown"%string, 1%Q)]).
Proof.
  intros Hd. unfold dict_get. destruct (d !! key) eqn:E; [by eapply Hd|apply usable_default].
Qed.

Lemma get_person_ai_total factory year override st :
  well_formed_ai factory ->
  exists r st', PersonFactoryAI.get_person factory year override st = Ok r st'.
Proof.
  intros [W1 W2 _]. unfold PersonFactoryAI.get_person. cbv zeta.
  destruct (choice_total ["male"%string; "female"%string] st) as (gender & Eg & _); [done|].
  rewrite (bind_Ok_eq _ _ _ _ _ Eg).
  destruct (weighted_pick_total _ (advance st)
              (dict_get_usable (PersonFactoryAI._first_names factory)
                 (decade_key (PersonFactoryAI._clamp_year year), gender) W1))
    as (first & st1 & E1).
  rewrite (bind_Ok_eq _ _ _ _ _ E1).
  assert (exists last st2,
            match override with
            | Some name => ret name
            | None => PersonFactoryAI._weighted_pick
                        (dict_get (PersonFactoryAI._last_names factory)
                           (decade_key (PersonFactoryAI._clamp_year year))
                           [("Unknown"%string, 1%Q)])
            end st1 = Ok last st2) as (last & st2 & E2).
  { destruct override; [by eexists _, _|].
    apply weighted_pick_total, dict_get_usable, W2. }
  rewrite (bind_Ok_eq _ _ _ _ _ E2).
  destruct (randint_total (-10) 10 st2) as (v & Ev & _); [lia|].
  rewrite (bind_Ok_eq _ _ _ _ _ Ev). by eexists _, _.
Qed.

Lemma marriage_step_ai_total factory person decade st :
  well_formed_ai factory ->
  exists st', FamilyTreeAI.marriage_step factory person decade st = Ok tt st'.
Proof.
  intros W. unfold FamilyTreeAI.marriage_step.
  unfold bind at 1. cbn [read].
  destruct (spouse (heap st !!! person)); [by eexists|].
  rewrite (bind_Ok_eq _ _ _ _ _ (random_Ok st)).
  destruct (Qlt_bool _ _); [|by eexists].
  unfold bind at 1. cbn [read].
  destruct (randint_total (-10) 10 (advance st)) as (v & Ev & _); [lia|].
  rewrite (bind_Ok_eq _ _ _ _ _ Ev).
  destruct (get_person_ai_total factory
              (year_born (heap (advance st) !!! person) + v) None
              (advance (advance st)) W) as (r & st1 & Eg).
  rewrite (bind_Ok_eq _ _ _ _ _ Eg). by eexists.
Qed.

Lemma add_child_for_year_ai_total factory person year st :
  well_formed_ai factory ->
  exists st', FamilyTreeAI.add_child_for_year factory person year st = Ok tt st'.
Proof.
  intros W. unfold FamilyTreeAI.add_child_for_year.
  destruct (choice_total FamilyTreeAI.FOUNDER_LAST_NAMES st) as (name & En & _); [done|].
  rewrite (bind_Ok_eq _ _ _ _ _ En).
  destruct (get_person_ai_total factory year (Some name) (advance st) W) as (r & st1 & Eg).
  rewrite (bind_Ok_eq _ _ _ _ _ Eg).
  unfold bind, update, read, people_append, queue_append. cbn [heap].
  destruct (spouse _); by eexists.
Qed.

Lemma for_each_total {A} (xs : list A) (body : A -> M unit) st :
  (forall x st, exists st', body x st = Ok tt st') ->
  exists st', for_each xs body st = Ok tt st'.
Proof.
  intros Hb. revert st. induction xs as [|x xs IH]; intros st; simpl; [by eexists|].
  destruct (Hb x st) as (st1 & E1). rewrite (bind_Ok_eq _ _ _ _ _ E1). apply IH.
Qed.

Lemma get_birth_rate_bound factory decade :
  well_formed_ai factory ->
  (- (3 # 2) <= PersonFactoryAI.get_birth_rate factory decade)%Q.
Proof.
  intros [_ _ W3]. unfold PersonFactoryAI.get_birth_rate, dict_get.
  destruct (_ !! decade) eqn:E; [by eapply W3|done].
Qed.

Lemma williams_data_well_formed : well_formed_ai williams_data.
Proof.
  split; simpl.
  - intros key l H. by rewrite lookup_empty in H.
  - intros key l H. apply lookup_singleton_Some in H as [_ <-].
    right. split; by vm_compute.
  - intros key birth_rate H. by rewrite lookup_empty in H.
Qed.

Lemma children_step_ai_total factory person decade st :
  well_formed_ai factory ->
  exists st', FamilyTreeAI.children_step factory person decade st = Ok tt st'.
Proof.
  intros W. unfold FamilyTreeAI.children_step. cbv zeta.
  pose proof (min_le_max_children_ai _ (get_birth_rate_bound factory decade W)) as Hr.
  destruct (randint_total _ _ st (proj2 Hr)) as (n & En & _).
  rewrite (bind_Ok_eq _ _ _ _ _ En).
  destruct (n =? 0)%Z; [by eexists|].
  unfold bind at 1. cbn [read]. unfold bind at 1. cbn [read].
  assert (exists elder, match spouse (heap (advance st) !!! person) with
            | Some s => let* spouse_year_born := read s year_born in
                        ret (Z.min (year_born (heap (advance st) !!! person)) spouse_year_born)
            | None => ret (year_born (heap (advance st) !!! person))
            end (advance st) = Ok elder (advance st)) as (elder & Ee).
  { destruct (spouse _); by eexists. }
  rewrite (bind_Ok_eq _ _ _ _ _ Ee).
  apply for_each_total. intros year st1.
  destruct (year >? FamilyTreeAI.CUTOFF_YEAR)%Z; [by eexists|].
  by apply add_child_for_year_ai_total.
Qed.

Lemma expand_ai_total factory person st :
  well_formed_ai factory ->
  exists st', FamilyTreeAI.expand factory person st = Ok tt st'.
Proof.
  intros W. unfold FamilyTreeAI.expand. unfold bind at 1. cbn [read].
  destruct (marriage_step_ai_total factory person
              (decade_key (year_born (heap st !!! person))) st W) as (st1 & E1).
  rewrite (bind_Ok_eq _ _ _ _ _ E1). by apply children_step_ai_total.
Qed.

Lemma run_loop_no_raise step fuel st e :
  (forall person st, exists st', step person st = Ok tt st') ->
  run_loop step fuel st <> Raise e.
Proof.
  intros Hs. revert st. induction fuel as [|fuel IH]; intros st; simpl.
  - by destruct (queue st).
  - destruct (queue st) as [|person rest]; [done|].
    unfold bind at 1. cbn [set_queue].
    destruct (Hs person (mkState (heap st) (people st) rest (oracle st) (draws st)))
      as (st1 & E1).
    rewrite (bind_Ok_eq _ _ _ _ _ E1). apply IH.
Qed.

(** With tables whose present entries can be drawn from, however few
    decades they cover, [bootstrap] finishes without an exception. *)
Lemma bootstrap_completes factory fuel oracle :
  well_formed_ai factory ->
  (weight (children_bound_ai factory) 1950 <= Z.of_nat fuel)%Z ->
  exists st, FamilyTreeAI.bootstrap factory fuel oracle = Ok tt st.
Proof.
  intros W Hf. pose proof (bootstrap_terminates factory fuel oracle Hf) as Ht.
  unfold FamilyTreeAI.bootstrap in *.
  destruct (create_founders_total factory oracle) as (st0 & E0).
  rewrite (bind_Ok_eq _ _ _ _ _ E0) in *. rewrite expand_tree_loop in *.
  destruct (run_loop _ fuel st0) as [[] st| |] eqn:E; [eauto| |done].
  exfalso. eapply run_loop_no_raise; [|exact E]. intros. by apply expand_ai_total.
Qed.

(** ** Which exceptions a run can raise *)

Lemma bind_no_raise {A B} (m : M A) (k : A -> M B) st e :
  m st <> Raise e -> (forall a st1, m st = Ok a st1 -> k a st1 <> Raise e) ->
  bind m k st <> Raise e.
Proof.
  unfold bind. intros Hm Hk. destruct (m st) as [a st1| |]; [by apply Hk| |done].
  intros [= ->]. by apply Hm.
Qed.

Lemma choices_no_KeyError names weights st :
  random.choices names weights st <> Raise KeyError.
Proof.
  unfold random.choices. cbv zeta. destruct (negb _); [done|].
  destruct (last _); [|done]. destruct (Qle_bool _ _); [done|].
  destruct (negb _); [done|].
  by rewrite (bind_Ok_eq _ _ _ _ _ (random_Ok st)).
Qed.

Lemma randint_no_KeyError a b st : random.randint a b st <> Raise KeyError.
Proof.
  unfold random.randint. destruct (b <? a)%Z; [done|].
  by rewrite (bind_Ok_eq _ _ _ _ _ (next_Ok st)).
Qed.

Lemma choice_no_KeyError {A} `{Inhabited A} (l : list A) st :
  random.choice l st <> Raise KeyError.
Proof.
  destruct l; [done|]. unfold random.choice.
  by rewrite (bind_Ok_eq _ _ _ _ _ (next_Ok st)).
Qed.

Lemma for_each_no_raise {A} (xs : list A) (body : A -> M unit) e st :
  (forall x st, body x st <> Raise e) -> for_each xs body st <> Raise e.
Proof.
  intros Hb. revert st. induction xs as [|x xs IH]; intros st; simpl; [done|].
  apply bind_no_raise; [apply Hb|intros; apply IH].
Qed.

Lemma dict_index_covers table year st :
  covers table -> (1950 <= year <= 2129)%Z ->
  dict_index table (decade_key year) st <> Raise KeyError.
Proof.
  intros Hc Hy. unfold dict_index. by destruct (Hc year Hy) as [v ->].
Qed.

Section Covered.
Variable factory : PersonFactory.t.
Hypothesis Hcov : covered factory.

Lemma get_person_no_KeyError year st :
  PersonFactory.get_person factory year st <> Raise KeyError.
Proof.
  unfold PersonFactory.get_person. cbv zeta. rewrite clamp_year_to_data_eq.
  apply bind_no_raise; [apply choices_no_KeyError|intros first st1 _].
  apply bind_no_raise; [apply choices_no_KeyError|intros last st2 _].
  apply bind_no_raise;
    [apply dict_index_covers; [apply Hcov|apply clamp_range]|intros le st3 _].
  apply bind_no_raise; [apply randint_no_KeyError|done].
Qed.

Lemma marriage_step_no_KeyError person year st :
  (1950 <= year <= 2129)%Z ->
  FamilyTree.marriage_step factory person (decade_key year) st <> Raise KeyError.
Proof.
  intros Hy. unfold FamilyTree.marriage_step. unfold bind at 1. cbn [read].
  destruct (spouse _); [done|].
  apply bind_no_raise; [apply dict_index_covers; [apply Hcov|done]|intros rate st1 _].
  rewrite (bind_Ok_eq _ _ _ _ _ (random_Ok st1)).
  destruct (Qlt_bool _ _); [|done].
  unfold bind at 1. cbn [read].
  apply bind_no_raise; [apply randint_no_KeyError|intros v st2 _].
  apply bind_no_raise; [apply get_person_no_KeyError|done].
Qed.

Lemma add_child_for_year_no_KeyError person year st :
  FamilyTree.add_child_for_year factory person year st <> Raise KeyError.
Proof.
  unfold FamilyTree.add_child_for_year.
  apply bind_no_raise; [apply get_person_no_KeyError|intros child st1 _].
  apply bind_no_raise; [apply choice_no_KeyError|intros name st2 _].
  unfold bind, update, read, people_append, queue_append. cbn [heap].
  by destruct (spouse _).
Qed.

Lemma children_step_no_KeyError person year st :
  (1950 <= year <= 2129)%Z ->
  FamilyTree.children_step factory person (decade_key year) st <> Raise KeyError.
Proof.
  intros Hy. unfold FamilyTree.children_step. cbv zeta.
  apply bind_no_raise; [apply dict_index_covers; [apply Hcov|done]|intros rate st1 _].
  apply bind_no_raise; [apply randint_no_KeyError|intros n st2 _].
  destruct (n =? 0)%Z; [done|].
  unfold bind at 1. cbn [read]. unfold bind at 1. cbn [read].
  apply bind_no_raise; [by destruct (spouse _)|intros elder st3 _].
  apply for_each_no_raise. intros y st4.
  destruct (y >? 2120)%Z; [done|apply add_child_for_year_no_KeyError].
Qed.

Lemma expand_no_KeyError person st :
  (1950 <= year_born (heap st !!! person) <= 2129)%Z ->
  FamilyTree.expand factory person st <> Raise KeyError.
Proof.
  intros Hy. unfold FamilyTree.expand. unfold bind at 1. cbn [read].
  apply bind_no_raise; [by apply marriage_step_no_KeyError|intros [] st1 _].
  by apply children_step_no_KeyError.
Qed.

Lemma run_loop_no_KeyError fuel st :
  generation_invariant st ->
  run_loop (FamilyTree.expand factory) fuel st <> Raise KeyError.
Proof.
  revert st. induction fuel as [|fuel IH]; intros st Hinv; simpl.
  - by destruct (queue st).
  - destruct (queue st) as [|person rest] eqn:Hq; [done|].
    unfold bind at 1. cbn [set_queue]. fold (dequeued st rest).
    apply bind_no_raise.
    + apply expand_no_KeyError. cbn [dequeued heap].
      destruct (inv_queue st Hinv person) as (p & Hp & _); [rewrite Hq; left|].
      rewrite (list_lookup_total_correct _ _ _ Hp). by eapply inv_years.
    + intros [] st1 E. apply IH.
      apply (expanded_invariant (children_bound factory) person rest st st1 Hinv Hq).
      by apply step_expanded_human.
Qed.

Lemma run_no_KeyError fuel oracle :
  FamilyTree.run factory fuel oracle <> Raise KeyError.
Proof.
  unfold FamilyTree.run. apply bind_no_raise.
  - unfold FamilyTree.init_roots.
    assert (Hd : forall st, FamilyTree.determine_year_died factory 1950 st
                            <> Raise KeyError).
    { intros st. unfold FamilyTree.determine_year_died. cbv zeta.
      apply bind_no_raise; [apply dict_index_covers; [apply Hcov|lia]|intros le st1 _].
      apply bind_no_raise; [apply randint_no_KeyError|done]. }
    apply bind_no_raise; [apply Hd|intros y1 st1 _].
    unfold bind at 1. cbn [alloc].
    apply bind_no_raise; [apply Hd|done].
  - intros [] st0 E. rewrite generate_family_tree_loop.
    apply run_loop_no_KeyError. by eapply init_roots_invariant.
Qed.

End Covered.

(** The generator that looks rates up with defaults raises no [KeyError],
    whatever its tables hold. *)
Lemma get_person_ai_no_KeyError factory year override st :
  PersonFactoryAI.get_person factory year override st <> Raise KeyError.
Proof.
  assert (Hp : forall l st, PersonFactoryAI._weighted_pick l st <> Raise KeyError).
  { intros [|c l] st'; [done|apply choices_no_KeyError]. }
  unfold PersonFactoryAI.get_person. cbv zeta.
  apply bind_no_raise; [apply choice_no_KeyError|intros gender st1 _].
  apply bind_no_raise; [apply Hp|intros first st2 _].
  apply bind_no_raise; [destruct override; [done|apply Hp]|intros last st3 _].
  apply bind_no_raise; [apply randint_no_KeyError|done].
Qed.

Lemma expand_ai_no_KeyError factory person st :
  FamilyTreeAI.expand factory person st <> Raise KeyError.
Proof.
  unfold FamilyTreeAI.expand. unfold bind at 1. cbn [read].
  apply bind_no_raise.
  - unfold FamilyTreeAI.marriage_step. unfold bind at 1. cbn [read].
    destruct (spouse _); [done|].
    rewrite (bind_Ok_eq _ _ _ _ _ (random_Ok st)).
    destruct (Qlt_bool _ _); [|done].
    unfold bind at 1. cbn [read].
    apply bind_no_raise; [apply randint_no_KeyError|intros v st2 _].
    apply bind_no_raise; [apply get_person_ai_no_KeyError|done].
  - intros [] st1 _. unfold FamilyTreeAI.children_step. cbv zeta.
    apply bind_no_raise; [apply randint_no_KeyError|intros n st2 _].
    destruct (n =? 0)%Z; [done|].
    unfold bind at 1. cbn [read]. unfold bind at 1. cbn [read].
    apply bind_no_raise; [by destruct (spouse _)|intros elder st3 _].
    apply for_each_no_raise. intros y st4.
    destruct (y >? FamilyTreeAI.CUTOFF_YEAR)%Z; [done|].
    unfold FamilyTreeAI.add_child_for_year.
    apply bind_no_raise; [apply choice_no_KeyError|intros name st5 _].
    apply bind_no_raise; [apply get_person_ai_no_KeyError|intros child st6 _].
    unfold bind, update, read, people_append, queue_append. cbn [heap].
    by destruct (spouse _).
Qed.

Lemma run_loop_no_raise_of step e fuel st :
  (forall person st, step person st <> Raise e) ->
  run_loop step fuel st <> Raise e.
Proof.
  intros Hs. revert st. induction fuel as [|fuel IH]; intros st; simpl.
  - by destruct (queue st).
  - destruct (queue st) as [|person rest]; [done|].
    unfold bind at 1. cbn [set_queue].
    apply bind_no_raise; [apply Hs|intros; apply IH].
Qed.

Lemma bootstrap_no_KeyError factory fuel oracle :
  FamilyTreeAI.bootstrap factory fuel oracle <> Raise KeyError.
Proof.
  unfold FamilyTreeAI.bootstrap.
  destruct (create_founders_total factory oracle) as (st0 & E0).
  rewrite (bind_Ok_eq _ _ _ _ _ E0). rewrite expand_tree_loop.
  apply run_loop_no_raise_of. apply expand_ai_no_KeyError.
Qed.

(** ** The claims about lookups and lifespans *)

(** C3, as the code has it. The getters of [person_factory_ai.py] answer a
    missing decade with 2.0, 0.5 and 80.0, so [bootstrap] raises no
    [KeyError] whatever the tables cover, and returns normally when the
    entries that are present can be drawn from: each list of names empty,
    or of positive total weight with finite running sums, and each birth
    rate between -1.5 and a million. [FamilyTree.py] and
    [PersonFactory.py] index their tables: a missing decade raises
    [KeyError] in the marriage step, the children step and the year of
    death, and a run raises none when the three rate tables cover every
    decade from the 1950s to the 2120s. *)
Theorem missing_decade_lookups :
  (forall factory decade,
     (PersonFactoryAI._birth_rates factory !! decade = None ->
      PersonFactoryAI.get_birth_rate factory decade = 2%Q) /\
     (PersonFactoryAI._marriage_rates factory !! decade = None ->
      PersonFactoryAI.get_marriage_rate factory decade = (1 # 2)%Q) /\
     (PersonFactoryAI._life_expectancy factory !! decade = None ->
      PersonFactoryAI.get_life_expectancy factory decade = 80%Q)) /\
  (forall factory fuel oracle,
     FamilyTreeAI.bootstrap factory fuel oracle <> Raise KeyError) /\
  (forall factory, well_formed_ai factory ->
     exists fuel0, forall fuel oracle, (fuel0 <= fuel)%nat ->
       exists st, FamilyTreeAI.bootstrap factory fuel oracle = Ok tt st) /\
  (forall factory person decade st,
     spouse (heap st !!! person) = None ->
     PersonFactory.marriage_rate_by_decade factory !! decade = None ->
     FamilyTree.marriage_step factory person decade st = Raise KeyError) /\
  (forall factory person decade st,
     PersonFactory.birth_rate_by_decade factory !! decade = None ->
     FamilyTree.children_step factory person decade st = Raise KeyError) /\
  (forall factory year st,
     PersonFactory.life_expectancy_by_decade factory !! decade_key year = None ->
     FamilyTree.determine_year_died factory year st = Raise KeyError) /\
  (forall factory, covered factory -> forall fuel oracle,
     FamilyTree.run factory fuel oracle <> Raise KeyError).
Proof.
  repeat apply conj.
  - intros factory decade.
    unfold PersonFactoryAI.get_birth_rate, PersonFactoryAI.get_marriage_rate,
      PersonFactoryAI.get_life_expectancy, dict_get.
    repeat split; by intros ->.
  - apply bootstrap_no_KeyError.
  - intros factory W.
    exists (Z.to_nat (weight (children_bound_ai factory) 1950)).
    intros fuel oracle Hf. apply bootstrap_completes; [done|lia].
  - intros factory person decade st Hs Hm.
    unfold FamilyTree.marriage_step. unfold bind at 1. cbn [read]. rewrite Hs.
    apply bind_Raise. unfold dict_index. by rewrite Hm.
  - intros factory person decade st Hb.
    unfold FamilyTree.children_step. apply bind_Raise. unfold dict_index. by rewrite Hb.
  - intros factory year st Hl.
    unfold FamilyTree.determine_year_died. apply bind_Raise. unfold dict_index.
    by rewrite Hl.
  - intros factory Hc fuel oracle. by apply run_no_KeyError.
Qed.

(** The claim fails on [FamilyTree.py]: with rates for the 1950s alone, the
    first child, born in 1985, is looked up in the 1980s and the run ends
    in [KeyError]. *)
Lemma missing_decade_aborts :
  FamilyTree.run sparse_data 1000 (fun _ => 0%N) = Raise KeyError.
Proof. vm_compute. reflexivity. Qed.

Lemma missing_decade_lookups_witness :
  PersonFactory.marriage_rate_by_decade sparse_data !! "1980s"%string = None /\
  FamilyTree.marriage_step sparse_data 0%nat "1980s"
    (mkState [mkPerson 1985 2050 "Molly" "Smith" None []] [0%nat] [] (fun _ => 0%N) 0)
  = Raise KeyError /\
  exists fuel0, forall fuel oracle, (fuel0 <= fuel)%nat ->
    exists st, FamilyTreeAI.bootstrap williams_data fuel oracle = Ok tt st.
Proof.
  split; [vm_compute; reflexivity|]. split.
  - apply (proj1 (proj2 (proj2 (proj2 missing_decade_lookups)))); vm_compute; reflexivity.
  - apply (proj1 (proj2 (proj2 missing_decade_lookups)) williams_data).
    apply williams_data_well_formed.
Defined.

(** C8: a person [get_person] returns dies in
    [int(year_born + life_expectancy + variation)] for some integer
    [variation] of [[-10, 10]], and that year is after the year of birth
    when the life expectancy looked up for the decade of birth is at
    least 11. *)
Theorem year_died_after_year_born :
  (forall factory year st r st',
     PersonFactory.get_person factory year st = Ok r st' ->
     exists life_expectancy variation,
       PersonFactory.life_expectancy_by_decade factory
         !! decade_key (year_born (heap st' !!! r)) = Some life_expectancy /\
       (-10 <= variation <= 10)%Z /\
       year_died (heap st' !!! r)
       = py_int (fadd (fadd (of_int (year_born (heap st' !!! r))) life_expectancy)
                      (of_int variation)) /\
       ((11 <= life_expectancy)%Q ->
        (year_born (heap st' !!! r) < year_died (heap st' !!! r))%Z)) /\
  (forall factory year override st r st',
     PersonFactoryAI.get_person factory year override st = Ok r st' ->
     exists variation,
       let life_expectancy :=
         PersonFactoryAI.get_life_expectancy factory
           (decade_key (year_born (heap st' !!! r))) in
       (-10 <= variation <= 10)%Z /\
       year_died (heap st' !!! r)
       = py_int (fadd (fadd (of_int (year_born (heap st' !!! r))) life_expectancy)
                      (of_int variation)) /\
       ((11 <= life_expectancy)%Q ->
        (year_born (heap st' !!! r) < year_died (heap st' !!! r))%Z)).
Proof.
  split.
  - intros factory year st r st' H.
    apply get_person_Ok in H as (p & le & v & -> & (Hh & _) & Hy & _ & _ & Hle & Hv & Hd).
    assert (Hp : heap st' !!! length (heap st) = p).
    { apply list_lookup_total_correct. rewrite Hh. apply list_lookup_middle. done. }
    rewrite Hp, Hy. exists le, v. split; [done|]. split; [done|]. split; [done|].
    intros H11. rewrite Hd. apply year_died_after; [|done|done].
    pose proof (clamp_range year). lia.
  - intros factory year override st r st' H.
    apply get_person_ai_Ok in H as (p & v & -> & (Hh & _) & Hy & _ & _ & _ & Hv & Hd).
    assert (Hp : heap st' !!! length (heap st) = p).
    { apply list_lookup_total_correct. rewrite Hh. apply list_lookup_middle. done. }
    rewrite Hp, Hy. exists v. cbv zeta. split; [done|]. split; [done|].
    intros H11. rewrite Hd. apply year_died_after; [|done|done].
    pose proof (clamp_range year). lia.
Qed.

Lemma year_died_after_year_born_witness :
  exists r st',
    PersonFactoryAI.get_person no_data 1985%Z None (FamilyTreeAI.empty_state (fun _ => 0%N))
    = Ok r st' /\
    (year_born (heap st' !!! r) < year_died (heap st' !!! r))%Z.
Proof.
  eexists _, _. split; [vm_compute; reflexivity|].
  edestruct (proj2 year_died_after_year_born no_data 1985%Z None
               (FamilyTreeAI.empty_state (fun _ => 0%N))) as (v & _ & _ & H).
  - vm_compute. reflexivity.
  - apply H. vm_compute. discriminate.
Defined.
(** ** Couples and their children *)

Lemma with_child_lookup person c h p0 r :
  h !! person = Some p0 -> spouse p0 <> Some person ->
  with_child person c h !! r =
    if decide (r = person \/ spouse p0 = Some r)
    then add_child c <$> h !! r else h !! r.
Proof.
  intros Hp Hself. unfold with_child. cbv zeta.
  assert (H1 : alter (add_child c) person h !!! person = add_child c p0).
  { apply list_lookup_total_correct. by rewrite list_lookup_alter_eq, Hp. }
  rewrite H1. change (spouse (add_child c p0)) with (spouse p0).
  destruct (spouse p0) as [s|] eqn:Hs.
  - assert (s <> person) by congruence.
    destruct (decide (r = s)) as [->|Hrs].
    + rewrite list_lookup_alter_eq, list_lookup_alter_ne by done.
      destruct (decide _) as [_|n]; [done|]. exfalso. apply n. by right.
    + rewrite list_lookup_alter_ne by done.
      destruct (decide (r = person)) as [->|Hrp].
      * rewrite list_lookup_alter_eq. destruct (decide _) as [_|n]; [done|].
        exfalso. apply n. by left.
      * rewrite list_lookup_alter_ne by done.
        destruct (decide _) as [[?|?]|_]; [done|congruence|done].
  - destruct (decide (r = person)) as [->|Hrp].
    + rewrite list_lookup_alter_eq. destruct (decide _) as [_|n]; [done|].
      exfalso. apply n. by left.
    + rewrite list_lookup_alter_ne by done.
      destruct (decide _) as [[?|?]|_]; done.
Qed.

Lemma same_store_family st st' :
  same_store st st' -> family_invariant st -> family_invariant st'.
Proof.
  intros (Hh & Hp & Hq & _) [F1 F2 F3 F4 F5 F6 F7 F8].
  split; rewrite ?Hh, ?Hp, ?Hq; done.
Qed.

Lemma same_store_expanding person st st' :
  same_store st st' -> expanding person st -> expanding person st'.
Proof. intros (Hh & Hp & Hq & _) [E1 E2]. split; rewrite ?Hh, ?Hq; done. Qed.

Lemma dequeued_family st person rest :
  family_invariant st -> queue st = person :: rest ->
  (person < length (heap st))%nat ->
  family_invariant (dequeued st rest) /\ expanding person (dequeued st rest) /\
  children (heap st !!! person) = [].
Proof.
  intros [F1 F2 F3 F4 F5 F6 F7 F8] Hq Hvalid.
  rewrite Hq in F1. apply NoDup_cons in F1 as [Hnot Hnd].
  destruct (lookup_lt_is_Some_2 _ _ Hvalid) as [p Hp].
  assert (Hin : forall r, r ∈ rest -> r ∈ queue st).
  { intros r Hr. rewrite Hq. by apply elem_of_cons; right. }
  assert (Hhead : person ∈ queue st) by (rewrite Hq; apply list_elem_of_here).
  split; [|split].
  - split; simpl; try done.
    + intros r p' Hr. by apply F2, Hin.
    + intros r p' s Hr Hp' Hs Hs'. by eapply (F3 r p' s); [apply Hin| | |apply Hin].
  - split; simpl; [done|]. intros s Hs Hs'.
    rewrite (list_lookup_total_correct _ _ _ Hp) in Hs.
    by eapply (F3 person p s); [| | |apply Hin].
  - rewrite (list_lookup_total_correct _ _ _ Hp). by eapply F2.
Qed.

Lemma married_family person st st' :
  generation_invariant st -> family_invariant st ->
  (person < length (heap st))%nat -> expanding person st ->
  children (heap st !!! person) = [] ->
  married person st st' ->
  family_invariant st' /\ expanding person st'.
Proof.
  intros I F Hvalid E Hnone [S|sp variation Hsingle Hv Hyb Hsp Hch Hheap Hpeople Hqueue _].
  { split; [by eapply same_store_family|by eapply same_store_expanding]. }
  destruct (lookup_lt_is_Some_2 _ _ Hvalid) as [p0 Hp0].
  rewrite (list_lookup_total_correct _ _ _ Hp0) in Hsingle, Hnone.
  pose proof (weds_cases (heap st) person sp p0 Hp0) as Hcases.
  rewrite <- Hheap in Hcases.
  pose proof (weds_person (heap st) person sp p0 Hp0) as Hperson.
  rewrite <- Hheap in Hperson.
  assert (Hq : forall r, r ∈ queue st -> r <> person /\ (r < length (heap st))%nat).
  { intros r Hr. split; [intros ->; by apply E|by apply invariant_valid]. }
  destruct F as [F1 F2 F3 F4 F5 F6 F7 F8].
  split.
  - split; rewrite ?Hqueue.
    + done.
    + intros r p' Hr Hp'. destruct (Hq r Hr) as [Hne Hlt].
      destruct (Hcases r p' Hp') as [(_ & _ & Hold)|[[-> _]|[-> _]]]; [|done|lia].
      by eapply F2.
    + intros r p' s Hr Hp' Hs. destruct (Hq r Hr) as [Hne Hlt].
      destruct (Hcases r p' Hp') as [(_ & _ & Hold)|[[-> _]|[-> _]]]; [|done|lia].
      by eapply F3.
    + intros r p' Hp'.
      destruct (Hcases r p' Hp') as [(_ & _ & Hold)|[[-> ->]|[-> ->]]]; simpl.
      * by eapply F4.
      * intros [= H]. lia.
      * intros [= H]. lia.
    + intros r p' s q Hp' Hs Hq'.
      destruct (Hcases r p' Hp') as [(Hne & Hlt & Hold)|[[-> ->]|[-> ->]]]; simpl in *.
      * destruct (inv_spouse st I _ _ _ Hold Hs) as (q0 & Hq0 & Hq0s & _).
        destruct (Hcases s q Hq') as [(_ & _ & Hold')|[[-> ->]|[-> ->]]]; simpl.
        -- by eapply F5.
        -- congruence.
        -- apply lookup_lt_Some in Hq0. lia.
      * injection Hs as <-.
        destruct (Hcases _ q Hq') as [(_ & ? & _)|[[? _]|[_ ->]]]; [lia|lia|].
        simpl. congruence.
      * injection Hs as <-. rewrite Hperson in Hq'. injection Hq' as <-. simpl. congruence.
    + intros r p' Hp'.
      destruct (Hcases r p' Hp') as [(_ & _ & Hold)|[[-> ->]|[-> ->]]]; simpl.
      * by eapply F6.
      * by eapply F6.
      * rewrite Hch. constructor.
    + intros r r' p' p'' c Hp' Hp'' Hc Hc'.
      destruct (Hcases r p' Hp') as [(Hne & Hlt & Hold)|[[-> ->]|[-> ->]]]; simpl in *.
      * destruct (Hcases r' p'' Hp'') as [(Hne' & Hlt' & Hold')|[[-> ->]|[-> ->]]];
          simpl in *.
        -- by eapply F7.
        -- rewrite Hnone in Hc'. by apply elem_of_nil in Hc'.
        -- rewrite Hch in Hc'. by apply elem_of_nil in Hc'.
      * rewrite Hnone in Hc. by apply elem_of_nil in Hc.
      * rewrite Hch in Hc. by apply elem_of_nil in Hc.
    + intros r p' c q Hp' Hc Hq'.
      destruct (Hcases r p' Hp') as [(Hne & Hlt & Hold)|[[-> ->]|[-> ->]]]; simpl in *.
      * destruct (inv_children st I _ _ _ Hold Hc) as (q0 & Hq0 & _).
        pose proof (lookup_lt_Some _ _ _ Hq0) as Hclt.
        destruct (Hcases c q Hq') as [(_ & _ & Hold')|[[-> ->]|[-> _]]]; simpl; [| |lia].
        -- by eapply F8.
        -- by eapply (F8 r p' person p0).
      * rewrite Hnone in Hc. by apply elem_of_nil in Hc.
      * rewrite Hch in Hc. by apply elem_of_nil in Hc.
  - destruct E as [E1 E2]. split; rewrite ?Hqueue; [done|].
    intros s Hs. rewrite (list_lookup_total_correct _ _ _ Hperson) in Hs.
    simpl in Hs. injection Hs as <-. intros Hin.
    apply (invariant_valid st _ I) in Hin. lia.
Qed.

Section ChildAdded.
Variables (st : State) (person : ref) (c p0 : Person).
Hypothesis I : generation_invariant st.
Hypothesis F : family_invariant st.
Hypothesis Hp0 : heap st !! person = Some p0.
Hypothesis Hch : children c = [].
Hypothesis Hsp : spouse c = None.

Let n := length (heap st).
Let h' := with_child person n (heap st ++ [c]).

(** The two who get the child: [person] and the spouse of [person]. *)
Local Abbreviation is_parent r := (r = person \/ spouse p0 = Some r).

Lemma parent_lt r : is_parent r -> (r < n)%nat.
Proof.
  intros [->|Hs]; [by eapply lookup_lt_Some|].
  destruct (inv_spouse st I _ _ _ Hp0 Hs) as (q & Hq & _). by eapply lookup_lt_Some.
Qed.

Lemma added_cases r p' : h' !! r = Some p' ->
  (r = n /\ p' = c) \/
  ((r < n)%nat /\ is_parent r /\
   exists p, heap st !! r = Some p /\ p' = add_child n p) \/
  ((r < n)%nat /\ ~ is_parent r /\ heap st !! r = Some p').
Proof.
  unfold h'. rewrite (with_child_lookup person n (heap st ++ [c]) p0 r).
  2: { rewrite lookup_app_l; [done|by eapply lookup_lt_Some]. }
  2: { by apply (fam_no_self st F). }
  destruct (decide (is_parent r)) as [Hpar|Hpar].
  - pose proof (parent_lt r Hpar) as Hlt. rewrite lookup_app_l by done.
    intros Hr. right. left. split; [done|]. split; [done|].
    destruct (heap st !! r) as [p|]; [|done]. injection Hr as <-. eauto.
  - intros Hr. pose proof (lookup_lt_Some _ _ _ Hr) as Hlt.
    rewrite length_app in Hlt. simpl in Hlt.
    destruct (decide (r = n)) as [->|Hne].
    + left. split; [done|]. unfold n in Hr. rewrite list_lookup_middle in Hr by done.
      congruence.
    + right. right. assert (r < n)%nat by (unfold n; lia).
      rewrite lookup_app_l in Hr by done. done.
Qed.

(** What a person of the new store was before. *)
Lemma added_old r p' : h' !! r = Some p' -> r <> n ->
  exists p, heap st !! r = Some p /\ year_born p' = year_born p /\
            spouse p' = spouse p /\
            (forall x, x ∈ children p' -> x ∈ children p \/ (x = n /\ is_parent r)) /\
            (is_parent r -> children p' = children p ++ [n]) /\
            (~ is_parent r -> p' = p).
Proof.
  intros Hr Hne. destruct (added_cases r p' Hr) as [[? _]|[(_ & Hpar & p & Hp & ->)|(_ & Hpar & Hp)]];
    [done| |].
  - exists p. repeat split; try done.
    intros x Hx. simpl in Hx. apply elem_of_app in Hx as [?|Hx]; [by left|].
    apply list_elem_of_singleton in Hx. by right.
  - exists p'. split; [done|]. split; [done|]. split; [done|].
    split; [by left|]. split; [done|done].
Qed.

Lemma old_child_lt r p x : heap st !! r = Some p -> x ∈ children p -> (x < n)%nat.
Proof.
  intros Hp Hx. destruct (inv_children st I _ _ _ Hp Hx) as (q & Hq & _).
  by eapply lookup_lt_Some.
Qed.

Lemma parents_couple r r' p : is_parent r -> is_parent r' ->
  heap st !! r = Some p -> r = r' \/ spouse p = Some r'.
Proof.
  intros [->|Hs] [->|Hs'] Hp; [by left| | |].
  - right. congruence.
  - right. destruct (inv_spouse st I _ _ _ Hp0 Hs) as (q & Hq & Hqs & _). congruence.
  - left. congruence.
Qed.

Lemma parent_year r p :
  is_parent r -> heap st !! r = Some p ->
  (elder_year st person <= year_born p <= elder_year st person + 10)%Z.
Proof.
  intros Hpar Hp. unfold elder_year. cbv zeta.
  rewrite (list_lookup_total_correct _ _ _ Hp0).
  destruct Hpar as [->|Hs].
  - assert (p = p0) by congruence. subst p.
    destruct (spouse p0) as [s|] eqn:Hs; [|lia].
    destruct (inv_spouse st I _ _ _ Hp0 Hs) as (q & Hq & Hqs & Hage).
    destruct (inv_spouse st I _ _ _ Hq Hqs) as (q' & Hq' & _ & Hage').
    assert (q' = p0) by congruence. subst q'.
    rewrite (list_lookup_total_correct _ _ _ Hq). lia.
  - rewrite Hs. rewrite (list_lookup_total_correct _ _ _ Hp).
    destruct (inv_spouse st I _ _ _ Hp0 Hs) as (q & Hq & Hqs & Hage).
    assert (q = p) by congruence. subst q.
    destruct (inv_spouse st I _ _ _ Hp Hqs) as (q' & Hq' & _ & Hage').
    assert (q' = p0) by congruence. subst q'. lia.
Qed.

Lemma spouse_of_parent r p s :
  heap st !! r = Some p -> spouse p = Some s -> is_parent r <-> is_parent s.
Proof.
  intros Hp Hs. destruct (inv_spouse st I _ _ _ Hp Hs) as (q & Hq & Hqs & _).
  split.
  - intros [->|Hr].
    + right. congruence.
    + left. destruct (inv_spouse st I _ _ _ Hp0 Hr) as (q' & Hq' & Hqs' & _). congruence.
  - intros [->|Hr].
    + right. congruence.
    + left. destruct (inv_spouse st I _ _ _ Hp0 Hr) as (q' & Hq' & Hqs' & _). congruence.
Qed.

End ChildAdded.

Lemma child_added_family person year st st' :
  generation_invariant st -> family_invariant st ->
  (person < length (heap st))%nat -> expanding person st ->
  (elder_year st person + 25 <= year <= elder_year st person + 45)%Z ->
  (1975 <= year <= cutoff)%Z ->
  child_added person year st st' ->
  family_invariant st' /\ expanding person st' /\
  elder_year st' person = elder_year st person.
Proof.
  intros I F Hvalid [E1 E2] Hwin Hyear (c & Hyb & _ & Hsp & Hch & Hheap & _ & Hqueue & _).
  destruct (lookup_lt_is_Some_2 _ _ Hvalid) as [p0 Hp0].
  rewrite (list_lookup_total_correct _ _ _ Hp0) in E2.
  assert (Hcy : year_born c = year) by (rewrite Hyb; apply clamp_id; unfold cutoff in *; lia).
  set (n := length (heap st)) in *.
  pose proof (added_cases st person c p0 I F Hp0) as Hcases.
  pose proof (added_old st person c p0 I F Hp0) as Hold.
  pose proof (parent_lt st person p0 I Hp0) as Hplt.
  fold n in Hcases, Hold, Hplt. rewrite <- Hheap in Hcases, Hold.
  assert (Hnew : forall q, heap st' !! n = Some q -> q = c).
  { intros q Hq. destruct (Hcases n q Hq) as [[_ ->]|[(? & _)|(? & _)]]; [done|lia|lia]. }
  assert (Hqv : forall r, r ∈ queue st ->
            (r < n)%nat /\ ~ (r = person \/ spouse p0 = Some r)).
  { intros r Hr. split; [by apply invariant_valid|].
    intros [->|Hs]; [done|]. by apply (E2 r). }
  assert (Hqn : n ∉ queue st).
  { intros Hin. apply Hqv in Hin. lia. }
  assert (Hperson : exists p1, heap st' !! person = Some p1 /\
                      year_born p1 = year_born p0 /\ spouse p1 = spouse p0).
  { destruct (lookup_lt_is_Some_2 (heap st') person) as [p1 Hp1].
    { rewrite Hheap. destruct (with_child_grown person n (heap st ++ [c])) as [-> _].
      rewrite length_app. simpl. lia. }
    destruct (Hold person p1 Hp1 ltac:(lia)) as (p & Hp & Hy & Hs & _).
    exists p1. split; [done|]. split; congruence. }
  destruct Hperson as (p1 & Hp1 & Hy1 & Hs1).
  split; [|split].
  - split; rewrite ?Hqueue.
    + apply NoDup_app. split; [apply (fam_queue_nodup st F)|].
      split; [|apply NoDup_singleton].
      intros r Hr Hr'. apply list_elem_of_singleton in Hr'. by subst r.
    + intros r p' Hr Hp'. apply elem_of_app in Hr as [Hr|Hr].
      * destruct (Hqv r Hr) as [Hlt Hnp].
        destruct (Hold r p' Hp' ltac:(lia)) as (p & Hp & _ & _ & _ & _ & Hsame).
        rewrite (Hsame Hnp). by eapply (fam_queue_childless st F).
      * apply list_elem_of_singleton in Hr. subst r. by rewrite (Hnew _ Hp').
    + intros r p' s Hr Hp' Hs Hin. apply elem_of_app in Hr as [Hr|Hr].
      * destruct (Hqv r Hr) as [Hlt Hnp].
        destruct (Hold r p' Hp' ltac:(lia)) as (p & Hp & _ & Hsp' & _).
        rewrite Hsp' in Hs.
        apply elem_of_app in Hin as [Hin|Hin].
        -- by eapply (fam_queue_spouse st F r p s).
        -- apply list_elem_of_singleton in Hin. subst s.
           destruct (inv_spouse st I _ _ _ Hp Hs) as (q & Hq & _).
           apply lookup_lt_Some in Hq. fold n in Hq. lia.
      * apply list_elem_of_singleton in Hr. subst r.
        rewrite (Hnew _ Hp') in Hs. congruence.
    + intros r p' Hp' Hs.
      destruct (decide (r = n)) as [->|Hne].
      { rewrite (Hnew _ Hp') in Hs. congruence. }
      destruct (Hold r p' Hp' Hne) as (p & Hp & _ & Hsp' & _).
      rewrite Hsp' in Hs. by eapply (fam_no_self st F).
    + intros r p' s q Hp' Hs Hq.
      destruct (decide (r = n)) as [->|Hne].
      { rewrite (Hnew _ Hp') in Hs. congruence. }
      destruct (Hold r p' Hp' Hne) as (p & Hp & _ & Hsp' & _ & Hpar & Hnpar).
      rewrite Hsp' in Hs.
      destruct (inv_spouse st I _ _ _ Hp Hs) as (q0 & Hq0 & _).
      assert (Hsn : s <> n) by (apply lookup_lt_Some in Hq0; fold n in Hq0; lia).
      destruct (Hold s q Hq Hsn) as (q1 & Hq1 & _ & _ & _ & Hpar' & Hnpar').
      assert (q1 = q0) by congruence. subst q1.
      pose proof (fam_shared st F _ _ _ _ Hp Hs Hq0) as Hshared.
      pose proof (spouse_of_parent st person p0 I Hp0 r p s Hp Hs) as Hiff.
      destruct (decide (r = person \/ spouse p0 = Some r)) as [Hr|Hr].
      * rewrite (Hpar Hr), (Hpar' (proj1 Hiff Hr)). by rewrite Hshared.
      * rewrite (Hnpar Hr). rewrite (Hnpar' (fun H => Hr (proj2 Hiff H))). done.
    + intros r p' Hp'.
      destruct (decide (r = n)) as [->|Hne].
      { rewrite (Hnew _ Hp'), Hch. constructor. }
      destruct (Hold r p' Hp' Hne) as (p & Hp & _ & _ & _ & Hpar & Hnpar).
      pose proof (fam_nodup st F _ _ Hp) as Hnd.
      destruct (decide (r = person \/ spouse p0 = Some r)) as [Hr|Hr].
      * rewrite (Hpar Hr). apply NoDup_app. split; [done|].
        split; [|apply NoDup_singleton].
        intros x Hx Hx'. apply list_elem_of_singleton in Hx'. subst x.
        pose proof (old_child_lt st I r p n Hp Hx). fold n in H. lia.
      * by rewrite (Hnpar Hr).
    + intros r r' p' p'' x Hp' Hp'' Hx Hx'.
      destruct (decide (r = n)) as [->|Hne].
      { rewrite (Hnew _ Hp'), Hch in Hx. by apply elem_of_nil in Hx. }
      destruct (decide (r' = n)) as [->|Hne'].
      { rewrite (Hnew _ Hp''), Hch in Hx'. by apply elem_of_nil in Hx'. }
      destruct (Hold r p' Hp' Hne) as (p & Hp & _ & Hsp' & Hin & _).
      destruct (Hold r' p'' Hp'' Hne') as (pb & Hpb & _ & _ & Hin' & _).
      rewrite Hsp'.
      destruct (Hin x Hx) as [Hxo|[Hxn Hr]]; destruct (Hin' x Hx') as [Hxo'|[Hxn' Hr']].
      * by eapply (fam_parents st F r r' p pb x).
      * subst x. pose proof (old_child_lt st I r p n Hp Hxo). fold n in H. lia.
      * subst x. pose proof (old_child_lt st I r' pb n Hpb Hxo'). fold n in H. lia.
      * by eapply (parents_couple st person p0 I Hp0 r r' p).
    + intros r p' x q Hp' Hx Hq.
      destruct (decide (r = n)) as [->|Hne].
      { rewrite (Hnew _ Hp'), Hch in Hx. by apply elem_of_nil in Hx. }
      destruct (Hold r p' Hp' Hne) as (p & Hp & Hy & _ & Hin & _).
      rewrite Hy.
      destruct (Hin x Hx) as [Hxo|[-> Hr]].
      * pose proof (old_child_lt st I r p x Hp Hxo) as Hlt. fold n in Hlt.
        destruct (Hold x q Hq ltac:(lia)) as (q0 & Hq0 & Hyq & _).
        rewrite Hyq. by eapply (fam_ages st F r p x q0).
      * rewrite (Hnew _ Hq), Hcy. split; [by apply Hplt|].
        pose proof (parent_year st person p0 I Hp0 r p Hr Hp). lia.
  - split; rewrite ?Hqueue.
    + intros Hin. apply elem_of_app in Hin as [Hin|Hin]; [done|].
      apply list_elem_of_singleton in Hin. unfold n in Hin. lia.
    + intros s Hs Hin. rewrite (list_lookup_total_correct _ _ _ Hp1), Hs1 in Hs.
      apply elem_of_app in Hin as [Hin|Hin]; [by apply (E2 s)|].
      apply list_elem_of_singleton in Hin. subst s.
      pose proof (Hplt n (or_intror Hs)). lia.
  - unfold elder_year. cbv zeta.
    rewrite (list_lookup_total_correct _ _ _ Hp1), (list_lookup_total_correct _ _ _ Hp0).
    rewrite Hs1, Hy1. destruct (spouse p0) as [s|] eqn:Hs; [|done].
    destruct (inv_spouse st I _ _ _ Hp0 Hs) as (q & Hq & _).
    pose proof (lookup_lt_Some _ _ _ Hq) as Hlt. fold n in Hlt.
    destruct (lookup_lt_is_Some_2 (heap st') s) as [q1 Hq1].
    { rewrite Hheap. destruct (with_child_grown person n (heap st ++ [c])) as [-> _].
      rewrite length_app. simpl. lia. }
    destruct (Hold s q1 Hq1 ltac:(lia)) as (q0 & Hq0 & Hyq & _).
    rewrite (list_lookup_total_correct _ _ _ Hq1), (list_lookup_total_correct _ _ _ Hq).
    congruence.
Qed.

Lemma children_added_family person years elder st st' :
  generation_invariant st -> family_invariant st ->
  (person < length (heap st))%nat -> expanding person st ->
  elder_year st person = elder ->
  Forall (fun y => (elder + 25 <= y <= elder + 45)%Z /\ (1975 <= y <= cutoff)%Z) years ->
  children_added person years st st' ->
  family_invariant st'.
Proof.
  intros I F Hvalid E He Hyears Hadd. revert I F Hvalid E He Hyears.
  induction Hadd as [st st' S|year years st st1 st' Hc Hrest IH];
    intros I F Hvalid E He Hyears.
  - by eapply same_store_family.
  - apply Forall_cons in Hyears as [[Hwin Hyear] Hyears].
    destruct (child_added_invariant _ _ _ _ I Hvalid Hyear Hc) as (I1 & _ & _ & Hlen1 & _).
    destruct (child_added_family person year st st1 I F Hvalid E
                ltac:(rewrite He; done) Hyear Hc) as (F1 & E1 & He1).
    apply IH; [done|done|lia|done|congruence|done].
Qed.

(** One expansion keeps the families in order. *)
Lemma expanded_family bound person rest st st' :
  generation_invariant st -> family_invariant st -> queue st = person :: rest ->
  expanded bound person (dequeued st rest) st' ->
  family_invariant st'.
Proof.
  intros I F Hq (st1 & count & Hm & _ & Hadd).
  pose proof (dequeued_invariant st person rest I Hq) as I0.
  assert (Hvalid : (person < length (heap st))%nat).
  { apply invariant_valid; [done|]. rewrite Hq. apply list_elem_of_here. }
  destruct (dequeued_family st person rest F Hq Hvalid) as (F0 & E0 & Hnone).
  destruct (married_invariant person _ st1 I0 Hvalid Hm) as (I1 & Hext1 & _).
  destruct (married_family person _ st1 I0 F0 Hvalid E0 Hnone Hm) as (F1 & E1).
  destruct (lookup_lt_is_Some_2 _ _ Hvalid) as [p Hp].
  destruct (Hext1 _ _ Hp) as (p1 & Hp1 & Ey1 & _).
  destruct (elder_year_bounds st1 person p1 I1 Hp1) as [He1 He2].
  pose proof (inv_years st1 I1 _ _ Hp1) as Hy1.
  eapply (children_added_family person _ (elder_year st1 person) st1 st');
    [done|done|by eapply lookup_lt_Some|done|done| |exact Hadd].
  apply Forall_forall. intros y Hy. apply kept_years_range in Hy; [done|lia].
Qed.

Lemma founders_family d1 d2 oracle draws :
  family_invariant
    (mkState [mkPerson 1950 d1 "Desmond" "Jones" (Some 1%nat) [];
              mkPerson 1950 d2 "Molly" "Smith" (Some 0%nat) []]
             [0%nat; 1%nat] [0%nat] oracle draws).
Proof.
  split; simpl.
  - apply NoDup_singleton.
  - intros r p Hr Hp. apply list_elem_of_singleton in Hr as ->. by simplify_eq/=.
  - intros r p s Hr Hp Hs Hin. apply list_elem_of_singleton in Hr as ->.
    apply list_elem_of_singleton in Hin as ->. by simplify_eq/=.
  - intros [|[|r]] p Hr; by simplify_eq/=.
  - intros [|[|r]] p s q Hr Hs Hq; by simplify_eq/=.
  - intros [|[|r]] p Hr; simplify_eq/=; constructor.
  - intros [|[|r]] r' p p' c Hr Hr' Hc; simplify_eq/=; by apply elem_of_nil in Hc.
  - intros [|[|r]] p c q Hr Hc; simplify_eq/=; by apply elem_of_nil in Hc.
Qed.

(** The state the founders are created in, spelled out. *)
Lemma init_roots_founders factory oracle st :
  FamilyTree.init_roots factory (FamilyTree.empty_state oracle) = Ok tt st ->
  exists d1 d2 draws,
    st = mkState [mkPerson 1950 d1 "Desmond" "Jones" (Some 1%nat) [];
                  mkPerson 1950 d2 "Molly" "Smith" (Some 0%nat) []]
                 [0%nat; 1%nat] [0%nat] oracle draws.
Proof.
  unfold FamilyTree.init_roots, FamilyTree.determine_year_died. intros Hi.
  inv_bind Hi as d1 st1 E1. inv_bind E1 as le1 st2 E2. apply dict_index_Ok in E2 as [_ ->].
  inv_bind E1 as v1 st3 E3. apply randint_Ok in E3 as [_ ->]. ok_inv E1.
  inv_bind Hi as r1 st4 E4. ok_inv E4.
  inv_bind Hi as d2 st5 E5. inv_bind E5 as le2 st6 E6. apply dict_index_Ok in E6 as [_ ->].
  inv_bind E5 as v2 st7 E7. apply randint_Ok in E7 as [_ ->]. ok_inv E5.
  inv_bind Hi as r2 st8 E8. ok_inv E8.
  inv_bind Hi as u1 st9 E9. ok_inv E9.
  inv_bind Hi as u2 st10 E10. ok_inv E10.
  inv_bind Hi as u3 st11 E11. ok_inv E11.
  inv_bind Hi as u4 st12 E12. ok_inv E12.
  ok_inv Hi. eauto.
Qed.

Lemma create_founders_founders factory oracle st :
  FamilyTreeAI._create_founders factory (FamilyTreeAI.empty_state oracle) = Ok tt st ->
  exists d1 d2 draws,
    st = mkState [mkPerson 1950 d1 "Desmond" "Jones" (Some 1%nat) [];
                  mkPerson 1950 d2 "Molly" "Smith" (Some 0%nat) []]
                 [0%nat; 1%nat] [0%nat] oracle draws.
Proof.
  unfold FamilyTreeAI._create_founders. intros Hi.
  inv_bind Hi as v1 st3 E3. apply randint_Ok in E3 as [_ ->].
  inv_bind Hi as r1 st4 E4. ok_inv E4.
  inv_bind Hi as v2 st7 E7. apply randint_Ok in E7 as [_ ->].
  inv_bind Hi as r2 st8 E8. ok_inv E8.
  inv_bind Hi as u1 st9 E9. ok_inv E9.
  inv_bind Hi as u2 st10 E10. ok_inv E10.
  inv_bind Hi as u3 st11 E11. ok_inv E11.
  inv_bind Hi as u4 st12 E12. ok_inv E12.
  ok_inv Hi. eauto.
Qed.

Section FamilyLoop.
Variables (step : ref -> M unit) (bound : Z).
Hypothesis step_expanded : forall person rest st st',
  generation_invariant st -> queue st = person :: rest ->
  step person (dequeued st rest) = Ok tt st' ->
  expanded bound person (dequeued st rest) st'.

Lemma reached_family init st :
  generation_invariant init -> family_invariant init -> reached step init st ->
  generation_invariant st /\ family_invariant st /\ extends init st /\
  exists l, people st = people init ++ l.
Proof.
  intros I0 F0 Hr. induction Hr as [|st person rest st' _ IH Hq Hs].
  { split; [done|]. split; [done|]. split; [apply extends_refl|].
    exists []. by rewrite app_nil_r. }
  destruct IH as (I & F & Hext & l & Hl).
  apply (pop_then_step step) in Hs.
  pose proof (step_expanded _ _ _ _ I Hq Hs) as He.
  destruct (expanded_invariant bound person rest st st' I Hq He) as (I' & Hext' & _).
  split; [done|]. split; [exact (expanded_family bound person rest st st' I F Hq He)|].
  split; [exact (extends_trans _ _ _ Hext Hext')|].
  rewrite (inv_people st' I'). rewrite (inv_people init I0).
  rewrite (inv_people st I), (inv_people init I0) in Hl.
  exists (seq (length (heap init)) (length (heap st') - length (heap init))).
  rewrite <- seq_app. f_equal.
  assert (length (heap init) <= length (heap st'))%nat; [|lia].
  destruct (decide (length (heap init) <= length (heap st'))%nat) as [|Hn]; [done|].
  exfalso. pose proof (invariant_two init I0).
  destruct (lookup_lt_is_Some_2 (heap init) (length (heap init) - 1)) as [p Hp]; [lia|].
  destruct (Hext _ _ Hp) as (p2 & Hp2 & _). destruct (Hext' _ _ Hp2) as (p3 & Hp3 & _).
  apply lookup_lt_Some in Hp3. lia.
Qed.

End FamilyLoop.

Lemma run_family factory fuel oracle st :
  FamilyTree.run factory fuel oracle = Ok tt st ->
  generation_invariant st /\ family_invariant st.
Proof.
  unfold FamilyTree.run. intros Hrun. inv_bind Hrun as u st0 E0. destruct u.
  pose proof (init_roots_invariant _ _ _ E0) as [I0 _].
  apply init_roots_founders in E0 as (d1 & d2 & draws & ->).
  rewrite generate_family_tree_loop in Hrun.
  apply run_loop_reached in Hrun as [Hr _].
  destruct (reached_family _ (children_bound factory) (step_expanded_human factory)
              _ _ I0 (founders_family _ _ _ _) Hr) as (I & F & _).
  done.
Qed.

Lemma bootstrap_family factory fuel oracle st :
  FamilyTreeAI.bootstrap factory fuel oracle = Ok tt st ->
  generation_invariant st /\ family_invariant st.
Proof.
  unfold FamilyTreeAI.bootstrap. intros Hrun. inv_bind Hrun as u st0 E0. destruct u.
  pose proof (create_founders_invariant _ _ _ E0) as [I0 _].
  apply create_founders_founders in E0 as (d1 & d2 & draws & ->).
  rewrite expand_tree_loop in Hrun.
  apply run_loop_reached in Hrun as [Hr _].
  destruct (reached_family _ (children_bound_ai factory) (step_expanded_ai factory)
              _ _ I0 (founders_family _ _ _ _) Hr) as (I & F & _).
  done.
Qed.

(** ** The tree while it grows *)

Lemma generated_in_progress e fuel oracle st :
  generation_of e fuel oracle = Ok tt st -> in_progress e st /\ queue st = [].
Proof.
  destruct e as [factory|factory]; simpl.
  - unfold FamilyTree.run. intros Hrun. inv_bind Hrun as u st0 E0. destruct u.
    rewrite generate_family_tree_loop in Hrun.
    apply run_loop_reached in Hrun as [Hr Hq]. split; [|done]. by exists oracle, st0.
  - unfold FamilyTreeAI.bootstrap. intros Hrun. inv_bind Hrun as u st0 E0. destruct u.
    rewrite expand_tree_loop in Hrun.
    apply run_loop_reached in Hrun as [Hr Hq]. split; [|done]. by exists oracle, st0.
Qed.

Lemma generated_tree_state st : generated st -> tree_state st.
Proof.
  intros (e & fuel & oracle & H). exists e. by apply generated_in_progress in H as [H _].
Qed.

Lemma step_expanded_of e :
  exists bound, forall person rest st st',
    generation_invariant st -> queue st = person :: rest ->
    expansion_of e person (dequeued st rest) = Ok tt st' ->
    expanded bound person (dequeued st rest) st'.
Proof.
  destruct e as [factory|factory].
  - exists (children_bound factory). apply step_expanded_human.
  - exists (children_bound_ai factory). apply step_expanded_ai.
Qed.

Lemma founders_of_state e oracle st0 :
  founders_of e (FamilyTree.empty_state oracle) = Ok tt st0 ->
  generation_invariant st0 /\ family_invariant st0.
Proof.
  intros H.
  assert (exists d1 d2 draws,
    st0 = mkState [mkPerson 1950 d1 "Desmond" "Jones" (Some 1%nat) [];
                   mkPerson 1950 d2 "Molly" "Smith" (Some 0%nat) []]
                  [0%nat; 1%nat] [0%nat] oracle draws) as (d1 & d2 & draws & ->).
  { destruct e; [by eapply init_roots_founders|by eapply create_founders_founders]. }
  split; [apply founders_invariant|apply founders_family].
Qed.

Lemma in_progress_invariants e st :
  in_progress e st -> generation_invariant st /\ family_invariant st.
Proof.
  intros (oracle & st0 & H0 & Hr).
  destruct (founders_of_state e oracle st0 H0) as [I0 F0].
  destruct (step_expanded_of e) as [bound Hstep].
  destruct (reached_family _ bound Hstep st0 st I0 F0 Hr) as (I & F & _). done.
Qed.

Lemma tree_state_invariants st :
  tree_state st -> generation_invariant st /\ family_invariant st.
Proof. intros [e H]. by eapply in_progress_invariants. Qed.

Lemma tree_state_lookup st r :
  tree_state st -> r ∈ people st -> heap st !! r = Some (heap st !!! r).
Proof.
  intros H Hr. destruct (tree_state_invariants st H) as [I _].
  apply (invariant_registered st r I) in Hr as [p Hp].
  by rewrite (list_lookup_total_correct _ _ _ Hp).
Qed.

(** The tree the engine with defaults grows from empty tables when every
    draw is 0 is a tree state. *)
Ltac sample_tree_state :=
  apply generated_tree_state;
  exists (fallback no_data), 200%nat, (fun _ => 0%N); vm_compute; reflexivity.

Ltac sample_member n := apply list_elem_of_lookup; exists n; reflexivity.

(** Every person either engine creates is registered, once, in the order of
    creation; the registry never holds fewer than the two founders. *)
Theorem registry_lists_everyone st :
  tree_state st ->
  people st = seq 0 (length (heap st)) /\ NoDup (people st) /\
  (2 <= length (people st))%nat.
Proof.
  intros H. destruct (tree_state_invariants st H) as [I _].
  rewrite (inv_people st I). split; [done|]. split; [apply NoDup_seq|].
  rewrite length_seq. by apply invariant_two.
Qed.

Lemma registry_lists_everyone_witness :
  exists st, FamilyTreeAI.bootstrap no_data 200 (fun _ => 0%N) = Ok tt st /\
    people st = seq 0 (length (heap st)) /\ NoDup (people st) /\
    (2 <= length (people st))%nat.
Proof.
  eexists. split; [vm_compute; reflexivity|].
  apply registry_lists_everyone. sample_tree_state.
Defined.

(** The two of a couple are registered, distinct, and born at most ten
    years apart. *)
Theorem spouses_close_in_age st r s :
  tree_state st -> r ∈ people st -> spouse (heap st !!! r) = Some s ->
  s <> r /\ s ∈ people st /\
  (year_born (heap st !!! r) - 10 <= year_born (heap st !!! s)
   <= year_born (heap st !!! r) + 10)%Z.
Proof.
  intros H Hr Hs. destruct (tree_state_invariants st H) as [I F].
  pose proof (tree_state_lookup st r H Hr) as Hp.
  destruct (inv_spouse st I _ _ _ Hp Hs) as (q & Hq & Hqs & Hage).
  destruct (inv_spouse st I _ _ _ Hq Hqs) as (p' & Hp' & _ & Hage').
  rewrite (list_lookup_total_correct _ _ _ Hq).
  assert (p' = heap st !!! r) by congruence. subst p'.
  split; [intros ->; by apply (fam_no_self st F _ _ Hp)|].
  split; [apply (invariant_registered st s I); eauto|lia].
Qed.

Lemma spouses_close_in_age_witness :
  exists st, FamilyTreeAI.bootstrap no_data 200 (fun _ => 0%N) = Ok tt st /\
    (year_born (heap st !!! 2%nat) - 10 <= year_born (heap st !!! 3%nat)
     <= year_born (heap st !!! 2%nat) + 10)%Z.
Proof.
  eexists. split; [vm_compute; reflexivity|].
  apply (spouses_close_in_age _ 2%nat 3%nat).
  - sample_tree_state.
  - sample_member 2%nat.
  - reflexivity.
Defined.

(** The two of a couple hold the same list of children. *)
Theorem couples_share_children st r s :
  tree_state st -> r ∈ people st -> spouse (heap st !!! r) = Some s ->
  children (heap st !!! s) = children (heap st !!! r).
Proof.
  intros H Hr Hs. destruct (tree_state_invariants st H) as [I F].
  pose proof (tree_state_lookup st r H Hr) as Hp.
  destruct (inv_spouse st I _ _ _ Hp Hs) as (q & Hq & _).
  rewrite (list_lookup_total_correct _ _ _ Hq).
  by eapply (fam_shared st F r _ s q).
Qed.

Lemma couples_share_children_witness :
  exists st, FamilyTreeAI.bootstrap no_data 200 (fun _ => 0%N) = Ok tt st /\
    children (heap st !!! 3%nat) = children (heap st !!! 2%nat) /\
    children (heap st !!! 2%nat) <> [].
Proof.
  eexists. split; [vm_compute; reflexivity|]. split.
  - apply (couples_share_children _ 2%nat 3%nat).
    + sample_tree_state.
    + sample_member 2%nat.
    + reflexivity.
  - discriminate.
Defined.

(** Nobody lists a child twice, and two persons who list the same child are
    one person or a couple: a child has at most two parents, married to each
    other. *)
Theorem child_of_one_couple st r r' c :
  tree_state st -> r ∈ people st -> r' ∈ people st ->
  c ∈ children (heap st !!! r) -> c ∈ children (heap st !!! r') ->
  NoDup (children (heap st !!! r)) /\
  (r = r' \/ spouse (heap st !!! r) = Some r').
Proof.
  intros H Hr Hr' Hc Hc'. destruct (tree_state_invariants st H) as [I F].
  pose proof (tree_state_lookup st r H Hr) as Hp.
  pose proof (tree_state_lookup st r' H Hr') as Hp'.
  split; [by eapply (fam_nodup st F)|by eapply (fam_parents st F r r' _ _ c)].
Qed.

Lemma child_of_one_couple_witness :
  exists st, FamilyTreeAI.bootstrap no_data 200 (fun _ => 0%N) = Ok tt st /\
    NoDup (children (heap st !!! 0%nat)) /\
    (0%nat = 1%nat \/ spouse (heap st !!! 0%nat) = Some 1%nat).
Proof.
  eexists. split; [vm_compute; reflexivity|].
  apply (child_of_one_couple _ 0%nat 1%nat 2%nat).
  - sample_tree_state.
  - sample_member 0%nat.
  - sample_member 1%nat.
  - apply list_elem_of_here.
  - apply list_elem_of_here.
Defined.

(** A child is registered, was created after the parent, and is born 15 to
    45 years after the parent: 25 to 45 years after the elder of the couple,
    who is at most ten years older than the other. *)
Theorem children_born_after_parents st r c :
  tree_state st -> r ∈ people st -> c ∈ children (heap st !!! r) ->
  c ∈ people st /\ (r < c)%nat /\
  (year_born (heap st !!! r) + 15 <= year_born (heap st !!! c)
   <= year_born (heap st !!! r) + 45)%Z.
Proof.
  intros H Hr Hc. destruct (tree_state_invariants st H) as [I F].
  pose proof (tree_state_lookup st r H Hr) as Hp.
  destruct (inv_children st I _ _ _ Hp Hc) as (q & Hq & _).
  rewrite (list_lookup_total_correct _ _ _ Hq).
  split; [apply (invariant_registered st c I); eauto|].
  by eapply (fam_ages st F r _ c q).
Qed.

Lemma children_born_after_parents_witness :
  exists st, FamilyTreeAI.bootstrap no_data 200 (fun _ => 0%N) = Ok tt st /\
    (year_born (heap st !!! 0%nat) + 15 <= year_born (heap st !!! 2%nat)
     <= year_born (heap st !!! 0%nat) + 45)%Z.
Proof.
  eexists. split; [vm_compute; reflexivity|].
  apply (children_born_after_parents _ 0%nat 2%nat).
  - sample_tree_state.
  - sample_member 0%nat.
  - apply list_elem_of_here.
Defined.

(** Serving the queue only adds: from one head of the loop to a later one
    every person is still there with the same birth year and surname and at
    least the same children, and the registry is the old one with the new
    persons appended. *)
Theorem generation_only_adds e st st' :
  in_progress e st -> reached (expansion_of e) st st' ->
  extends st st' /\ exists new, people st' = people st ++ new.
Proof.
  intros Hin Hr. destruct (in_progress_invariants e st Hin) as [I F].
  destruct (step_expanded_of e) as [bound Hstep].
  destruct (reached_family _ bound Hstep st st' I F Hr) as (_ & _ & Hext & Hnew). done.
Qed.

Lemma generation_only_adds_witness :
  exists st0 st',
    FamilyTreeAI._create_founders no_data (FamilyTreeAI.empty_state (fun _ => 0%N))
      = Ok tt st0 /\
    FamilyTreeAI.expand no_data 0%nat (dequeued st0 []) = Ok tt st' /\
    extends st0 st' /\ exists new, people st' = people st0 ++ new.
Proof.
  eexists _, _. split; [vm_compute; reflexivity|]. split; [vm_compute; reflexivity|].
  apply (generation_only_adds (fallback no_data)).
  - eexists (fun _ => 0%N), _. split; [vm_compute; reflexivity|apply reached_init].
  - eapply reached_step; [apply reached_init|reflexivity|vm_compute; reflexivity].
Defined.

(** ** Lifespans *)

Section Lifespan.
Local Open Scope Q_scope.

Lemma py_int_between x a b :
  inject_Z a <= x -> x <= inject_Z b -> (a <= py_int x <= b)%Z.
Proof.
  intros Ha Hb. unfold py_int. destruct (Qle_bool 0 x).
  - split.
    + apply Qfloor_resp_le in Ha. by rewrite Qfloor_Z in Ha.
    + rewrite Zle_Qle. eapply Qle_trans; [apply Qfloor_le|done].
  - split.
    + rewrite Zle_Qle. eapply Qle_trans; [exact Ha|apply Qle_ceiling].
    + apply Qceiling_resp_le in Hb. by rewrite Qceiling_Z in Hb.
Qed.

Lemma fl_between x a b :
  (Z.abs a <= 2 ^ 53)%Z -> (Z.abs b <= 2 ^ 53)%Z ->
  inject_Z a <= x -> x <= inject_Z b -> inject_Z a <= fl x /\ fl x <= inject_Z b.
Proof.
  intros Ha Hb Hax Hxb. split.
  - rewrite <- (fl_inject_Z a Ha). by apply fl_mono.
  - rewrite <- (fl_inject_Z b Hb). by apply fl_mono.
Qed.

Lemma float_sum_between x v a b :
  (Z.abs v <= 10)%Z -> (Z.abs a <= 2 ^ 52)%Z -> (Z.abs b <= 2 ^ 52)%Z ->
  inject_Z a <= x -> x <= inject_Z b ->
  (a + v <= py_int (fadd x (of_int v)) <= b + v)%Z.
Proof.
  intros Hv Ha Hb Hax Hxb.
  assert (Ev : of_int v == inject_Z v).
  { apply small_int. change 9007199254740992%Z with (2 ^ 53)%Z.
    assert (10 <= 2 ^ 53)%Z by done. lia. }
  assert (H52 : (2 ^ 52 + 10 <= 2 ^ 53)%Z) by done.
  unfold fadd. apply py_int_between.
  - apply fl_between with (b := (b + v)%Z); [lia|lia| |];
      rewrite Ev, inject_Z_plus; lra.
  - apply fl_between with (a := (a + v)%Z); [lia|lia| |];
      rewrite Ev, inject_Z_plus; lra.
Qed.

(** [int(year_born + life_expectancy + variation)] lies between the sums
    with the expectancy rounded down and rounded up. *)
Lemma lifespan_bounds year_born life_expectancy variation :
  (0 <= year_born <= 1000000)%Z ->
  - (1000000) <= life_expectancy -> life_expectancy <= 1000000 ->
  (-10 <= variation <= 10)%Z ->
  (year_born + Qfloor life_expectancy + variation
   <= py_int (fadd (fadd (of_int year_born) life_expectancy) (of_int variation))
   <= year_born + Qceiling life_expectancy + variation)%Z.
Proof.
  intros Hy Hl1 Hl2 Hv.
  assert (Ey : of_int year_born == inject_Z year_born).
  { apply small_int. lia. }
  pose proof (Qfloor_le life_expectancy) as Hf.
  pose proof (Qle_ceiling life_expectancy) as Hc.
  assert (Hfl : (-1000000 <= Qfloor life_expectancy)%Z).
  { change (- (1000000)) with (inject_Z (-1000000)) in Hl1.
    apply Qfloor_resp_le in Hl1. by rewrite Qfloor_Z in Hl1. }
  assert (Hcl : (Qceiling life_expectancy <= 1000000)%Z).
  { change 1000000 with (inject_Z 1000000) in Hl2.
    apply Qceiling_resp_le in Hl2. by rewrite Qceiling_Z in Hl2. }
  assert (Hfc : (Qfloor life_expectancy <= Qceiling life_expectancy)%Z).
  { rewrite Zle_Qle. lra. }
  assert (H52 : (3000000 <= 2 ^ 52)%Z) by done.
  assert (H53 : (3000000 <= 2 ^ 53)%Z) by done.
  destruct (fl_between (of_int year_born + life_expectancy)
              (year_born + Qfloor life_expectancy) (year_born + Qceiling life_expectancy))
    as [H1 H2]; [lia|lia|rewrite Ey, inject_Z_plus; lra|rewrite Ey, inject_Z_plus; lra|].
  apply float_sum_between; [lia|lia|lia|exact H1|exact H2].
Qed.

Lemma founder_lifespan_bounds life_expectancy variation :
  - (1000000) <= life_expectancy -> life_expectancy <= 1000000 ->
  (-10 <= variation <= 10)%Z ->
  (Qfloor life_expectancy + variation
   <= py_int (fadd life_expectancy (of_int variation))
   <= Qceiling life_expectancy + variation)%Z.
Proof.
  intros Hl1 Hl2 Hv.
  assert (Hfl : (-1000000 <= Qfloor life_expectancy)%Z).
  { change (- (1000000)) with (inject_Z (-1000000)) in Hl1.
    apply Qfloor_resp_le in Hl1. by rewrite Qfloor_Z in Hl1. }
  assert (Hcl : (Qceiling life_expectancy <= 1000000)%Z).
  { change 1000000 with (inject_Z 1000000) in Hl2.
    apply Qceiling_resp_le in Hl2. by rewrite Qceiling_Z in Hl2. }
  assert (Hfc : (Qfloor life_expectancy <= Qceiling life_expectancy)%Z).
  { rewrite Zle_Qle. pose proof (Qfloor_le life_expectancy).
    pose proof (Qle_ceiling life_expectancy). lra. }
  assert (H52 : (3000000 <= 2 ^ 52)%Z) by done.
  apply float_sum_between; [lia|lia|lia|apply Qfloor_le|apply Qle_ceiling].
Qed.

End Lifespan.

Lemma variation_at_range oracle n : (-10 <= variation_at oracle n <= 10)%Z.
Proof.
  unfold variation_at. pose proof (Z.mod_pos_bound (Z.of_N (oracle n)) 21). lia.
Qed.

Lemma init_roots_outcome factory oracle :
  match PersonFactory.life_expectancy_by_decade factory !! "1950s"%string with
  | None =>
      FamilyTree.init_roots factory (FamilyTree.empty_state oracle) = Raise KeyError
  | Some le =>
      FamilyTree.init_roots factory (FamilyTree.empty_state oracle)
      = Ok tt (founders_state
                 (py_int (fadd (fadd (of_int 1950) le) (of_int (variation_at oracle 0))))
                 (py_int (fadd (fadd (of_int 1950) le) (of_int (variation_at oracle 1))))
                 oracle 2)
  end.
Proof.
  unfold FamilyTree.init_roots, FamilyTree.determine_year_died.
  change (decade_key 1950) with "1950s"%string.
  unfold dict_index.
  destruct (PersonFactory.life_expectancy_by_decade factory !! "1950s"%string) as [le|];
    reflexivity.
Qed.

Lemma create_founders_outcome factory oracle :
  let le := PersonFactoryAI.get_life_expectancy factory "1950s" in
  FamilyTreeAI._create_founders factory (FamilyTreeAI.empty_state oracle)
  = Ok tt (founders_state
             (1950 + py_int (fadd le (of_int (variation_at oracle 0))))
             (1950 + py_int (fadd le (of_int (variation_at oracle 1))))
             oracle 2).
Proof. reflexivity. Qed.

(** The founders. [init_roots] raises [KeyError] before creating anyone
    when the life expectancy table lacks the 1950s and [_create_founders]
    falls back to its default; otherwise two random draws are used and the
    state is the two founders, married to each other, both registered, the
    first one alone in the queue. *)
Theorem founders_created :
  (forall factory oracle,
     PersonFactory.life_expectancy_by_decade factory !! "1950s"%string = None ->
     FamilyTree.init_roots factory (FamilyTree.empty_state oracle) = Raise KeyError) /\
  (forall factory oracle le,
     PersonFactory.life_expectancy_by_decade factory !! "1950s"%string = Some le ->
     FamilyTree.init_roots factory (FamilyTree.empty_state oracle)
     = Ok tt (founders_state
                (py_int (fadd (fadd (of_int 1950) le) (of_int (variation_at oracle 0))))
                (py_int (fadd (fadd (of_int 1950) le) (of_int (variation_at oracle 1))))
                oracle 2)) /\
  (forall factory oracle,
     FamilyTreeAI._create_founders factory (FamilyTreeAI.empty_state oracle)
     = Ok tt (founders_state
                (1950 + py_int (fadd (PersonFactoryAI.get_life_expectancy factory "1950s")
                                     (of_int (variation_at oracle 0))))
                (1950 + py_int (fadd (PersonFactoryAI.get_life_expectancy factory "1950s")
                                     (of_int (variation_at oracle 1))))
                oracle 2)).
Proof.
  split; [|split].
  - intros factory oracle H. pose proof (init_roots_outcome factory oracle) as Ho.
    by rewrite H in Ho.
  - intros factory oracle le H. pose proof (init_roots_outcome factory oracle) as Ho.
    by rewrite H in Ho.
  - intros factory oracle. apply create_founders_outcome.
Qed.

Lemma founders_created_witness :
  FamilyTree.init_roots sparse_data (FamilyTree.empty_state (fun _ => 3%N))
  = Ok tt (founders_state 2011 2011 (fun _ => 3%N) 2).
Proof.
  rewrite (proj1 (proj2 founders_created) sparse_data (fun _ => 3%N) 68%Q);
    [|reflexivity].
  vm_compute. reflexivity.
Defined.

(** A lifespan stays within ten years of the life expectancy looked up for
    the decade of birth, rounded down or up to whole years: for the persons
    [get_person] makes, for the years [determine_year_died] returns and for
    the founders of both engines. *)
Theorem lifespan_near_expectancy :
  (forall factory year st r st',
     PersonFactory.get_person factory year st = Ok r st' ->
     exists le,
       PersonFactory.life_expectancy_by_decade factory
         !! decade_key (year_born (heap st' !!! r)) = Some le /\
       (moderate le ->
        (Qfloor le - 10 <= year_died (heap st' !!! r) - year_born (heap st' !!! r)
         <= Qceiling le + 10)%Z)) /\
  (forall factory year override st r st',
     PersonFactoryAI.get_person factory year override st = Ok r st' ->
     let le := PersonFactoryAI.get_life_expectancy factory
                 (decade_key (year_born (heap st' !!! r))) in
     moderate le ->
     (Qfloor le - 10 <= year_died (heap st' !!! r) - year_born (heap st' !!! r)
      <= Qceiling le + 10)%Z) /\
  (forall factory year st year_died st',
     FamilyTree.determine_year_died factory year st = Ok year_died st' ->
     exists le,
       PersonFactory.life_expectancy_by_decade factory !! decade_key year = Some le /\
       ((0 <= year <= 1000000)%Z -> moderate le ->
        (Qfloor le - 10 <= year_died - year <= Qceiling le + 10)%Z)) /\
  (forall factory oracle st r,
     FamilyTreeAI._create_founders factory (FamilyTreeAI.empty_state oracle) = Ok tt st ->
     (r < 2)%nat ->
     let le := PersonFactoryAI.get_life_expectancy factory "1950s" in
     moderate le ->
     (Qfloor le - 10 <= year_died (heap st !!! r) - year_born (heap st !!! r)
      <= Qceiling le + 10)%Z).
Proof.
  split; [|split; [|split]].
  - intros factory year st r st' H.
    apply get_person_Ok in H as (p & le & v & -> & (Hh & _) & Hy & _ & _ & Hle & Hv & Hd).
    assert (Hp : heap st' !!! length (heap st) = p).
    { apply list_lookup_total_correct. rewrite Hh. apply list_lookup_middle. done. }
    rewrite Hp, Hy. exists le. split; [done|]. intros [Hl1 Hl2]. rewrite Hd.
    pose proof (clamp_range year).
    pose proof (lifespan_bounds (clamp year) le v ltac:(lia) Hl1 Hl2 Hv). lia.
  - intros factory year override st r st' H.
    apply get_person_ai_Ok in H as (p & v & -> & (Hh & _) & Hy & _ & _ & _ & Hv & Hd).
    assert (Hp : heap st' !!! length (heap st) = p).
    { apply list_lookup_total_correct. rewrite Hh. apply list_lookup_middle. done. }
    rewrite Hp, Hy. cbv zeta. unfold PersonFactoryAI.get_life_expectancy.
    intros [Hl1 Hl2]. rewrite Hd.
    pose proof (clamp_range year).
    pose proof (lifespan_bounds (clamp year) _ v ltac:(lia) Hl1 Hl2 Hv). lia.
  - intros factory year st yd st' H. unfold FamilyTree.determine_year_died in H.
    inv_bind H as le st1 E1. apply dict_index_Ok in E1 as [Hle ->].
    inv_bind H as v st2 E2. apply randint_Ok in E2 as [Hv ->].
    apply ret_Ok in H as [<- _]. exists le. split; [done|]. intros Hy [Hl1 Hl2].
    pose proof (lifespan_bounds year le v Hy Hl1 Hl2 Hv). lia.
  - intros factory oracle st r H Hr. rewrite create_founders_outcome in H.
    injection H as <-. cbv zeta. intros [Hl1 Hl2].
    pose proof (variation_at_range oracle 0) as Hv0.
    pose proof (variation_at_range oracle 1) as Hv1.
    pose proof (founder_lifespan_bounds _ _ Hl1 Hl2 Hv0).
    pose proof (founder_lifespan_bounds _ _ Hl1 Hl2 Hv1).
    destruct r as [|[|r]]; [| |lia];
      cbn [founders_state heap lookup_total list_lookup_total year_died year_born]. all: lia.
Qed.

Lemma lifespan_near_expectancy_witness :
  exists r st',
    PersonFactoryAI.get_person no_data 1985%Z None (FamilyTreeAI.empty_state (fun _ => 0%N))
    = Ok r st' /\
    (80 - 10 <= year_died (heap st' !!! r) - year_born (heap st' !!! r) <= 80 + 10)%Z.
Proof.
  eexists _, _. split; [vm_compute; reflexivity|].
  apply (proj1 (proj2 lifespan_near_expectancy) no_data 1985%Z None
           (FamilyTreeAI.empty_state (fun _ => 0%N))).
  - vm_compute. reflexivity.
  - split; vm_compute; discriminate.
Defined.

(** ** The outcomes of [get_person] *)

Lemma weighted_choice_outcome cs st :
  PersonFactory.weighted_choice cs st =
    match cs with
    | [] => Raise IndexError
    | _ => if Qle_bool (total_weight cs) 0 then Raise ValueError
           else if negb (forallb isfinite (random.accumulate (map snd cs)))
           then Raise ValueError
           else Ok (picked cs st) (advance st)
    end.
Proof.
  destruct cs as [|c cs]; [done|]. unfold PersonFactory.weighted_choice.
  by rewrite choices_pairs.
Qed.

Lemma weighted_pick_outcome cs st :
  PersonFactoryAI._weighted_pick cs st =
    match cs with
    | [] => Ok "Unknown"%string st
    | _ => if Qle_bool (total_weight cs) 0 then Raise ValueError
           else if negb (forallb isfinite (random.accumulate (map snd cs)))
           then Raise ValueError
           else Ok (picked cs st) (advance st)
    end.
Proof.
  destruct cs as [|c cs]; [done|]. unfold PersonFactoryAI._weighted_pick.
  by rewrite choices_pairs.
Qed.

Lemma randint_variation st :
  random.randint (-10) 10 st = Ok (variation_at (oracle st) (draws st)) (advance st).
Proof. reflexivity. Qed.

Lemma Qle_bool_pos x : (0 < x)%Q -> Qle_bool x 0 = false.
Proof.
  intros Hx. destruct (Qle_bool x 0) eqn:E; [|done]. apply Qle_bool_iff in E. lra.
Qed.

Lemma Qle_bool_nonpos x : (x <= 0)%Q -> Qle_bool x 0 = true.
Proof. intros Hx. by apply Qle_bool_iff. Qed.

Lemma drawable_nonempty cs : drawable cs -> cs <> [].
Proof. intros [Hpos _] ->. by vm_compute in Hpos. Qed.

Lemma drawable_dec cs : {drawable cs} + {~ drawable cs}.
Proof.
  unfold drawable, finite_sums.
  destruct (Qlt_le_dec 0 (total_weight cs)) as [Hp|Hn].
  - destruct (forallb isfinite (random.accumulate (map snd cs))) eqn:E.
    + by left.
    + right. by intros [_ ?].
  - right. intros [Hp _]. lra.
Qed.

Lemma weighted_choice_drawable cs st :
  drawable cs -> PersonFactory.weighted_choice cs st = Ok (picked cs st) (advance st).
Proof.
  intros [Hpos Hfin]. rewrite weighted_choice_outcome.
  destruct cs; [by vm_compute in Hpos|].
  unfold finite_sums in Hfin. by rewrite Qle_bool_pos, Hfin.
Qed.

Lemma weighted_choice_not_drawable cs st :
  cs <> [] -> ~ drawable cs -> PersonFactory.weighted_choice cs st = Raise ValueError.
Proof.
  intros Hne Hnd. rewrite weighted_choice_outcome. destruct cs as [|c cs]; [done|].
  destruct (Qle_bool (total_weight (c :: cs)) 0) eqn:E; [done|].
  destruct (forallb isfinite _) eqn:F; [|done].
  exfalso. apply Hnd. split; [|done].
  apply Qnot_le_lt. intros Hle. apply Qle_bool_iff in Hle. congruence.
Qed.

Lemma get_person_closed factory year st :
  let year_born := PersonFactory.clamp_year_to_data year in
  let decade := decade_key year_born in
  let firsts := PersonFactory.defaultdict_index
                  (PersonFactory.first_name_by_decade factory) decade in
  let lasts := PersonFactory.defaultdict_index
                 (PersonFactory.last_name_by_decade factory) decade in
  drawable firsts -> drawable lasts ->
  PersonFactory.get_person factory year st =
    match PersonFactory.life_expectancy_by_decade factory !! decade with
    | None => Raise KeyError
    | Some life_expectancy =>
        let variation := variation_at (oracle st) (2 + draws st) in
        Ok (length (heap st))
           (with_person
              (mkPerson year_born
                 (py_int (fadd (fadd (of_int year_born) life_expectancy)
                               (of_int variation)))
                 (picked firsts st) (picked lasts (advance st)) None [])
              3 st)
    end.
Proof.
  intros yb decade firsts lasts Hf Hl. unfold PersonFactory.get_person. cbv zeta.
  fold yb. fold decade. fold firsts. fold lasts.
  rewrite (bind_Ok_eq _ _ _ _ _ (weighted_choice_drawable firsts st Hf)).
  rewrite (bind_Ok_eq _ _ _ _ _ (weighted_choice_drawable lasts (advance st) Hl)).
  unfold dict_index.
  destruct (PersonFactory.life_expectancy_by_decade factory !! decade) as [le|]; [|done].
  reflexivity.
Qed.

(** The outcomes of [PersonFactory.get_person], in the order the lookups are
    made: a decade without first names (the table is a [defaultdict], so a
    missing decade reads as the empty list) raises [IndexError], first names
    that [random.choices] does not accept raise [ValueError], then the same
    for the last names, then a decade without life expectancy raises
    [KeyError]; otherwise three draws are used and one person is created,
    unmarried and childless, born in the clamped year, and neither
    registered nor queued. *)
Theorem get_person_outcome factory year st :
  let year_born := PersonFactory.clamp_year_to_data year in
  let decade := decade_key year_born in
  let firsts := PersonFactory.defaultdict_index
                  (PersonFactory.first_name_by_decade factory) decade in
  let lasts := PersonFactory.defaultdict_index
                 (PersonFactory.last_name_by_decade factory) decade in
  (firsts = [] -> PersonFactory.get_person factory year st = Raise IndexError) /\
  (firsts <> [] -> ~ drawable firsts ->
   PersonFactory.get_person factory year st = Raise ValueError) /\
  (drawable firsts -> lasts = [] ->
   PersonFactory.get_person factory year st = Raise IndexError) /\
  (drawable firsts -> lasts <> [] -> ~ drawable lasts ->
   PersonFactory.get_person factory year st = Raise ValueError) /\
  (drawable firsts -> drawable lasts ->
   PersonFactory.life_expectancy_by_decade factory !! decade = None ->
   PersonFactory.get_person factory year st = Raise KeyError) /\
  (forall life_expectancy,
   drawable firsts -> drawable lasts ->
   PersonFactory.life_expectancy_by_decade factory !! decade = Some life_expectancy ->
   PersonFactory.get_person factory year st =
     Ok (length (heap st))
        (with_person
           (mkPerson year_born
              (py_int (fadd (fadd (of_int year_born) life_expectancy)
                            (of_int (variation_at (oracle st) (2 + draws st)))))
              (picked firsts st) (picked lasts (advance st)) None [])
           3 st)).
Proof.
  intros yb decade firsts lasts.
  split; [|split; [|split; [|split; [|split]]]].
  - intros Hf. unfold PersonFactory.get_person. cbv zeta.
    fold yb. fold decade. fold firsts. apply bind_Raise.
    rewrite weighted_choice_outcome. by rewrite Hf.
  - intros Hne Hw. unfold PersonFactory.get_person. cbv zeta.
    fold yb. fold decade. fold firsts. apply bind_Raise.
    by apply weighted_choice_not_drawable.
  - intros Hf Hl. unfold PersonFactory.get_person. cbv zeta.
    fold yb. fold decade. fold firsts. fold lasts.
    rewrite (bind_Ok_eq _ _ _ _ _ (weighted_choice_drawable firsts st Hf)).
    apply bind_Raise. rewrite weighted_choice_outcome. by rewrite Hl.
  - intros Hf Hne Hw. unfold PersonFactory.get_person. cbv zeta.
    fold yb. fold decade. fold firsts. fold lasts.
    rewrite (bind_Ok_eq _ _ _ _ _ (weighted_choice_drawable firsts st Hf)).
    apply bind_Raise. by apply weighted_choice_not_drawable.
  - intros Hf Hl Hnone.
    pose proof (get_person_closed factory year st Hf Hl) as Hc. cbv zeta in Hc.
    fold yb decade in Hc. by rewrite Hnone in Hc.
  - intros le Hf Hl Hsome.
    pose proof (get_person_closed factory year st Hf Hl) as Hc. cbv zeta in Hc.
    fold yb decade in Hc. by rewrite Hsome in Hc.
Qed.

Lemma get_person_outcome_witness :
  PersonFactory.get_person sparse_data 1985 (FamilyTree.empty_state (fun _ => 0%N))
  = Ok 0%nat
       (with_person (mkPerson 1985 2049 "Molly" "Smith" None []) 3
          (FamilyTree.empty_state (fun _ => 0%N))) /\
  PersonFactory.get_person sparse_data 1975 (FamilyTree.empty_state (fun _ => 0%N))
  = Raise IndexError.
Proof.
  split.
  - rewrite (proj2 (proj2 (proj2 (proj2 (proj2
              (get_person_outcome sparse_data 1985
                 (FamilyTree.empty_state (fun _ => 0%N))))))) 74%Q);
      [vm_compute; reflexivity|split; by vm_compute|split; by vm_compute|reflexivity].
  - apply (proj1 (get_person_outcome sparse_data 1975
                    (FamilyTree.empty_state (fun _ => 0%N)))).
    reflexivity.
Defined.

Lemma choice_gender st :
  random.choice ["male"; "female"]%string st = Ok (drawn_gender st) (advance st).
Proof. reflexivity. Qed.

Lemma usable_cases cs : usable cs \/ (cs <> [] /\ ~ drawable cs).
Proof.
  destruct cs as [|c cs]; [left; by left|].
  destruct (drawable_dec (c :: cs)) as [Hd|Hd]; [left; by right|by right].
Qed.

Lemma weighted_pick_usable cs st :
  usable cs ->
  exists name n, PersonFactoryAI._weighted_pick cs st = Ok name (advanced n st) /\
                 (n <= 1)%nat /\ (cs = [] -> name = "Unknown"%string).
Proof.
  intros [->|Hpos].
  - exists "Unknown"%string, 0%nat. split; [by destruct st|]. split; [lia|done].
  - destruct Hpos as [Hpos Hfin]. exists (picked cs st), 1%nat.
    rewrite weighted_pick_outcome.
    destruct cs as [|c cs]; [by vm_compute in Hpos|]. rewrite Qle_bool_pos by done.
    unfold finite_sums in Hfin. rewrite Hfin.
    split; [done|]. split; [lia|done].
Qed.

Lemma weighted_pick_unusable cs st :
  cs <> [] -> ~ drawable cs ->
  PersonFactoryAI._weighted_pick cs st = Raise ValueError.
Proof.
  intros Hne Hnd. rewrite <- (weighted_choice_not_drawable cs st Hne Hnd).
  by destruct cs.
Qed.

(** The outcomes of [get_person] in [person_factory_ai.py]. A missing
    decade falls back to a single name of weight 1 and an empty list to the
    placeholder, so the only exception is the [ValueError] of a list that is
    not empty and that [random.choices] does not accept: the first names of
    the drawn gender, or the last names when no surname is forced. Otherwise
    two to four draws are used and one person is created, unmarried and
    childless, born in the clamped year, with the forced surname if there is
    one, and neither registered nor queued. *)
Theorem get_person_ai_outcome factory year override st :
  let born := PersonFactoryAI._clamp_year year in
  let decade := decade_key born in
  let firsts := dict_get (PersonFactoryAI._first_names factory)
                  (decade, drawn_gender st) [("Unknown"%string, 1%Q)] in
  let lasts := dict_get (PersonFactoryAI._last_names factory) decade
                 [("Unknown"%string, 1%Q)] in
  (forall e, PersonFactoryAI.get_person factory year override st = Raise e ->
             e = ValueError) /\
  (firsts <> [] -> ~ drawable firsts ->
   PersonFactoryAI.get_person factory year override st = Raise ValueError) /\
  (usable firsts -> override = None -> lasts <> [] -> ~ drawable lasts ->
   PersonFactoryAI.get_person factory year override st = Raise ValueError) /\
  (usable firsts -> (override = None -> usable lasts) ->
   exists p n,
     PersonFactoryAI.get_person factory year override st
     = Ok (length (heap st)) (with_person p n st) /\
     (2 <= n <= 4)%nat /\
     year_born p = born /\ spouse p = None /\ children p = [] /\
     (forall name, override = Some name -> last_name p = name) /\
     (firsts = [] -> first_name p = "Unknown"%string) /\
     (override = None -> lasts = [] -> last_name p = "Unknown"%string)).
Proof.
  intros yb decade firsts lasts.
  assert (Hbad1 : firsts <> [] -> ~ drawable firsts ->
    PersonFactoryAI.get_person factory year override st = Raise ValueError).
  { intros Hne Hw. unfold PersonFactoryAI.get_person. cbv zeta.
    rewrite (bind_Ok_eq _ _ _ _ _ (choice_gender st)).
    apply bind_Raise. by apply weighted_pick_unusable. }
  assert (Hbad2 : usable firsts -> override = None -> lasts <> [] ->
    ~ drawable lasts ->
    PersonFactoryAI.get_person factory year override st = Raise ValueError).
  { intros Hu -> Hne Hw. unfold PersonFactoryAI.get_person. cbv zeta.
    rewrite (bind_Ok_eq _ _ _ _ _ (choice_gender st)).
    destruct (weighted_pick_usable firsts (advance st) Hu) as (first & n & E & _).
    fold yb decade firsts in E |- *. rewrite (bind_Ok_eq _ _ _ _ _ E).
    apply bind_Raise. by apply weighted_pick_unusable. }
  assert (Hgood : usable firsts -> (override = None -> usable lasts) ->
   exists p n,
     PersonFactoryAI.get_person factory year override st
     = Ok (length (heap st)) (with_person p n st) /\
     (2 <= n <= 4)%nat /\
     year_born p = yb /\ spouse p = None /\ children p = [] /\
     (forall name, override = Some name -> last_name p = name) /\
     (firsts = [] -> first_name p = "Unknown"%string) /\
     (override = None -> lasts = [] -> last_name p = "Unknown"%string)).
  { intros Hu Hl. unfold PersonFactoryAI.get_person. cbv zeta.
    rewrite (bind_Ok_eq _ _ _ _ _ (choice_gender st)).
    destruct (weighted_pick_usable firsts (advance st) Hu) as (first & n1 & E1 & Hn1 & Hf).
    fold yb decade firsts in E1 |- *. rewrite (bind_Ok_eq _ _ _ _ _ E1).
    destruct override as [name|].
    - rewrite (bind_Ok_eq _ _ _ name (advanced n1 (advance st))) by done.
      rewrite (bind_Ok_eq _ _ _ _ _ (randint_variation _)).
      eexists _, (S (S n1)). split; [unfold alloc, with_person, advanced, advance; simpl;
        repeat f_equal; lia|].
      split; [lia|]. simpl. repeat split; try done. by intros ? [= ->].
    - destruct (weighted_pick_usable lasts (advanced n1 (advance st)) (Hl eq_refl))
        as (last & n2 & E2 & Hn2 & Hlast).
      fold lasts. rewrite (bind_Ok_eq _ _ _ _ _ E2).
      rewrite (bind_Ok_eq _ _ _ _ _ (randint_variation _)).
      eexists _, (S (S (n1 + n2))). split; [unfold alloc, with_person, advanced, advance;
        simpl; repeat f_equal; lia|].
      split; [lia|]. simpl. repeat split; try done. }
  split; [|split; [done|split; [done|done]]].
  intros e He.
  destruct (usable_cases firsts) as [Hu|[Hne Hw]].
  2: { rewrite (Hbad1 Hne Hw) in He. congruence. }
  destruct override as [name|].
  - destruct (Hgood Hu ltac:(done)) as (p & n & E & _). congruence.
  - destruct (usable_cases lasts) as [Hul|[Hne Hw]].
    + destruct (Hgood Hu (fun _ => Hul)) as (p & n & E & _). congruence.
    + rewrite (Hbad2 Hu eq_refl Hne Hw) in He. congruence.
Qed.

Lemma get_person_ai_outcome_witness :
  exists p n,
    PersonFactoryAI.get_person no_data 2500 (Some "Jones"%string)
      (FamilyTreeAI.empty_state (fun _ => 0%N))
    = Ok 0%nat (with_person p n (FamilyTreeAI.empty_state (fun _ => 0%N))) /\
    year_born p = 2129%Z /\ last_name p = "Jones"%string.
Proof.
  destruct (proj2 (proj2 (proj2 (get_person_ai_outcome no_data 2500 (Some "Jones"%string)
              (FamilyTreeAI.empty_state (fun _ => 0%N))))))
    as (p & n & E & _ & Hy & _ & _ & Hl & _).
  - right. split; by vm_compute.
  - done.
  - exists p, n. split; [exact E|]. split; [exact Hy|]. by apply Hl.
Defined.

(** ** Generations that finish *)

Section Complete.
Variable factory : PersonFactory.t.
Hypothesis Hcomplete : complete factory.

Lemma get_person_complete year st :
  exists r st', PersonFactory.get_person factory year st = Ok r st'.
Proof.
  pose proof (clamp_range year) as Hr. rewrite <- clamp_year_to_data_eq in Hr.
  pose proof (get_person_closed factory year st
                (complete_first_names factory Hcomplete _ Hr)
                (complete_last_names factory Hcomplete _ Hr)) as Hc.
  cbv zeta in Hc.
  destruct (cov_life_expectancy factory (complete_covered factory Hcomplete) _ Hr)
    as [le Hle].
  rewrite Hle in Hc. eauto.
Qed.

Lemma dict_index_complete table year st :
  covers table -> (1950 <= year <= 2129)%Z ->
  exists v, dict_index table (decade_key year) st = Ok v st.
Proof.
  intros Hc Hy. unfold dict_index. destruct (Hc year Hy) as [v ->]. by exists v.
Qed.

Lemma marriage_step_complete person year st :
  (1950 <= year <= 2129)%Z ->
  exists st', FamilyTree.marriage_step factory person (decade_key year) st = Ok tt st'.
Proof.
  intros Hy. unfold FamilyTree.marriage_step. unfold bind at 1. cbn [read].
  destruct (spouse _); [by eexists|].
  destruct (dict_index_complete _ year st
              (cov_marriage_rate factory (complete_covered factory Hcomplete)) Hy)
    as [rate Er].
  rewrite (bind_Ok_eq _ _ _ _ _ Er).
  rewrite (bind_Ok_eq _ _ _ _ _ (random_Ok st)).
  destruct (Qlt_bool _ _); [|by eexists].
  unfold bind at 1. cbn [read].
  rewrite (bind_Ok_eq _ _ _ _ _ (randint_variation _)).
  destruct (get_person_complete
              (year_born (heap (advance st) !!! person)
               + variation_at (oracle (advance st)) (draws (advance st)))
              (advance (advance st))) as (r & st1 & Eg).
  rewrite (bind_Ok_eq _ _ _ _ _ Eg). by eexists.
Qed.

Lemma add_child_for_year_complete person year st :
  exists st', FamilyTree.add_child_for_year factory person year st = Ok tt st'.
Proof.
  unfold FamilyTree.add_child_for_year.
  destruct (get_person_complete year st) as (r & st1 & Eg).
  rewrite (bind_Ok_eq _ _ _ _ _ Eg).
  destruct (choice_total FamilyTree.root_last_names st1) as (name & En & _); [done|].
  rewrite (bind_Ok_eq _ _ _ _ _ En).
  unfold bind, update, read, people_append, queue_append. cbn [heap].
  destruct (spouse _); by eexists.
Qed.

Lemma children_step_complete person year st :
  (1950 <= year <= 2129)%Z ->
  exists st', FamilyTree.children_step factory person (decade_key year) st = Ok tt st'.
Proof.
  intros Hy. unfold FamilyTree.children_step.
  destruct (dict_index_complete _ year st
              (cov_birth_rate factory (complete_covered factory Hcomplete)) Hy)
    as [rate Er].
  rewrite (bind_Ok_eq _ _ _ _ _ Er).
  destruct (randint_total _ _ st (min_le_max_children rate)) as (n & En & _).
  rewrite (bind_Ok_eq _ _ _ _ _ En).
  destruct (n =? 0)%Z; [by eexists|].
  unfold bind at 1. cbn [read]. unfold bind at 1. cbn [read].
  assert (exists elder, match spouse (heap (advance st) !!! person) with
            | Some s => let* spouse_year_born := read s year_born in
                        ret (Z.min (year_born (heap (advance st) !!! person)) spouse_year_born)
            | None => ret (year_born (heap (advance st) !!! person))
            end (advance st) = Ok elder (advance st)) as (elder & Ee).
  { destruct (spouse _); by eexists. }
  rewrite (bind_Ok_eq _ _ _ _ _ Ee). cbv zeta.
  apply for_each_total. intros y st1.
  destruct (y >? 2120)%Z; [by eexists|].
  by apply add_child_for_year_complete.
Qed.

Lemma expand_complete person st :
  (1950 <= year_born (heap st !!! person) <= 2129)%Z ->
  exists st', FamilyTree.expand factory person st = Ok tt st'.
Proof.
  intros Hy. unfold FamilyTree.expand. unfold bind at 1. cbn [read].
  destruct (marriage_step_complete person _ st Hy) as (st1 & E1).
  rewrite (bind_Ok_eq _ _ _ _ _ E1). by apply children_step_complete.
Qed.

Lemma run_loop_complete fuel st e :
  generation_invariant st ->
  run_loop (FamilyTree.expand factory) fuel st <> Raise e.
Proof.
  revert st. induction fuel as [|fuel IH]; intros st Hinv; simpl.
  - by destruct (queue st).
  - destruct (queue st) as [|person rest] eqn:Hq; [done|].
    unfold bind at 1. cbn [set_queue]. fold (dequeued st rest).
    destruct (expand_complete person (dequeued st rest)) as (st1 & E1).
    { cbn [dequeued heap].
      destruct (inv_queue st Hinv person) as (p & Hp & _); [rewrite Hq; left|].
      rewrite (list_lookup_total_correct _ _ _ Hp). by eapply inv_years. }
    rewrite (bind_Ok_eq _ _ _ _ _ E1). apply IH.
    apply (expanded_invariant (children_bound factory) person rest st st1 Hinv Hq).
    by apply step_expanded_human.
Qed.

Lemma run_complete fuel oracle :
  (weight (children_bound factory) 1950 <= Z.of_nat fuel)%Z ->
  exists st, FamilyTree.run factory fuel oracle = Ok tt st.
Proof.
  intros Hf. pose proof (run_terminates factory fuel oracle Hf) as Ht.
  unfold FamilyTree.run in *.
  pose proof (init_roots_outcome factory oracle) as Ho.
  destruct (cov_life_expectancy factory (complete_covered factory Hcomplete) 1950%Z)
    as [le Hle]; [lia|].
  change (decade_key 1950) with "1950s"%string in Hle. rewrite Hle in Ho.
  rewrite (bind_Ok_eq _ _ _ _ _ Ho) in *. rewrite generate_family_tree_loop in *.
  destruct (run_loop _ fuel _) as [[] st| |] eqn:E; [eauto| |done].
  exfalso. eapply run_loop_complete; [|exact E]. apply founders_invariant.
Qed.

End Complete.

(** With complete tables [FamilyTree.py] grows a tree for every sequence of
    draws: some number of loop iterations is enough whatever is drawn, and
    the run then returns normally with an empty queue. *)
Theorem complete_data_completes factory :
  complete factory ->
  exists fuel0, forall fuel oracle, (fuel0 <= fuel)%nat ->
    exists st, FamilyTree.run factory fuel oracle = Ok tt st /\ queue st = [].
Proof.
  intros Hc. exists (Z.to_nat (weight (children_bound factory) 1950)).
  intros fuel oracle Hf.
  destruct (run_complete factory Hc fuel oracle) as [st Hst]; [lia|].
  exists st. split; [done|]. by apply run_invariant in Hst as [_ Hq].
Qed.

Lemma decade_in_range year :
  (1950 <= year <= 2129)%Z ->
  exists k, (k < 18)%nat /\ decade_key year = decade_key (1950 + 10 * Z.of_nat k).
Proof.
  intros Hy. exists (Z.to_nat ((year - 1950) / 10)).
  pose proof (Z.div_mod (year - 1950) 10 ltac:(lia)) as Hd.
  pose proof (Z.mod_pos_bound (year - 1950) 10 ltac:(lia)) as Hm.
  assert (0 <= (year - 1950) / 10 < 18)%Z as Hq by lia.
  split; [lia|]. unfold decade_key. do 2 f_equal.
  rewrite Z2Nat.id by lia.
  assert (year / 10 = 195 + (year - 1950) / 10)%Z as ->.
  { replace year with ((year - 1950) + 195 * 10)%Z at 1 by lia.
    rewrite Z.div_add by lia. lia. }
  assert ((1950 + 10 * ((year - 1950) / 10)) / 10 = 195 + (year - 1950) / 10)%Z as ->.
  { replace (1950 + 10 * ((year - 1950) / 10))%Z
      with (0 + (195 + (year - 1950) / 10) * 10)%Z by lia.
    rewrite Z.div_add by lia. done. }
  done.
Qed.

Lemma uniform_table_lookup {V} (v : V) year :
  (1950 <= year <= 2129)%Z -> uniform_table v !! decade_key year = Some v.
Proof.
  intros Hy. destruct (decade_in_range year Hy) as (k & Hk & ->).
  do 18 (destruct k as [|k]; [reflexivity|]). lia.
Qed.

Lemma uniform_table_values {V} (v v' : V) key :
  uniform_table v !! key = Some v' -> v' = v.
Proof.
  unfold uniform_table. intros H. apply elem_of_list_to_map_2 in H.
  apply list_elem_of_fmap in H as (d & [= _ ->] & _). done.
Qed.

Lemma full_data_complete : complete full_data.
Proof.
  split; [split| |..]; simpl.
  - intros year Hy. rewrite uniform_table_lookup by done. eauto.
  - intros year Hy. rewrite uniform_table_lookup by done. eauto.
  - intros year Hy. rewrite uniform_table_lookup by done. eauto.
  - intros decade b H. apply uniform_table_values in H as ->. by vm_compute.
  - intros year Hy. unfold PersonFactory.defaultdict_index.
    rewrite uniform_table_lookup by done. split; by vm_compute.
  - intros year Hy. unfold PersonFactory.defaultdict_index.
    rewrite uniform_table_lookup by done. split; by vm_compute.
Qed.

Lemma complete_data_completes_witness :
  exists fuel0, forall fuel oracle, (fuel0 <= fuel)%nat ->
    exists st, FamilyTree.run full_data fuel oracle = Ok tt st /\ queue st = [].
Proof. apply complete_data_completes. apply full_data_complete. Defined.

(** ** The exceptions of the engine with defaults *)

Lemma only_ValueError_ret {A} (a : A) : only_ValueError (ret a).
Proof. intros st e H. discriminate. Qed.

Lemma only_ValueError_bind {A B} (m : M A) (k : A -> M B) :
  only_ValueError m -> (forall a, only_ValueError (k a)) -> only_ValueError (bind m k).
Proof.
  intros Hm Hk st e. unfold bind. destruct (m st) as [a st1| |] eqn:E.
  - apply Hk.
  - intros [= <-]. by eapply Hm.
  - done.
Qed.

Lemma only_ValueError_randint a b : only_ValueError (random.randint a b).
Proof.
  intros st e. unfold random.randint. destruct (b <? a)%Z; [by intros [= <-]|].
  by rewrite (bind_Ok_eq _ _ _ _ _ (next_Ok st)).
Qed.

Lemma only_ValueError_choice {A} `{Inhabited A} (x : A) (l : list A) :
  only_ValueError (random.choice (x :: l)).
Proof.
  intros st e. unfold random.choice. by rewrite (bind_Ok_eq _ _ _ _ _ (next_Ok st)).
Qed.

Lemma only_ValueError_weighted_pick cs : only_ValueError (PersonFactoryAI._weighted_pick cs).
Proof.
  intros st e. rewrite weighted_pick_outcome. destruct cs; [done|].
  destruct (Qle_bool _ _); [by intros [= <-]|].
  destruct (negb _); [by intros [= <-]|done].
Qed.

Lemma only_ValueError_for_each {A} (xs : list A) (body : A -> M unit) :
  (forall x, only_ValueError (body x)) -> only_ValueError (for_each xs body).
Proof.
  intros Hb. induction xs as [|x xs IH]; simpl; [apply only_ValueError_ret|].
  apply only_ValueError_bind; [apply Hb|done].
Qed.

Lemma only_ValueError_get_person factory year override :
  only_ValueError (PersonFactoryAI.get_person factory year override).
Proof.
  unfold PersonFactoryAI.get_person. cbv zeta.
  apply only_ValueError_bind; [apply only_ValueError_choice|intros gender].
  apply only_ValueError_bind; [apply only_ValueError_weighted_pick|intros first].
  apply only_ValueError_bind.
  { destruct override; [apply only_ValueError_ret|apply only_ValueError_weighted_pick]. }
  intros last. apply only_ValueError_bind; [apply only_ValueError_randint|].
  intros v st e H. discriminate.
Qed.

Lemma only_ValueError_expand factory person :
  only_ValueError (FamilyTreeAI.expand factory person).
Proof.
  assert (Hread : forall {A B} r (f : Person -> A) (k : A -> M B),
            (forall a, only_ValueError (k a)) -> only_ValueError (bind (read r f) k)).
  { intros A B r f k Hk. apply only_ValueError_bind; [|done]. intros st e H. discriminate. }
  assert (Hunit : forall (m : M unit),
            (forall st, exists st', m st = Ok tt st') -> only_ValueError m).
  { intros m Hm st e H. destruct (Hm st) as [st' E]. congruence. }
  unfold FamilyTreeAI.expand. apply Hread. intros yb.
  apply only_ValueError_bind.
  - unfold FamilyTreeAI.marriage_step. apply Hread. intros [s|]; [apply only_ValueError_ret|].
    apply only_ValueError_bind; [intros st e H; discriminate|intros u].
    destruct (Qlt_bool _ _); [|apply only_ValueError_ret].
    apply Hread. intros y.
    apply only_ValueError_bind; [apply only_ValueError_randint|intros v].
    apply only_ValueError_bind; [apply only_ValueError_get_person|intros sp].
    apply Hunit. intros st. by eexists.
  - intros []. unfold FamilyTreeAI.children_step. cbv zeta.
    apply only_ValueError_bind; [apply only_ValueError_randint|intros n].
    destruct (n =? 0)%Z; [apply only_ValueError_ret|].
    apply Hread. intros y. apply Hread. intros sp.
    apply only_ValueError_bind.
    { destruct sp; [apply Hread; intros; apply only_ValueError_ret
                   |apply only_ValueError_ret]. }
    intros elder. apply only_ValueError_for_each. intros year.
    destruct (year >? FamilyTreeAI.CUTOFF_YEAR)%Z; [apply only_ValueError_ret|].
    unfold FamilyTreeAI.add_child_for_year.
    apply only_ValueError_bind; [apply only_ValueError_choice|intros name].
    apply only_ValueError_bind; [apply only_ValueError_get_person|intros child].
    apply Hunit. intros st. unfold bind, update, read, people_append, queue_append.
    cbn [heap]. destruct (spouse _); by eexists.
Qed.

Lemma only_ValueError_run_loop step fuel :
  (forall person, only_ValueError (step person)) -> only_ValueError (run_loop step fuel).
Proof.
  intros Hs. induction fuel as [|fuel IH]; intros st e; simpl.
  - by destruct (queue st).
  - destruct (queue st) as [|person rest]; [done|].
    unfold bind at 1. cbn [set_queue].
    apply (only_ValueError_bind (step person) (fun _ => run_loop step fuel)); [apply Hs|done].
Qed.

(** Whatever the tables hold, with birth rates of at most a million, and
    whatever is drawn, the only exception [bootstrap] can end in is
    [ValueError]: that of [random.choices] on a list of names it does not
    accept, or of [random.randint] on the empty range a birth rate below
    -2.5 gives. *)
Theorem bootstrap_raises_only_ValueError factory fuel oracle e :
  moderate_rates (PersonFactoryAI._birth_rates factory) ->
  FamilyTreeAI.bootstrap factory fuel oracle = Raise e -> e = ValueError.
Proof.
  intros _. unfold FamilyTreeAI.bootstrap. rewrite (bind_Ok_eq _ _ _ _ _ (create_founders_outcome _ _)).
  rewrite expand_tree_loop. apply only_ValueError_run_loop. apply only_ValueError_expand.
Qed.

Lemma bootstrap_raises_only_ValueError_witness :
  exists e, FamilyTreeAI.bootstrap zero_weight_data 200 (fun _ => 0%N) = Raise e /\
            e = ValueError.
Proof.
  eexists. split; [vm_compute; reflexivity|].
  apply (bootstrap_raises_only_ValueError zero_weight_data 200 (fun _ => 0%N)).
  - intros decade b H. simpl in H. by rewrite lookup_empty in H.
  - vm_compute. reflexivity.
Defined.

(** ** The year clamps *)

(** [clamp_year_to_data] and [_clamp_year] are the same function: the
    nearest year of [[1950, 2129]]. It is monotone, and it leaves a year
    alone exactly when the year is in that range. *)
Theorem year_clamps_agree year :
  PersonFactory.clamp_year_to_data year = PersonFactoryAI._clamp_year year /\
  (1950 <= PersonFactoryAI._clamp_year year <= 2129)%Z /\
  (PersonFactoryAI._clamp_year year = year <-> (1950 <= year <= 2129)%Z) /\
  (Z.abs (PersonFactoryAI._clamp_year year - year) =
   Z.max 0 (Z.max (1950 - year) (year - 2129)))%Z /\
  (forall year', (year <= year')%Z ->
     (PersonFactoryAI._clamp_year year <= PersonFactoryAI._clamp_year year')%Z).
Proof.
  rewrite clamp_year_to_data_eq.
  unfold PersonFactoryAI._clamp_year, PersonFactoryAI._year_min, PersonFactoryAI._year_max,
    clamp.
  repeat split; lia.
Qed.
